(** * Get-LLM-News: the collection -> deduplication -> ranking pipeline

    A shallow embedding of [collectors/base.py] (the [NewsItem] record, its
    [engagement_score], [BaseCollector.safe_collect]), of
    [processors/dedup.py] ([Deduplicator], [sort_by_engagement],
    [group_by_product], [group_by_source]) and of the merge step of
    [main.run_pipeline].

    Conventions of the embedding.
    - A Python [str] is the list of its code points ([list N]); [py] turns
      an ASCII literal into such a string.
    - A Python [int] is a [Z]; a [float] is a binary64 number, with the
      rounding to nearest of the conversion from [int] and of the
      multiplication, the infinities of an overflowing product and the
      [OverflowError] of an overflowing conversion.
    - [NewsItem] objects are mutable and shared: they live in a heap indexed
      by references, and every list of items is a list of references.
    - A [dict] keeps insertion order, so it is an association list.
    - What comes from Python's own libraries and is not ASCII arithmetic
      (the Unicode character database, [difflib.SequenceMatcher.ratio]) is a
      field of [PyLib], a variable of the development. *)

From Stdlib Require Import String Ascii.
From Stdlib Require Import List Bool Arith ZArith NArith QArith Qpower Lia.
From Stdlib Require Import Permutation Sorted.
Import ListNotations.

Set Implicit Arguments.
Close Scope Q_scope.

(* ------------------------------------------------------------------ *)
(** ** Strings *)

Definition char := N.
Definition str := list char.

Definition py (s : string) : str :=
  List.map N_of_ascii (list_ascii_of_string s).

Fixpoint str_eqb (a b : str) : bool :=
  match a, b with
  | [], [] => true
  | x :: a', y :: b' => N.eqb x y && str_eqb a' b'
  | _, _ => false
  end.

(** [tag in tags] on a list of strings. *)
Definition str_in (s : str) (l : list str) : bool := existsb (str_eqb s) l.

(** [s.startswith(p)], returning what follows the prefix. *)
Fixpoint strip_prefix (p s : str) : option str :=
  match p, s with
  | [], _ => Some s
  | x :: p', y :: s' => if N.eqb x y then strip_prefix p' s' else None
  | _ :: _, [] => None
  end.

Definition is_ascii (c : char) : bool := N.ltb c 128%N.

Definition between (lo hi c : char) : bool := N.leb lo c && N.leb c hi.

(** The ASCII part of the character classes of [re] and [str]. *)
Definition ascii_isalnum (c : char) : bool :=
  between 48%N 57%N c || between 65%N 90%N c || between 97%N 122%N c.

Definition ascii_isspace (c : char) : bool :=
  between 9%N 13%N c || between 28%N 32%N c.

Definition ascii_lower (c : char) : char :=
  if between 65%N 90%N c then (c + 32)%N else c.

(** What the embedding takes from Python's libraries. *)
Record PyLib := {
  (** [ch.isalnum()] for a code point outside ASCII *)
  unicode_isalnum : char -> bool;
  (** [ch.isspace()] for a code point outside ASCII *)
  unicode_isspace : char -> bool;
  (** [s.lower()] for a string that is not pure ASCII *)
  unicode_lower : str -> str;
  (** [difflib.SequenceMatcher(None, a, b).ratio()] *)
  sequence_ratio : str -> str -> Q
}.

(* ------------------------------------------------------------------ *)
(** ** Exceptions *)

(** An exception object with its message.  [except Exception] catches the
    instances of [Exception]; [KeyboardInterrupt], [SystemExit] and
    [asyncio.CancelledError] derive from [BaseException] only. *)
Inductive exn :=
| OfException (msg : str)
| OfBaseException (msg : str).

Definition is_Exception (e : exn) : bool :=
  match e with OfException _ => true | OfBaseException _ => false end.

(** What evaluating an expression or awaiting a coroutine gives. *)
Inductive outcome (A : Type) :=
| Returned (a : A)
| Raised (e : exn).
Arguments Returned {A} a.
Arguments Raised {A} e.

(* ------------------------------------------------------------------ *)
(** ** Floats

    A Python [float] is an IEEE 754 binary64 number.  A finite one is
    written [(m, e)] for the number [m * 2 ^ e]; the floats that the
    arithmetic below produces have a significand of at most 53 bits and an
    exponent of at least -1074.  No operation of the program produces a
    NaN, and no comparison tells the two zeros apart, so neither is kept. *)

Definition finite := (Z * Z)%type.

Inductive pyfloat :=
| Finite (x : finite)
| Infinity (positive : bool).

(** [m / 2 ^ s] rounded to the nearest integer, a tie to the even one. *)
Definition round_half_even (m s : Z) : Z :=
  let f := (m / 2 ^ s)%Z in
  match (2 * (m mod 2 ^ s) ?= 2 ^ s)%Z with
  | Lt => f
  | Gt => (f + 1)%Z
  | Eq => if Z.even f then f else (f + 1)%Z
  end.

(** The binary64 number nearest to [m * 2 ^ e] (round to nearest, ties to
    even): the significand is cut to 53 bits, or to fewer where the
    exponent would fall below -1074; a result of 2^1024 or more is an
    infinity. *)
Definition round_binary64 (m e : Z) : pyfloat :=
  let u := Z.max (e + (Z.log2 (Z.abs m) + 1) - 53) (-1074) in
  let (m', e') :=
    if (u <=? e)%Z then (m, e) else (round_half_even m (u - e), u) in
  if (m' =? 0)%Z then Finite (0%Z, 0%Z)
  else if (1024 <=? Z.log2 (Z.abs m') + e')%Z then Infinity (0 <? m')%Z
  else Finite (m', e').

(** [float(n)] for an [int], as the multiplication of an [int] by a
    [float] converts its left operand: the nearest float, and
    [OverflowError] when there is no finite one. *)
Definition int_to_float (n : Z) : outcome finite :=
  match round_binary64 n 0 with
  | Finite x => Returned x
  | Infinity _ =>
      Raised (OfException (py "OverflowError: int too large to convert to float"))
  end.

(** [x * y] on finite floats; an overflow gives an infinity and raises
    nothing. *)
Definition float_mul (x y : finite) : pyfloat :=
  round_binary64 (fst x * fst y) (snd x + snd y).

(** [n * y] for an [int] and a finite [float]. *)
Definition int_mul_float (n : Z) (y : finite) : outcome pyfloat :=
  match int_to_float n with
  | Returned x => Returned (float_mul x y)
  | Raised e => Raised e
  end.

(** The rational that a finite float denotes. *)
Definition finite_value (x : finite) : Q :=
  (inject_Z (fst x) * 2 ^ snd x)%Q.

(** The place of a float on the rational line: the comparisons of floats
    are the comparisons of their places, every finite float lying
    strictly between the two infinities. *)
Definition float_order (x : pyfloat) : Q :=
  match x with
  | Finite x => finite_value x
  | Infinity true => (2 ^ 1024)%Q
  | Infinity false => (- 2 ^ 1024)%Q
  end.

(** [o] is a finite float, and the rational it denotes is [q]. *)
Definition returns_value (o : outcome pyfloat) (q : Q) : Prop :=
  exists x, o = Returned (Finite x) /\ (finite_value x == q)%Q.

(* ------------------------------------------------------------------ *)
(** ** The record model ([collectors/base.py]) *)

Record NewsItem := {
  title : str;
  content : str;
  source : str;
  url : str;
  published_at : Z;
  author : str;
  author_handle : str;
  engagement : Z;
  comments_count : Z;
  tags : list str;
  is_kol : bool;
  kol_tier : str;
  summary : str;
  sentiment : str;
  language : str;
  collected_at : Z
}.

(** [dict.get(key, default)] on an insertion-ordered dict. *)
Fixpoint dict_get {V : Type} (d : list (str * V)) (k : str) (default : V) : V :=
  match d with
  | [] => default
  | (k', v) :: d' => if str_eqb k k' then v else dict_get d' k default
  end.

(** The floats 3.0, 2.0 and 1.5, and the default 1.0. *)
Definition kol_multipliers : list (str * finite) :=
  [(py "S", (3, 0)%Z); (py "A", (2, 0)%Z); (py "B", (3, -1)%Z)].

Definition kol_multiplier (tier : str) : finite :=
  dict_get kol_multipliers tier (1, 0)%Z.

Definition engagement_score (it : NewsItem) : outcome pyfloat :=
  int_mul_float (engagement it + comments_count it * 2)
                (kol_multiplier (kol_tier it)).

(** [a > b] and [a >= b] on scores. *)
Definition Qgtb (a b : Q) : bool := negb (Qle_bool a b).
Definition Qgeb (a b : Q) : bool := Qle_bool b a.

(* ------------------------------------------------------------------ *)
(** ** The heap of [NewsItem] objects *)

Definition ref := nat.
Definition heap := ref -> NewsItem.

Definition with_tags (it : NewsItem) (ts : list str) : NewsItem :=
  {| title := title it; content := content it; source := source it;
     url := url it; published_at := published_at it; author := author it;
     author_handle := author_handle it; engagement := engagement it;
     comments_count := comments_count it; tags := ts; is_kol := is_kol it;
     kol_tier := kol_tier it; summary := summary it;
     sentiment := sentiment it; language := language it;
     collected_at := collected_at it |}.

(** The effect of [kept_item.tags.append(...)] calls on the object [r]. *)
Definition heap_set_tags (h : heap) (r : ref) (ts : list str) : heap :=
  fun r' => if Nat.eqb r' r then with_tags (h r') ts else h r'.

(** The key that the pipeline compares and sorts by, [x.engagement_score],
    as its place on the rational line.  Where the property raises
    [OverflowError] Python leaves the pipeline at the first comparison; the
    pipeline is modelled for the runs that get through, and such a record is
    given the key 0. *)
Definition score (h : heap) (r : ref) : Q :=
  match engagement_score (h r) with
  | Returned x => float_order x
  | Raised _ => 0%Q
  end.

(* ------------------------------------------------------------------ *)
(** ** Insertion-ordered dicts *)

Fixpoint dict_lookup {V : Type} (d : list (str * V)) (k : str) : option V :=
  match d with
  | [] => None
  | (k', v) :: d' => if str_eqb k k' then Some v else dict_lookup d' k
  end.

(** [d[k] = v]: an existing key keeps its place, a new key goes last. *)
Fixpoint dict_set {V : Type} (d : list (str * V)) (k : str) (v : V)
  : list (str * V) :=
  match d with
  | [] => [(k, v)]
  | (k', v') :: d' =>
      if str_eqb k k' then (k', v) :: d' else (k', v') :: dict_set d' k v
  end.

(** [d.setdefault(k, []).append(v)] *)
Fixpoint setdefault_append {V : Type} (d : list (str * list V)) (k : str) (v : V)
  : list (str * list V) :=
  match d with
  | [] => [(k, [v])]
  | (k', l) :: d' =>
      if str_eqb k k' then (k', l ++ [v]) :: d'
      else (k', l) :: setdefault_append d' k v
  end.

(** [list(dict.fromkeys(keys))]: the keys without repetition, each at the
    place of its first occurrence. *)
Definition dict_fromkeys (keys : list str) : list str :=
  List.map fst (fold_left (fun d k => dict_set d k tt) keys []).

(* ------------------------------------------------------------------ *)
(** ** String helpers used by the two normalisers *)

(** The longest prefix of [s] whose characters satisfy [p], and the rest. *)
Fixpoint span (p : char -> bool) (s : str) : str * str :=
  match s with
  | [] => ([], [])
  | c :: s' =>
      if p c then let (a, b) := span p s' in (c :: a, b) else ([], s)
  end.

Fixpoint drop_while (p : char -> bool) (s : str) : str :=
  match s with
  | [] => []
  | c :: s' => if p c then drop_while p s' else s
  end.

(** Dropping every trailing character that satisfies [p]. *)
Fixpoint rstrip_by (p : char -> bool) (s : str) : str :=
  match s with
  | [] => []
  | c :: s' =>
      match rstrip_by p s' with
      | [] => if p c then [] else [c]
      | r => c :: r
      end
  end.

(** [s.replace(old, new)] for a non-empty [old]: occurrences are replaced
    from left to right without overlap; [skip] counts the characters of an
    occurrence that are still to be passed over. *)
Fixpoint replace_from (old new : str) (skip : nat) (s : str) : str :=
  match s with
  | [] => []
  | c :: s' =>
      match skip with
      | S k => replace_from old new k s'
      | O =>
          match strip_prefix old s with
          | Some _ => new ++ replace_from old new (length old - 1) s'
          | None => c :: replace_from old new 0 s'
          end
      end
  end.

Definition replace (old new s : str) : str := replace_from old new 0 s.

Definition orelse {A : Type} (a b : option A) : option A :=
  match a with Some _ => a | None => b end.

Definition QUESTION : char := 63%N.
Definition AMPERSAND : char := 38%N.
Definition SLASH : char := 47%N.
Definition UNDERSCORE : char := 95%N.
Definition SPACE : char := 32%N.

(** The sentinel product group of [group_by_product], the three ideographs
    U+672A U+5206 U+7C7B ("unclassified"). *)
Definition UNCLASSIFIED : str := [26410%N; 20998%N; 31867%N].

(** [Deduplicator(similarity_threshold=0.75)] *)
Definition default_threshold : Q := (3 # 4)%Q.

(** [needle in haystack] on strings. *)
Fixpoint str_contains (needle haystack : str) : bool :=
  match haystack with
  | [] => match needle with [] => true | _ :: _ => false end
  | _ :: rest =>
      match strip_prefix needle haystack with
      | Some _ => true
      | None => str_contains needle rest
      end
  end.

(* ------------------------------------------------------------------ *)
(** ** The product configuration ([collectors/base.py])

    [settings.get("products", [])] is the list of the product entries of
    the settings file.  Of an entry the code reads [product["name"]],
    which raises [KeyError] when the entry has no name, and
    [product.get("keywords", [])]. *)
Record Product := {
  product_name : option str;
  product_keywords : list str
}.

Definition get_all_keywords (products : list Product) : list str :=
  dict_fromkeys (flat_map product_keywords products).

(** [s.split(sep)] for a separator of one character, and [sep.join(l)]. *)
Fixpoint split_on (sep : char) (s : str) : list str :=
  match s with
  | [] => [[]]
  | c :: s' =>
      if N.eqb c sep then [] :: split_on sep s'
      else match split_on sep s' with
           | w :: ws => (c :: w) :: ws
           | [] => [[c]]
           end
  end.

Fixpoint join (sep : str) (l : list str) : str :=
  match l with
  | [] => []
  | x :: rest =>
      match rest with
      | [] => x
      | _ :: _ => x ++ sep ++ join sep rest
      end
  end.

Definition COMMA : char := 44%N.

(* ------------------------------------------------------------------ *)
(** ** Sorting: [sorted(items, key=..., reverse=True)]

    Python's sort is stable, also with [reverse=True]: it returns the one
    arrangement of the input that is ordered by non-increasing key and in
    which elements of equal key keep their input order
    ([stable_sort_unique] below).  That arrangement is computed here by
    insertion. *)

Fixpoint insert_desc {A : Type} (key : A -> Q) (x : A) (l : list A) : list A :=
  match l with
  | [] => [x]
  | y :: l' => if Qgtb (key y) (key x) then y :: insert_desc key x l' else x :: l
  end.

Definition sorted_desc {A : Type} (key : A -> Q) (l : list A) : list A :=
  fold_right (insert_desc key) [] l.

Definition sort_by_engagement (h : heap) (items : list ref) : list ref :=
  sorted_desc (score h) items.

(** [a] may stand before [b] in a ranking by [key]. *)
Definition ranked_before {A : Type} (key : A -> Q) (a b : A) : Prop :=
  (key b <= key a)%Q.

(** The items whose key is [q], in their order in the list. *)
Definition with_key {A : Type} (key : A -> Q) (q : Q) (l : list A) : list A :=
  List.filter (fun x => Qeq_bool (key x) q) l.

(** [items[:n]] *)
Definition slice_to {A : Type} (n : Z) (l : list A) : list A :=
  if (n <? 0)%Z then firstn (length l - Z.to_nat (- n)) l
  else firstn (Z.to_nat n) l.

(* ------------------------------------------------------------------ *)
(** ** Grouping ([processors/dedup.py]) *)

Definition product_step (h : heap) (groups : list (str * list ref)) (item : ref)
  : list (str * list ref) :=
  match tags (h item) with
  | [] => setdefault_append groups UNCLASSIFIED item
  | ts => fold_left (fun g tag => setdefault_append g tag item) ts groups
  end.

Definition group_by_product (h : heap) (items : list ref)
  : list (str * list ref) :=
  List.map (fun kv => (fst kv, sort_by_engagement h (snd kv)))
           (fold_left (product_step h) items []).

Definition group_by_source (h : heap) (items : list ref)
  : list (str * list ref) :=
  fold_left (fun g item => setdefault_append g (source (h item)) item) items [].

(** The member list of the group [k], empty when there is no such group. *)
Definition members {V : Type} (groups : list (str * list V)) (k : str) : list V :=
  match dict_lookup groups k with Some l => l | None => [] end.

(** The names of the groups in which the object [r] appears. *)
Definition groups_of (groups : list (str * list ref)) (r : ref) : list str :=
  List.map fst (List.filter (fun kv => existsb (Nat.eqb r) (snd kv)) groups).

(** The (group, item) entries that [group_by_product] files, in order. *)
Definition product_entries (h : heap) (item : ref) : list (str * ref) :=
  match tags (h item) with
  | [] => [(UNCLASSIFIED, item)]
  | ts => List.map (fun tag => (tag, item)) ts
  end.

(** Filing (group, value) entries one after the other, and the values
    filed under [k]. *)
Definition file_entries {V : Type} (entries : list (str * V))
  (groups : list (str * list V)) : list (str * list V) :=
  fold_left (fun g e => setdefault_append g (fst e) (snd e)) entries groups.

Definition selected {V : Type} (k : str) (entries : list (str * V)) : list V :=
  List.map snd (List.filter (fun e => str_eqb k (fst e)) entries).

Definition filter_kol_items (h : heap) (items : list ref) : list ref :=
  List.filter (fun r => is_kol (h r)) items.

(* ------------------------------------------------------------------ *)
(** ** Post-processing of a collector ([collectors/twitter.py])

    [TwitterCollector._deduplicate_and_sort]; the Hacker News and Reddit
    collectors end [collect()] with the same three steps. *)

(** The loop over the items, with the set [seen] of the URLs met so far
    and the list [unique]. *)
Definition seen_step (h : heap) (st : list str * list ref) (item : ref)
  : list str * list ref :=
  let (seen, unique) := st in
  if str_in (url (h item)) seen then st
  else (url (h item) :: seen, unique ++ [item]).

Definition _deduplicate_and_sort (h : heap) (max_items : Z) (items : list ref)
  : list ref :=
  let unique := snd (fold_left (seen_step h) items ([], [])) in
  slice_to max_items (sort_by_engagement h unique).

(* ------------------------------------------------------------------ *)
(** ** Batches of the summarizer ([processors/summarizer.py])

    [for i in range(0, len(items), batch_size): batch = items[i : i +
    batch_size]], the loop of [Summarizer.summarize_items]; the run of
    [i] through the range is bounded by the length of the list. *)
Fixpoint batches_from {A : Type} (fuel i batch_size : nat) (items : list A)
  : list (list A) :=
  match fuel with
  | O => []
  | S fuel' =>
      if i <? length items
      then firstn batch_size (skipn i items)
           :: batches_from fuel' (i + batch_size) batch_size items
      else []
  end.

Definition batch_size : nat := 10.

Definition batches {A : Type} (items : list A) : list (list A) :=
  batches_from (length items) 0 batch_size items.

(* ------------------------------------------------------------------ *)
(** ** Truncation in the report ([output/markdown_report.py]) *)

Definition _truncate (text : str) (length : Z) : str :=
  if (Z.of_nat (List.length text) <=? length)%Z then text
  else slice_to length text ++ py "...".

(* ------------------------------------------------------------------ *)
(** ** Collectors and the fan-out of [run_pipeline] *)

Inductive log_level := INFO | WARNING | ERROR.

(** The three log lines of [safe_collect]. *)
Inductive log_message :=
| CollectStarted (source_name : str)
| CollectFinished (source_name : str) (count : nat)
| CollectFailed (source_name : str) (e : exn).

Definition log_record := (log_level * log_message)%type.

(** A collector: its [source_name] and what awaiting [collect()] gives. *)
Record Collector := {
  source_name : str;
  collect : outcome (list ref)
}.

Definition safe_collect (c : Collector) (log : list log_record)
  : outcome (list ref) * list log_record :=
  let log1 := log ++ [(INFO, CollectStarted (source_name c))] in
  match collect c with
  | Returned items =>
      (Returned items,
       log1 ++ [(INFO, CollectFinished (source_name c) (length items))])
  | Raised e =>
      if is_Exception e
      then (Returned [], log1 ++ [(ERROR, CollectFailed (source_name c) e)])
      else (Raised e, log1)
  end.

(** [asyncio.gather] over the tasks: every task has a slot at its own
    index; the event loop fills a slot when the task completes, in whatever
    order the tasks happen to complete ([order] lists task indices by
    completion time); a task that raises makes [gather] raise.  [None] stands for a
    run that is not one of [gather]: a completion of a task that does not
    exist, or a task that never completes. *)
Fixpoint store {A : Type} (i : nat) (a : A) (slots : list (option A))
  : list (option A) :=
  match slots, i with
  | [], _ => []
  | _ :: s, O => Some a :: s
  | x :: s, S j => x :: store j a s
  end.

Fixpoint read_slots {A : Type} (slots : list (option A)) : option (list A) :=
  match slots with
  | [] => Some []
  | None :: _ => None
  | Some a :: s =>
      match read_slots s with Some l => Some (a :: l) | None => None end
  end.

Fixpoint gather_from {A : Type} (tasks : list (outcome A)) (order : list nat)
  (slots : list (option A)) : option (outcome (list A)) :=
  match order with
  | [] =>
      match read_slots slots with
      | Some l => Some (Returned l)
      | None => None
      end
  | i :: order' =>
      match nth_error tasks i with
      | Some (Returned a) => gather_from tasks order' (store i a slots)
      | Some (Raised e) => Some (Raised e)
      | None => None
      end
  end.

Definition gather {A : Type} (tasks : list (outcome A)) (order : list nat)
  : option (outcome (list A)) :=
  gather_from tasks order (repeat None (length tasks)).

(** [for result in results: all_items.extend(result)] *)
Definition merge_results (results : list (list ref)) : list ref :=
  fold_left (fun all_items result => all_items ++ result) results [].

(* ------------------------------------------------------------------ *)
(** ** The keyword loop of a collector ([collectors/hackernews.py])

    [HackerNewsCollector.collect] runs one search per keyword, each inside
    [try ... except Exception] with a warning, and leaves the loop once
    [len(items) >= self.max_items]; [searches] holds what awaiting each
    [_search] gives.  The items are then deduplicated, ranked and cut as
    by [_deduplicate_and_sort]. *)
Fixpoint search_keywords (searches : list (outcome (list ref)))
  (max_items : Z) (items : list ref) : outcome (list ref) :=
  match searches with
  | [] => Returned items
  | search :: rest =>
      match
        match search with
        | Returned results => Returned (items ++ results)
        | Raised e => if is_Exception e then Returned items else Raised e
        end
      with
      | Returned items' =>
          if (max_items <=? Z.of_nat (length items'))%Z then Returned items'
          else search_keywords rest max_items items'
      | Raised e => Raised e
      end
  end.

Definition hackernews_collect (h : heap) (max_items : Z)
  (searches : list (outcome (list ref))) : outcome (list ref) :=
  match search_keywords searches max_items [] with
  | Returned items => Returned (_deduplicate_and_sort h max_items items)
  | Raised e => Raised e
  end.

(** A search that failed with an [Exception], taken as an empty search. *)
Definition as_empty (search : outcome (list ref)) : outcome (list ref) :=
  match search with
  | Returned results => Returned results
  | Raised e => if is_Exception e then Returned [] else Raised e
  end.

(** A library instance for the examples: no character outside ASCII is in
    a class, and the ratio is that of [difflib] on two equal strings (1.0)
    and on two strings without a common character (0.0), the only pairs
    the examples compare. *)
Definition exact_ratio (a b : str) : Q := if str_eqb a b then 1%Q else 0%Q.

Definition ascii_lib : PyLib :=
  {| unicode_isalnum := fun _ => false;
     unicode_isspace := fun _ => false;
     unicode_lower := fun s => s;
     sequence_ratio := exact_ratio |}.

(* ------------------------------------------------------------------ *)
(** ** The deduplicator ([processors/dedup.py]) *)

Section Pipeline.

Variable lib : PyLib.

(** [\w] and [\s] of a [str] pattern, and [str.isspace]. *)
Definition is_word (c : char) : bool :=
  if is_ascii c then ascii_isalnum c || N.eqb c UNDERSCORE
  else unicode_isalnum lib c.

Definition is_space (c : char) : bool :=
  if is_ascii c then ascii_isspace c else unicode_isspace lib c.

(** [(utm_\w+|ref|source|fbclid|gclid)=] at the head of [s]: what follows
    the [=].  The greedy [\w+] takes the whole run of word characters; a
    shorter run would have to be followed by [=], which is not a word
    character, so backtracking into the run never helps. *)
Definition match_utm (s : str) : option str :=
  match strip_prefix (py "utm_") s with
  | Some r =>
      match span is_word r with
      | ([], _) => None
      | (_ :: _, r') => strip_prefix (py "=") r'
      end
  | None => None
  end.

Definition match_tracking_key (s : str) : option str :=
  orelse (match_utm s)
  (orelse (strip_prefix (py "ref=") s)
  (orelse (strip_prefix (py "source=") s)
  (orelse (strip_prefix (py "fbclid=") s)
          (strip_prefix (py "gclid=") s)))).

(** One match of [[?&](utm_\w+|ref|source|fbclid|gclid)=[^&]*] at the head
    of [s]: what follows the matched text. *)
Definition match_tracking (s : str) : option str :=
  match s with
  | [] => None
  | c :: s' =>
      if N.eqb c QUESTION || N.eqb c AMPERSAND then
        match match_tracking_key s' with
        | Some r => Some (snd (span (fun x => negb (N.eqb x AMPERSAND)) r))
        | None => None
        end
      else None
  end.

(** [re.sub] of the pattern by the empty string: scanning from the left,
    a match is dropped and the scan goes on behind it, any other character
    is copied; [skip] counts the characters of the current match still to
    be dropped. *)
Fixpoint sub_tracking (skip : nat) (s : str) : str :=
  match s with
  | [] => []
  | c :: s' =>
      match skip with
      | S k => sub_tracking k s'
      | O =>
          match match_tracking s with
          | Some r => sub_tracking (length s' - length r) s'
          | None => c :: sub_tracking 0 s'
          end
      end
  end.

Definition _normalize_url (url : str) : str :=
  let url := sub_tracking 0 url in
  let url := rstrip_by (N.eqb SLASH) url in
  replace (py "http://") (py "https://") url.

(** [title.lower()] *)
Definition lower (s : str) : str :=
  if forallb is_ascii s then List.map ascii_lower s else unicode_lower lib s.

(** [title.strip()] *)
Definition strip (s : str) : str := rstrip_by is_space (drop_while is_space s).

Definition is_cjk (c : char) : bool := between 19968%N 40959%N c.

(** [re.sub] of every run [\s+] by one space *)
Fixpoint collapse_spaces (in_run : bool) (s : str) : str :=
  match s with
  | [] => []
  | c :: s' =>
      if is_space c then
        if in_run then collapse_spaces true s'
        else SPACE :: collapse_spaces true s'
      else c :: collapse_spaces false s'
  end.

Definition _normalize_title (title : str) : str :=
  let title := strip (lower title) in
  let title :=
    List.filter (fun c => is_word c || is_space c || is_cjk c) title in
  collapse_spaces false title.

(** *** Phase 1: one item per normalized URL *)

Definition url_step (h : heap) (url_map : list (str * ref)) (item : ref)
  : list (str * ref) :=
  let normalized_url := _normalize_url (url (h item)) in
  match dict_lookup url_map normalized_url with
  | Some existing =>
      if Qgtb (score h item) (score h existing)
      then dict_set url_map normalized_url item
      else url_map
  | None => dict_set url_map normalized_url item
  end.

Definition _deduplicate_by_url (h : heap) (items : list ref) : list ref :=
  List.map snd (fold_left (url_step h) items []).

(** *** Phase 2: greedy scan over the ranked items *)

Definition similarity (h : heap) (item kept_item : ref) : Q :=
  sequence_ratio lib (_normalize_title (title (h item)))
                     (_normalize_title (title (h kept_item))).

(** The inner loop: the first kept item whose title is similar enough. *)
Fixpoint find_duplicate (threshold : Q) (h : heap) (item : ref)
  (kept : list ref) : option ref :=
  match kept with
  | [] => None
  | kept_item :: rest =>
      if Qgeb (similarity h item kept_item) threshold then Some kept_item
      else find_duplicate threshold h item rest
  end.

(** [for tag in item.tags: if tag not in kept_item.tags: append] *)
Definition merge_tags (kept_tags item_tags : list str) : list str :=
  fold_left (fun acc tag => if str_in tag acc then acc else acc ++ [tag])
            item_tags kept_tags.

Definition title_step (threshold : Q) (st : heap * list ref) (item : ref)
  : heap * list ref :=
  let (h, kept) := st in
  match find_duplicate threshold h item kept with
  | Some kept_item =>
      (heap_set_tags h kept_item
         (merge_tags (tags (h kept_item)) (tags (h item))), kept)
  | None => (h, kept ++ [item])
  end.

Definition _deduplicate_by_title (threshold : Q) (h : heap) (items : list ref)
  : heap * list ref :=
  match items with
  | [] => (h, items)
  | _ => fold_left (title_step threshold) (sort_by_engagement h items) (h, [])
  end.

Definition deduplicate (threshold : Q) (h : heap) (items : list ref)
  : heap * list ref :=
  let url_deduped := _deduplicate_by_url h items in
  _deduplicate_by_title threshold h url_deduped.

(** *** The pipeline from the collectors' results to the ranked items *)

Definition collect_all (collectors : list Collector) (order : list nat)
  : option (outcome (list ref)) :=
  match gather (List.map (fun c => fst (safe_collect c [])) collectors) order with
  | Some (Returned results) => Some (Returned (merge_results results))
  | Some (Raised e) => Some (Raised e)
  | None => None
  end.

Definition rank_items (h : heap) (all_items : list ref) (max_report_items : Z)
  : heap * list ref :=
  let (h', unique_items) := deduplicate default_threshold h all_items in
  (h', slice_to max_report_items (sort_by_engagement h' unique_items)).

(** *** Keyword filter and product tags ([collectors/base.py]) *)

(** The inner loop of [match_product]: some keyword of the product, in
    lower case, occurs in the lower-cased text. *)
Definition product_matches (text_lower : str) (product : Product) : bool :=
  existsb (fun keyword => str_contains (lower keyword) text_lower)
          (product_keywords product).

(** The outer loop, with the names matched so far; [None] is the
    [KeyError] of a matching product without a name. *)
Fixpoint match_from (text_lower : str) (products : list Product)
  (matched : list str) : option (list str) :=
  match products with
  | [] => Some matched
  | product :: rest =>
      if product_matches text_lower product then
        match product_name product with
        | Some name => match_from text_lower rest (matched ++ [name])
        | None => None
        end
      else match_from text_lower rest matched
  end.

Definition match_product (text : str) (products : list Product)
  : option (list str) :=
  match_from (lower text) products [].

(** [BaseCollector.filter_by_keywords], for a collector whose [keywords]
    are the given ones. *)
Definition filter_by_keywords (keywords : list str) (text : str) : bool :=
  existsb (fun kw => str_contains (lower kw) (lower text)) keywords.

(** [BaseCollector.tag_products]: the item's tags are replaced by the
    products matched in its title and content. *)
Definition tag_products (products : list Product) (h : heap) (item : ref)
  : option heap :=
  match match_product (title (h item) ++ [SPACE] ++ content (h item)) products with
  | Some matched => Some (heap_set_tags h item matched)
  | None => None
  end.

(** *** The list of sources of the command line ([main.py]) *)

Definition is_empty (s : str) : bool :=
  match s with [] => true | _ :: _ => false end.

(** [[s.strip() for s in sources.split(",") if s.strip()]] *)
Definition parse_sources (sources : str) : list str :=
  List.map strip
    (List.filter (fun s => negb (is_empty (strip s))) (split_on COMMA sources)).

(** *** Vocabulary of the statements *)

(** The Phase-1 key of an item. *)
Definition url_key (h : heap) (r : ref) : str := _normalize_url (url (h r)).

(** No item of [kept] is a duplicate of the items that stand before it:
    the inner loop finds nothing for it. *)
Definition settled (threshold : Q) (h : heap) (kept : list ref) : Prop :=
  forall pre x post,
    kept = pre ++ x :: post -> find_duplicate threshold h x pre = None.

End Pipeline.

(** Every field but [tags] is the same. *)
Definition same_but_tags (a b : NewsItem) : Prop :=
  title a = title b /\ content a = content b /\ source a = source b /\
  url a = url b /\ published_at a = published_at b /\ author a = author b /\
  author_handle a = author_handle b /\ engagement a = engagement b /\
  comments_count a = comments_count b /\ is_kol a = is_kol b /\
  kol_tier a = kol_tier b /\ summary a = summary b /\
  sentiment a = sentiment b /\ language a = language b /\
  collected_at a = collected_at b.

(** The tags of [b] are those of [a], in their order, and further ones
    behind them. *)
Definition tags_extended (a b : NewsItem) : Prop :=
  exists extra, tags b = tags a ++ extra.

(** What the deduplicator may do to the heap. *)
Definition heap_extended (h h' : heap) : Prop :=
  forall r, same_but_tags (h r) (h' r) /\ tags_extended (h r) (h' r).

(** ** Sample data for the examples *)

Definition blank_item : NewsItem :=
  {| title := []; content := []; source := []; url := []; published_at := 0%Z;
     author := []; author_handle := []; engagement := 0%Z;
     comments_count := 0%Z; tags := []; is_kol := false; kol_tier := [];
     summary := []; sentiment := []; language := py "en";
     collected_at := 0%Z |}.

Definition sample_item (title source url : string) (engagement comments : Z)
  (tags : list string) (tier : string) : NewsItem :=
  {| title := py title; content := []; source := py source; url := py url;
     published_at := 0%Z; author := []; author_handle := [];
     engagement := engagement; comments_count := comments;
     tags := List.map py tags; is_kol := negb (String.eqb tier EmptyString);
     kol_tier := py tier; summary := []; sentiment := [];
     language := py "en"; collected_at := 0%Z |}.

(** The keys of [COLLECTOR_MAP] in [main.py], in their order. *)
Definition ALL_SOURCES : list str :=
  [py "hackernews"; py "reddit"; py "twitter"; py "weibo_zhihu";
   py "tech_news"].

Definition sample_products : list Product :=
  [ {| product_name := Some (py "Claude");
       product_keywords := [py "Claude"; py "Anthropic"] |};
    {| product_name := Some (py "Codex");
       product_keywords := [py "codex"; py "OpenAI Codex"] |} ].

(** The heap that holds the given objects at the references 0, 1, ... *)
Definition heap_of (objects : list NewsItem) : heap :=
  fun r => nth r objects blank_item.

(* ------------------------------------------------------------------ *)
(** * Properties *)

(** ** Strings and scores *)

Lemma str_eqb_eq (a b : str) : str_eqb a b = true <-> a = b.
Proof.
  revert b; induction a as [|x a IH]; intros [|y b]; simpl;
    try (split; [discriminate | congruence]); try tauto.
  rewrite andb_true_iff, N.eqb_eq, IH.
  split; [intros [-> ->]; reflexivity | intros E; inversion E; auto].
Qed.

Lemma str_eqb_refl (a : str) : str_eqb a a = true.
Proof. apply str_eqb_eq; reflexivity. Qed.

Lemma str_eqb_neq (a b : str) : str_eqb a b = false <-> a <> b.
Proof.
  rewrite <- str_eqb_eq. destruct (str_eqb a b); split; congruence.
Qed.

Lemma str_in_In (s : str) (l : list str) : str_in s l = true <-> In s l.
Proof.
  unfold str_in. rewrite existsb_exists. split.
  - intros (x & Hx & E). apply str_eqb_eq in E. subst; assumption.
  - intros H. exists s. split; [assumption | apply str_eqb_refl].
Qed.

Lemma str_in_not_In (s : str) (l : list str) : str_in s l = false <-> ~ In s l.
Proof.
  rewrite <- str_in_In. destruct (str_in s l); split; congruence.
Qed.

Lemma Qgtb_lt (a b : Q) : Qgtb a b = true <-> (b < a)%Q.
Proof.
  unfold Qgtb. rewrite negb_true_iff. split.
  - intros H. apply Qnot_le_lt. intros L.
    apply Qle_bool_iff in L. congruence.
  - intros H. destruct (Qle_bool a b) eqn:E; [|reflexivity].
    apply Qle_bool_iff in E. exfalso. exact (Qlt_not_le _ _ H E).
Qed.

Lemma Qgtb_le (a b : Q) : Qgtb a b = false <-> (a <= b)%Q.
Proof.
  unfold Qgtb. rewrite negb_false_iff. apply Qle_bool_iff.
Qed.

Lemma Qgeb_le (a b : Q) : Qgeb a b = true <-> (b <= a)%Q.
Proof. unfold Qgeb. apply Qle_bool_iff. Qed.

Lemma Qgeb_lt (a b : Q) : Qgeb a b = false <-> (a < b)%Q.
Proof.
  unfold Qgeb. split.
  - intros H. apply Qnot_le_lt. intros L.
    apply Qle_bool_iff in L. congruence.
  - intros H. destruct (Qle_bool b a) eqn:E; [|reflexivity].
    apply Qle_bool_iff in E. exfalso. exact (Qlt_not_le _ _ H E).
Qed.

(** ** The stable descending sort *)

Section Sorting.

Variable A : Type.
Variable key : A -> Q.

Lemma insert_desc_perm (x : A) (l : list A) :
  Permutation (x :: l) (insert_desc key x l).
Proof.
  induction l as [|y l IH]; simpl; [reflexivity|].
  destruct (Qgtb (key y) (key x)); [|reflexivity].
  rewrite perm_swap. apply perm_skip. exact IH.
Qed.

Lemma sorted_desc_perm (l : list A) : Permutation l (sorted_desc key l).
Proof.
  induction l as [|x l IH]; simpl; [reflexivity|].
  rewrite <- insert_desc_perm. apply perm_skip. exact IH.
Qed.

Lemma insert_desc_sorted (x : A) (l : list A) :
  StronglySorted (ranked_before key) l ->
  StronglySorted (ranked_before key) (insert_desc key x l).
Proof.
  induction 1 as [|y l Hs IH Hy]; simpl.
  - constructor; constructor.
  - destruct (Qgtb (key y) (key x)) eqn:E.
    + constructor; [exact IH|].
      apply Forall_forall. intros z Hz.
      apply (Permutation_in _ (Permutation_sym (insert_desc_perm x l))) in Hz.
      destruct Hz as [<-|Hz].
      * apply Qgtb_lt in E. apply Qlt_le_weak. exact E.
      * rewrite Forall_forall in Hy. apply Hy. exact Hz.
    + apply Qgtb_le in E.
      constructor; [constructor; assumption|].
      constructor; [exact E|].
      rewrite Forall_forall in Hy |- *. intros z Hz.
      unfold ranked_before in *. eapply Qle_trans; [apply Hy; exact Hz | exact E].
Qed.

Lemma sorted_desc_sorted (l : list A) :
  StronglySorted (ranked_before key) (sorted_desc key l).
Proof.
  induction l as [|x l IH]; simpl; [constructor|].
  apply insert_desc_sorted. exact IH.
Qed.

Lemma insert_desc_with_key (q : Q) (x : A) (l : list A) :
  with_key key q (insert_desc key x l) = with_key key q (x :: l).
Proof.
  induction l as [|y l IH]; [reflexivity|]. simpl.
  destruct (Qgtb (key y) (key x)) eqn:E; [|reflexivity].
  simpl. fold (with_key key q (insert_desc key x l)). rewrite IH. simpl.
  destruct (Qeq_bool (key y) q) eqn:Ey, (Qeq_bool (key x) q) eqn:Ex;
    try reflexivity.
  exfalso. apply Qeq_bool_iff in Ey, Ex. apply Qgtb_lt in E.
  rewrite Ey, Ex in E. exact (Qlt_irrefl _ E).
Qed.

Lemma sorted_desc_with_key (q : Q) (l : list A) :
  with_key key q (sorted_desc key l) = with_key key q l.
Proof.
  induction l as [|x l IH]; [reflexivity|]. simpl sorted_desc.
  rewrite insert_desc_with_key. simpl. fold (with_key key q (sorted_desc key l)).
  fold (with_key key q l). rewrite IH. reflexivity.
Qed.

(** A ranked list is left as it is. *)
Lemma insert_desc_head (x : A) (l : list A) :
  Forall (ranked_before key x) l -> insert_desc key x l = x :: l.
Proof.
  destruct l as [|y l]; [reflexivity|]. intros H. simpl.
  inversion H as [|? ? Hy _]; subst.
  apply Qgtb_le in Hy. rewrite Hy. reflexivity.
Qed.

Lemma sorted_desc_id (l : list A) :
  StronglySorted (ranked_before key) l -> sorted_desc key l = l.
Proof.
  induction 1 as [|x l Hs IH Hx]; [reflexivity|]. simpl.
  rewrite IH. apply insert_desc_head. exact Hx.
Qed.

(** Two rankings of the same items, both keeping items of equal key in
    their relative order, are the same list. *)
Lemma stable_ranking_unique (l1 l2 : list A) :
  StronglySorted (ranked_before key) l1 ->
  StronglySorted (ranked_before key) l2 ->
  (forall q, with_key key q l1 = with_key key q l2) ->
  l1 = l2.
Proof.
  intros H1. revert l2.
  induction H1 as [|a l1 Hs1 IH Ha]; intros l2 H2 Hq.
  - destruct l2 as [|b l2]; [reflexivity|].
    specialize (Hq (key b)). simpl in Hq.
    rewrite (proj2 (Qeq_bool_iff _ _) (Qeq_refl _)) in Hq. discriminate.
  - destruct l2 as [|b l2].
    + specialize (Hq (key a)). simpl in Hq.
      rewrite (proj2 (Qeq_bool_iff _ _) (Qeq_refl _)) in Hq. discriminate.
    + inversion H2 as [|? ? Hs2 Hb]; subst.
      assert (In_l2 : forall x, In x (a :: l1) -> In x (b :: l2)).
      { intros x Hx.
        assert (Hf : In x (with_key key (key x) (a :: l1))).
        { apply filter_In. split; [exact Hx|].
          apply Qeq_bool_iff, Qeq_refl. }
        rewrite Hq in Hf. apply filter_In in Hf. tauto. }
      assert (In_l1 : forall x, In x (b :: l2) -> In x (a :: l1)).
      { intros x Hx.
        assert (Hf : In x (with_key key (key x) (b :: l2))).
        { apply filter_In. split; [exact Hx|].
          apply Qeq_bool_iff, Qeq_refl. }
        rewrite <- Hq in Hf. apply filter_In in Hf. tauto. }
      assert (Hab : (key a <= key b)%Q).
      { destruct (In_l2 a (or_introl eq_refl)) as [->|Hin];
          [apply Qle_refl|].
        rewrite Forall_forall in Hb. apply Hb. exact Hin. }
      assert (Hba : (key b <= key a)%Q).
      { destruct (In_l1 b (or_introl eq_refl)) as [->|Hin];
          [apply Qle_refl|].
        rewrite Forall_forall in Ha. apply Ha. exact Hin. }
      assert (Eab : (key a == key b)%Q) by (apply Qle_antisym; assumption).
      assert (Hhead := Hq (key a)). simpl in Hhead.
      rewrite (proj2 (Qeq_bool_iff _ _) (Qeq_refl _)) in Hhead.
      rewrite (proj2 (Qeq_bool_iff (key b) (key a)) (Qeq_sym _ _ Eab)) in Hhead.
      injection Hhead as Hhd Htl. subst b.
      f_equal. apply IH; [exact Hs2|].
      intros q. specialize (Hq q). simpl in Hq.
      destruct (Qeq_bool (key a) q); [injection Hq; auto | exact Hq].
Qed.

Theorem stable_sort_unique (l l' : list A) :
  StronglySorted (ranked_before key) l' ->
  (forall q, with_key key q l' = with_key key q l) ->
  l' = sorted_desc key l.
Proof.
  intros Hs Hq. apply stable_ranking_unique.
  - exact Hs.
  - apply sorted_desc_sorted.
  - intros q. rewrite sorted_desc_with_key. apply Hq.
Qed.

End Sorting.

(** ** The heap under tag merging *)

Lemma same_but_tags_refl (a : NewsItem) : same_but_tags a a.
Proof. unfold same_but_tags; repeat split. Qed.

Lemma same_but_tags_trans (a b c : NewsItem) :
  same_but_tags a b -> same_but_tags b c -> same_but_tags a c.
Proof.
  unfold same_but_tags. intros H1 H2.
  repeat match goal with H : _ /\ _ |- _ => destruct H end.
  repeat split; congruence.
Qed.

Lemma same_but_tags_with_tags (a : NewsItem) (ts : list str) :
  same_but_tags a (with_tags a ts).
Proof. unfold same_but_tags; repeat split. Qed.

Lemma same_but_tags_score (a b : NewsItem) :
  same_but_tags a b -> engagement_score a = engagement_score b.
Proof.
  unfold same_but_tags, engagement_score. intros H.
  repeat match goal with H : _ /\ _ |- _ => destruct H end.
  congruence.
Qed.

Lemma heap_extended_refl (h : heap) : heap_extended h h.
Proof.
  intros r. split; [apply same_but_tags_refl|].
  exists []. symmetry. apply app_nil_r.
Qed.

Lemma heap_extended_trans (h1 h2 h3 : heap) :
  heap_extended h1 h2 -> heap_extended h2 h3 -> heap_extended h1 h3.
Proof.
  intros H12 H23 r. destruct (H12 r) as [F12 [e1 T12]].
  destruct (H23 r) as [F23 [e2 T23]]. split.
  - eapply same_but_tags_trans; eassumption.
  - exists (e1 ++ e2). rewrite T23, T12. symmetry. apply app_assoc.
Qed.

Lemma heap_extended_title (h h' : heap) (r : ref) :
  heap_extended h h' -> title (h' r) = title (h r).
Proof. intros H. destruct (H r) as [F _]. symmetry. apply F. Qed.

Lemma heap_extended_url (h h' : heap) (r : ref) :
  heap_extended h h' -> url (h' r) = url (h r).
Proof. intros H. destruct (H r) as [F _]. symmetry. apply F. Qed.

Lemma heap_extended_score (h h' : heap) (r : ref) :
  heap_extended h h' -> score h' r = score h r.
Proof.
  intros H. destruct (H r) as [F _]. unfold score.
  rewrite (same_but_tags_score F). reflexivity.
Qed.

(** ** Tag union *)

(** The tags that [merge_tags] appends: those of the item that the kept
    record does not have yet, each once, in the item's order. *)
Lemma merge_tags_appends (item_tags kept_tags : list str) :
  exists extra,
    merge_tags kept_tags item_tags = kept_tags ++ extra /\
    NoDup extra /\
    (forall t, In t extra <-> In t item_tags /\ ~ In t kept_tags).
Proof.
  unfold merge_tags.
  induction item_tags as [|t ts IH] in kept_tags |- *; simpl.
  - exists []. split; [symmetry; apply app_nil_r|].
    split; [constructor|]. intros t. simpl. tauto.
  - destruct (str_in t kept_tags) eqn:E.
    + apply str_in_In in E.
      destruct (IH kept_tags) as (extra & Heq & Hnd & Hin).
      exists extra. split; [exact Heq|]. split; [exact Hnd|].
      intros t'. rewrite Hin. split.
      * intros [H1 H2]. split; [right|]; assumption.
      * intros [[<-|H1] H2]; [contradiction|]. split; assumption.
    + apply str_in_not_In in E.
      destruct (IH (kept_tags ++ [t])) as (extra & Heq & Hnd & Hin).
      exists (t :: extra).
      split; [rewrite Heq, <- app_assoc; reflexivity|].
      assert (Ht : ~ In t extra).
      { intros H. apply Hin in H. destruct H as [_ H].
        apply H, in_or_app. right. left. reflexivity. }
      split; [constructor; assumption|].
      intros t'. simpl. rewrite Hin, in_app_iff. simpl.
      destruct (list_eq_dec N.eq_dec t t') as [<-|Hne];
        intuition congruence.
Qed.

Lemma heap_set_tags_extended (h : heap) (r : ref) (item_tags : list str) :
  heap_extended h (heap_set_tags h r (merge_tags (tags (h r)) item_tags)).
Proof.
  intros r'. unfold heap_set_tags.
  destruct (Nat.eqb r' r) eqn:E; [|apply heap_extended_refl].
  apply Nat.eqb_eq in E. subst r'. split.
  - apply same_but_tags_with_tags.
  - destruct (merge_tags_appends item_tags (tags (h r))) as (extra & Heq & _).
    exists extra. simpl. exact Heq.
Qed.

(** ** Insertion-ordered dicts *)

Lemma dict_lookup_Some {V : Type} (d : list (str * V)) (k : str) (v : V) :
  dict_lookup d k = Some v -> In (k, v) d.
Proof.
  induction d as [|[k' v'] d IH]; simpl; [discriminate|].
  destruct (str_eqb k k') eqn:E.
  - apply str_eqb_eq in E. intros H. injection H as ->. subst. left. reflexivity.
  - intros H. right. apply IH. exact H.
Qed.

Lemma dict_lookup_None {V : Type} (d : list (str * V)) (k : str) :
  dict_lookup d k = None <-> ~ In k (List.map fst d).
Proof.
  induction d as [|[k' v'] d IH]; simpl; [tauto|].
  destruct (str_eqb k k') eqn:E.
  - apply str_eqb_eq in E. subst. split; [discriminate | intros H; tauto].
  - apply str_eqb_neq in E. rewrite IH. split; [intros H [H'|H']; auto | tauto].
Qed.

Lemma dict_set_new {V : Type} (d : list (str * V)) (k : str) (v : V) :
  dict_lookup d k = None -> dict_set d k v = d ++ [(k, v)].
Proof.
  induction d as [|[k' v'] d IH]; simpl; [reflexivity|].
  destruct (str_eqb k k'); [discriminate|].
  intros H. rewrite IH by exact H. reflexivity.
Qed.

Lemma dict_set_keys {V : Type} (d : list (str * V)) (k : str) (v : V) :
  dict_lookup d k <> None -> List.map fst (dict_set d k v) = List.map fst d.
Proof.
  induction d as [|[k' v'] d IH]; simpl; [congruence|].
  destruct (str_eqb k k'); [reflexivity|].
  intros H. simpl. rewrite IH by exact H. reflexivity.
Qed.

Lemma dict_set_In {V : Type} (d : list (str * V)) (k : str) (v : V) kv :
  In kv (dict_set d k v) -> kv = (k, v) \/ In kv d.
Proof.
  induction d as [|[k' v'] d IH]; simpl.
  - intros [<-|[]]. left. reflexivity.
  - destruct (str_eqb k k') eqn:E.
    + apply str_eqb_eq in E. subst k'. intros [<-|H]; [left; reflexivity|].
      right. right. exact H.
    + intros [<-|H]; [right; left; reflexivity|].
      destruct (IH H); [left|right;right]; assumption.
Qed.

(** ** Lists with one element removed *)

Lemma StronglySorted_remove {A : Type} (R : A -> A -> Prop) (a : list A) x b :
  StronglySorted R (a ++ x :: b) -> StronglySorted R (a ++ b).
Proof.
  induction a as [|y a IH]; simpl; intros H; inversion H as [|? ? Hs Hf]; subst.
  - exact Hs.
  - constructor; [apply IH; exact Hs|].
    rewrite Forall_forall in Hf |- *. intros z Hz. apply Hf.
    apply in_app_or in Hz. apply in_or_app. simpl. tauto.
Qed.

Lemma StronglySorted_ext {A : Type} (R R' : A -> A -> Prop) (l : list A) :
  (forall a b, R a b -> R' a b) -> StronglySorted R l -> StronglySorted R' l.
Proof.
  intros HR. induction 1 as [|x l Hs IH Hf]; constructor; [exact IH|].
  eapply Forall_impl; [|exact Hf]. intros b. apply HR.
Qed.

Lemma NoDup_map_remove {A B : Type} (f : A -> B) (a : list A) x b :
  NoDup (List.map f (a ++ x :: b)) -> NoDup (List.map f (a ++ b)).
Proof.
  rewrite !map_app. simpl. apply NoDup_remove_1.
Qed.

Lemma incl_remove {A : Type} (l : list A) (a : list A) x b :
  incl (a ++ x :: b) l -> incl (a ++ b) l.
Proof.
  intros H z Hz. apply H. apply in_app_or in Hz. apply in_or_app. simpl. tauto.
Qed.

(** ** Phase 1: exact URL deduplication *)

Section Deduplication.

Variable lib : PyLib.

Lemma url_step_invariant (h : heap) (m : list (str * ref)) (item : ref) :
  NoDup (List.map fst m) ->
  (forall k v, In (k, v) m -> url_key lib h v = k) ->
  NoDup (List.map fst (url_step lib h m item)) /\
  (forall k v, In (k, v) (url_step lib h m item) -> url_key lib h v = k) /\
  (forall k v, In (k, v) (url_step lib h m item) -> v = item \/ In (k, v) m).
Proof.
  intros Hnd Hkey. unfold url_step.
  fold (url_key lib h item).
  destruct (dict_lookup m (url_key lib h item)) as [existing|] eqn:L.
  - destruct (Qgtb (score h item) (score h existing)).
    + split; [|split].
      * rewrite dict_set_keys by congruence. exact Hnd.
      * intros k v H. apply dict_set_In in H. destruct H as [H|H].
        -- injection H as -> ->. reflexivity.
        -- apply Hkey. exact H.
      * intros k v H. apply dict_set_In in H. destruct H as [H|H].
        -- injection H as -> ->. left. reflexivity.
        -- right. exact H.
    + split; [exact Hnd|]. split; [exact Hkey|]. intros; right; assumption.
  - rewrite dict_set_new by exact L. split; [|split].
    + rewrite map_app. simpl. apply dict_lookup_None in L.
      apply NoDup_app_remove_l with (l := []). simpl.
      apply Permutation_NoDup with (l := url_key lib h item :: List.map fst m).
      * apply Permutation_cons_append.
      * constructor; assumption.
    + intros k v H. apply in_app_or in H. destruct H as [H|[H|[]]].
      * apply Hkey. exact H.
      * injection H as <- <-. reflexivity.
    + intros k v H. apply in_app_or in H. destruct H as [H|[H|[]]].
      * right. exact H.
      * injection H as <- <-. left. reflexivity.
Qed.

Lemma url_fold_invariant (h : heap) (items : list ref) (m : list (str * ref)) :
  NoDup (List.map fst m) ->
  (forall k v, In (k, v) m -> url_key lib h v = k) ->
  let m' := fold_left (url_step lib h) items m in
  NoDup (List.map fst m') /\
  (forall k v, In (k, v) m' -> url_key lib h v = k) /\
  (forall k v, In (k, v) m' -> In v items \/ In (k, v) m).
Proof.
  revert m. induction items as [|item items IH]; intros m Hnd Hkey; simpl.
  - split; [exact Hnd|]. split; [exact Hkey|]. intros; right; assumption.
  - destruct (url_step_invariant h m item Hnd Hkey) as (Hnd1 & Hkey1 & Hin1).
    destruct (IH _ Hnd1 Hkey1) as (Hnd2 & Hkey2 & Hin2).
    split; [exact Hnd2|]. split; [exact Hkey2|].
    intros k v H. apply Hin2 in H. destruct H as [H|H]; [left; right; exact H|].
    apply Hin1 in H. destruct H as [->|H]; [left; left; reflexivity|].
    right. exact H.
Qed.

Lemma map_snd_keys {V : Type} (f : V -> str) (m : list (str * V)) :
  (forall k v, In (k, v) m -> f v = k) ->
  List.map f (List.map snd m) = List.map fst m.
Proof.
  induction m as [|[k v] m IH]; intros H; simpl; [reflexivity|].
  rewrite (H k v) by (left; reflexivity).
  rewrite IH; [reflexivity|]. intros k' v' Hin. apply H. right. exact Hin.
Qed.

(** Phase 1 returns input items, one per normalized URL. *)
Lemma _deduplicate_by_url_distinct (h : heap) (items : list ref) :
  NoDup (List.map (url_key lib h) (_deduplicate_by_url lib h items)) /\
  (forall r, In r (_deduplicate_by_url lib h items) -> In r items).
Proof.
  unfold _deduplicate_by_url.
  assert (Hnil : NoDup (List.map fst (@nil (str * ref)))) by constructor.
  destruct (url_fold_invariant h items [] Hnil) as (Hnd & Hkey & Hin);
    [intros ? ? []|].
  split.
  - rewrite map_snd_keys by exact Hkey. exact Hnd.
  - intros r Hr. apply in_map_iff in Hr. destruct Hr as ([k v] & <- & Hkv).
    apply Hin in Hkv. destruct Hkv as [H|[]]. exact H.
Qed.

Lemma url_fold_distinct (h : heap) (items : list ref) (m : list (str * ref)) :
  NoDup (List.map fst m ++ List.map (url_key lib h) items) ->
  fold_left (url_step lib h) items m =
  m ++ List.map (fun r => (url_key lib h r, r)) items.
Proof.
  revert m. induction items as [|item items IH]; intros m Hnd; simpl.
  - symmetry. apply app_nil_r.
  - assert (L : dict_lookup m (url_key lib h item) = None).
    { apply dict_lookup_None. simpl in Hnd.
      apply NoDup_remove_2 in Hnd. intros H. apply Hnd.
      apply in_or_app. left. exact H. }
    unfold url_step at 2. fold (url_key lib h item). rewrite L.
    rewrite dict_set_new by exact L. rewrite IH.
    + rewrite <- app_assoc. reflexivity.
    + rewrite map_app, <- app_assoc. exact Hnd.
Qed.

(** On items whose normalized URLs differ pairwise Phase 1 changes nothing. *)
Lemma _deduplicate_by_url_id (h : heap) (items : list ref) :
  NoDup (List.map (url_key lib h) items) ->
  _deduplicate_by_url lib h items = items.
Proof.
  intros Hnd. unfold _deduplicate_by_url.
  rewrite url_fold_distinct by exact Hnd. simpl.
  rewrite map_map. simpl. apply map_id.
Qed.

(** ** Phase 2: the greedy scan *)

Section Scan.

Variable threshold : Q.

Local Abbreviation step := (title_step lib threshold).
Local Abbreviation find := (find_duplicate lib threshold).

Lemma find_duplicate_titles (h h' : heap) (x : ref) (l : list ref) :
  (forall r, title (h' r) = title (h r)) -> find h' x l = find h x l.
Proof.
  intros Ht. induction l as [|k l IH]; simpl; [reflexivity|].
  unfold similarity. rewrite !Ht. fold (similarity lib h x k).
  rewrite IH. reflexivity.
Qed.

Lemma find_duplicate_None (h : heap) (x : ref) (l : list ref) :
  find h x l = None <->
  (forall k, In k l -> (similarity lib h x k < threshold)%Q).
Proof.
  induction l as [|k l IH]; simpl.
  - split; [intros _ ? [] | reflexivity].
  - destruct (Qgeb (similarity lib h x k) threshold) eqn:E.
    + split; [discriminate|]. intros H. exfalso.
      apply Qgeb_le in E. apply (Qlt_not_le _ _ (H k (or_introl eq_refl)) E).
    + apply Qgeb_lt in E. rewrite IH. split.
      * intros H k' [<-|Hk]; [exact E | apply H; exact Hk].
      * intros H k' Hk. apply H. right. exact Hk.
Qed.

(** The inner loop stops at the first kept item that is similar enough. *)
Lemma find_duplicate_Some (h : heap) (x : ref) (l : list ref) (k : ref) :
  find h x l = Some k <->
  exists pre post,
    l = pre ++ k :: post /\
    (forall k', In k' pre -> (similarity lib h x k' < threshold)%Q) /\
    (threshold <= similarity lib h x k)%Q.
Proof.
  induction l as [|k0 l IH]; simpl.
  - split; [discriminate|]. intros (pre & post & H & _).
    destruct pre; discriminate.
  - destruct (Qgeb (similarity lib h x k0) threshold) eqn:E.
    + apply Qgeb_le in E. split.
      * intros H. injection H as <-. exists [], l. simpl.
        split; [reflexivity|]. split; [intros ? []|exact E].
      * intros (pre & post & H & Hpre & Hk). destruct pre as [|p pre].
        -- simpl in H. injection H as -> _. reflexivity.
        -- simpl in H. injection H as <- _. exfalso.
           apply (Qlt_not_le _ _ (Hpre k0 (or_introl eq_refl)) E).
    + apply Qgeb_lt in E. rewrite IH. split.
      * intros (pre & post & -> & Hpre & Hk). exists (k0 :: pre), post.
        split; [reflexivity|]. split; [|exact Hk].
        intros k' [<-|Hk']; [exact E | apply Hpre; exact Hk'].
      * intros (pre & post & H & Hpre & Hk). destruct pre as [|p pre].
        -- simpl in H. injection H as -> _. exfalso.
           apply (Qlt_not_le _ _ E Hk).
        -- simpl in H. injection H as <- ->. exists pre, post.
           split; [reflexivity|]. split; [|exact Hk].
           intros k' Hk'. apply Hpre. right. exact Hk'.
Qed.

Lemma title_step_heap (h : heap) (kept : list ref) (item : ref) :
  heap_extended h (fst (step (h, kept) item)).
Proof.
  simpl. destruct (find h item kept) as [k|]; simpl.
  - apply heap_set_tags_extended.
  - apply heap_extended_refl.
Qed.

Lemma scan_heap (rest : list ref) (h : heap) (kept : list ref) :
  heap_extended h (fst (fold_left step rest (h, kept))).
Proof.
  revert h kept. induction rest as [|item rest IH]; intros h kept; simpl.
  - apply heap_extended_refl.
  - destruct (find h item kept) as [k|].
    + eapply heap_extended_trans; [apply heap_set_tags_extended | apply IH].
    + apply IH.
Qed.

(** What holds of the ranked items and survives the removal of an item
    holds of the kept items. *)
Lemma scan_kept (P : list ref -> Prop) :
  (forall a x b, P (a ++ x :: b) -> P (a ++ b)) ->
  forall (rest : list ref) (h : heap) (kept : list ref),
    P (kept ++ rest) -> P (snd (fold_left step rest (h, kept))).
Proof.
  intros Hremove rest. induction rest as [|item rest IH]; intros h kept HP.
  - simpl. rewrite app_nil_r in HP. exact HP.
  - simpl. destruct (find h item kept) as [k|].
    + apply IH. eapply Hremove. exact HP.
    + apply IH. rewrite <- app_assoc. exact HP.
Qed.

Lemma settled_titles (h h' : heap) (kept : list ref) :
  (forall r, title (h' r) = title (h r)) ->
  settled lib threshold h kept -> settled lib threshold h' kept.
Proof.
  intros Ht Hs pre x post E. rewrite (@find_duplicate_titles h h' x pre Ht).
  eapply Hs. exact E.
Qed.

Lemma settled_snoc (h : heap) (kept : list ref) (item : ref) :
  settled lib threshold h kept -> find h item kept = None ->
  settled lib threshold h (kept ++ [item]).
Proof.
  intros Hs Hf pre x post E.
  destruct (exists_last (l := x :: post)) as (post' & y & Ey); [discriminate|].
  rewrite Ey, app_assoc in E. apply app_inj_tail in E. destruct E as [E ->].
  destruct post' as [|z post'].
  - simpl in Ey. injection Ey as -> _. rewrite app_nil_r in E. subst. exact Hf.
  - simpl in Ey. injection Ey as <- ->. eapply Hs. exact E.
Qed.

Lemma scan_settled (rest : list ref) (h : heap) (kept : list ref) :
  settled lib threshold h kept ->
  settled lib threshold (fst (fold_left step rest (h, kept)))
                        (snd (fold_left step rest (h, kept))).
Proof.
  revert h kept. induction rest as [|item rest IH]; intros h kept Hs.
  - exact Hs.
  - simpl. destruct (find h item kept) as [k|] eqn:E.
    + apply IH. eapply settled_titles; [|exact Hs].
      intros r. apply heap_extended_title. apply heap_set_tags_extended.
    + apply IH. apply settled_snoc; assumption.
Qed.

(** Scanning items none of which duplicates an earlier one keeps them all
    and leaves the heap alone. *)
Lemma scan_of_settled (post : list ref) (h : heap) (pre : list ref) :
  settled lib threshold h (pre ++ post) ->
  fold_left step post (h, pre) = (h, pre ++ post).
Proof.
  revert pre. induction post as [|x post IH]; intros pre Hs; simpl.
  - rewrite app_nil_r. reflexivity.
  - rewrite (Hs pre x post eq_refl).
    rewrite IH; rewrite <- app_assoc; [reflexivity | exact Hs].
Qed.

End Scan.

(** ** The deduplicator as a whole *)

Lemma settled_nil (threshold : Q) (h : heap) : settled lib threshold h [].
Proof. intros pre x post E. destruct pre; discriminate. Qed.

(** The second phase, whatever the input: it extends the heap, and keeps
    some of the items, in ranking order, none the duplicate of another. *)
Lemma _deduplicate_by_title_spec (threshold : Q) (h : heap) (items : list ref) :
  let res := _deduplicate_by_title lib threshold h items in
  heap_extended h (fst res) /\
  settled lib threshold (fst res) (snd res) /\
  StronglySorted (ranked_before (score h)) (snd res) /\
  incl (snd res) items /\
  (forall (B : Type) (f : ref -> B),
      NoDup (List.map f items) -> NoDup (List.map f (snd res))).
Proof.
  unfold _deduplicate_by_title. destruct items as [|i items].
  - simpl. split; [apply heap_extended_refl|]. split; [apply settled_nil|].
    split; [constructor|]. split; [apply incl_refl|]. auto.
  - set (l := i :: items). set (ranked := sort_by_engagement h l).
    assert (Hperm : Permutation l ranked) by apply sorted_desc_perm.
    cbv zeta. split; [apply scan_heap|].
    split; [apply scan_settled, settled_nil|].
    split; [|split].
    + apply scan_kept with (P := StronglySorted (ranked_before (score h))).
      * intros a x b. apply StronglySorted_remove.
      * apply sorted_desc_sorted.
    + apply scan_kept with (P := fun k => incl k l).
      * intros a x b. apply incl_remove.
      * intros z Hz. apply (Permutation_in _ (Permutation_sym Hperm)). exact Hz.
    + intros B f Hnd.
      apply scan_kept with (P := fun k => NoDup (List.map f k)).
      * intros a x b. apply NoDup_map_remove.
      * simpl. eapply Permutation_NoDup; [|exact Hnd].
        apply Permutation_map. exact Hperm.
Qed.

(** C1. Deduplication is idempotent: running the two-phase
    [Deduplicator.deduplicate] with the default threshold 0.75 on its own
    output, in the heap the first run left, returns the same list of
    objects and leaves every object as it is. *)
Theorem deduplicate_idempotent (h : heap) (X : list ref) :
  let (h1, once) := deduplicate lib default_threshold h X in
  deduplicate lib default_threshold h1 once = (h1, once).
Proof.
  generalize default_threshold. intros threshold.
  unfold deduplicate.
  destruct (_deduplicate_by_url_distinct h X) as [Hnd _].
  destruct (_deduplicate_by_title_spec threshold h (_deduplicate_by_url lib h X))
    as (Hext & Hset & Hsorted & _ & Hmap).
  destruct (_deduplicate_by_title lib threshold h (_deduplicate_by_url lib h X))
    as [h1 once]. simpl in Hext, Hset, Hsorted, Hmap.
  rewrite _deduplicate_by_url_id.
  - unfold _deduplicate_by_title. destruct once as [|o once]; [reflexivity|].
    unfold sort_by_engagement. rewrite sorted_desc_id.
    + apply (scan_of_settled (threshold := threshold) (o :: once) (h := h1) []).
      exact Hset.
    + eapply StronglySorted_ext; [|exact Hsorted].
      unfold ranked_before. intros a b H.
      rewrite !(heap_extended_score _ Hext). exact H.
  - apply Hmap in Hnd.
    erewrite map_ext; [exact Hnd|].
    intros r. unfold url_key. rewrite (heap_extended_url _ Hext). reflexivity.
Qed.

(** C3. One step of the Phase-2 scan.  The candidate is merged into a kept
    record, and so discarded, exactly when some kept record has a
    normalized title whose similarity ratio with the candidate's is at
    least the threshold.  When every ratio is strictly below the threshold
    nothing is merged, whatever the scores: the heap is untouched and the
    candidate joins the kept records.  On a merge the target is the first
    kept record that is similar enough; the kept list is unchanged; after
    the step the target's tags are its former tags, in their order,
    followed by the candidate's tags it did not have, each once; every
    other field of the target and every other object, similar or not, is
    as before. *)
Theorem title_step_merges_at_threshold
  (threshold : Q) (h : heap) (kept : list ref) (item : ref) :
  ((exists k, In k kept /\ (threshold <= similarity lib h item k)%Q) <->
   snd (title_step lib threshold (h, kept) item) = kept) /\
  ((forall k, In k kept -> (similarity lib h item k < threshold)%Q) ->
   title_step lib threshold (h, kept) item = (h, kept ++ [item])) /\
  (forall pre k post,
      kept = pre ++ k :: post ->
      (forall k', In k' pre -> (similarity lib h item k' < threshold)%Q) ->
      (threshold <= similarity lib h item k)%Q ->
      let h' := fst (title_step lib threshold (h, kept) item) in
      snd (title_step lib threshold (h, kept) item) = kept /\
      (exists extra,
          tags (h' k) = tags (h k) ++ extra /\
          NoDup extra /\
          (forall t, In t extra <->
                     In t (tags (h item)) /\ ~ In t (tags (h k)))) /\
      same_but_tags (h k) (h' k) /\
      (forall r, r <> k -> h' r = h r)).
Proof.
  split; [|split].
  - simpl. destruct (find_duplicate lib threshold h item kept) as [k|] eqn:E.
    + simpl. split; [reflexivity|]. intros _.
      apply find_duplicate_Some in E. destruct E as (pre & post & -> & _ & Hk).
      exists k. split; [|exact Hk]. apply in_or_app. right. left. reflexivity.
    + simpl. split.
      * intros (k & Hin & Hk). exfalso.
        rewrite find_duplicate_None in E.
        exact (Qlt_not_le _ _ (E k Hin) Hk).
      * intros H. exfalso. apply (f_equal (@length ref)) in H.
        rewrite length_app in H. simpl in H. lia.
  - intros H. apply find_duplicate_None in H. simpl. rewrite H. reflexivity.
  - intros pre k post Hkept Hpre Hk.
    assert (E : find_duplicate lib threshold h item kept = Some k).
    { apply find_duplicate_Some. exists pre, post. auto. }
    destruct (merge_tags_appends (tags (h item)) (tags (h k)))
      as (extra & Heq & Hnd & Hin).
    unfold title_step. rewrite E. cbv zeta. simpl fst. simpl snd.
    split; [reflexivity|].
    unfold heap_set_tags. rewrite Nat.eqb_refl.
    split; [|split].
    + exists extra. simpl. auto.
    + apply same_but_tags_with_tags.
    + intros r Hr. apply Nat.eqb_neq in Hr. rewrite Hr. reflexivity.
Qed.

(** C5. Every ranking pass is a stable descending sort by
    [engagement_score]: [sort_by_engagement] returns a rearrangement of its
    input, ordered by non-increasing score, in which the records of any one
    score stand in their input order; and the scan of Phase 2 runs over
    exactly this ranking of its input. *)
Theorem ranking_is_stable_descending_sort (h : heap) (items : list ref) :
  let ranked := sort_by_engagement h items in
  Permutation items ranked /\
  StronglySorted (ranked_before (score h)) ranked /\
  (forall q, with_key (score h) q ranked = with_key (score h) q items) /\
  (forall threshold,
      _deduplicate_by_title lib threshold h items =
      fold_left (title_step lib threshold) ranked (h, [])).
Proof.
  cbv zeta. split; [apply sorted_desc_perm|].
  split; [apply sorted_desc_sorted|].
  split; [intros q; apply sorted_desc_with_key|].
  intros threshold. destruct items; reflexivity.
Qed.

(** C10. Every record of [deduplicate]'s output is one of the input
    objects, and the run changes no field of any object but [tags]: in
    particular [url] keeps its original, un-normalized value, and [tags]
    only grows, the former tags staying in front in their order. *)
Theorem deduplicate_frame (threshold : Q) (h : heap) (items : list ref) :
  let (h', out) := deduplicate lib threshold h items in
  (forall r, In r out -> In r items) /\
  (forall r,
      same_but_tags (h r) (h' r) /\
      url (h' r) = url (h r) /\
      tags_extended (h r) (h' r)).
Proof.
  unfold deduplicate.
  destruct (_deduplicate_by_url_distinct h items) as [_ Hin].
  destruct (_deduplicate_by_title_spec threshold h (_deduplicate_by_url lib h items))
    as (Hext & _ & _ & Hincl & _).
  destruct (_deduplicate_by_title lib threshold h (_deduplicate_by_url lib h items))
    as [h' out]. simpl in Hext, Hincl.
  split.
  - intros r Hr. apply Hin, Hincl, Hr.
  - intros r. destruct (Hext r) as [F T].
    split; [exact F|]. split; [|exact T]. apply heap_extended_url. exact Hext.
Qed.

(** ** URL conflicts *)

(** Two items with one normalized URL: one survives, the one of strictly
    higher score, the earlier one on a tie. *)
Lemma _deduplicate_by_url_pair (h : heap) (a b : ref) :
  url_key lib h a = url_key lib h b ->
  _deduplicate_by_url lib h [a; b] =
  [if Qgtb (score h b) (score h a) then b else a].
Proof.
  intros E. unfold _deduplicate_by_url. simpl.
  unfold url_step at 2. simpl. fold (url_key lib h a).
  unfold url_step. fold (url_key lib h b). rewrite <- E. simpl.
  rewrite str_eqb_refl.
  destruct (Qgtb (score h b) (score h a)); simpl;
    rewrite ?str_eqb_refl; reflexivity.
Qed.

Lemma normalize_url_examples :
  _normalize_url lib (py "https://x.com/p?utm_source=y") = py "https://x.com/p" /\
  _normalize_url lib (py "https://x.com/p/") = py "https://x.com/p" /\
  _normalize_url lib (py "http://x.com/p") = py "https://x.com/p" /\
  _normalize_url lib (py "https://x.com/p?id=3&ref=hn") = py "https://x.com/p?id=3".
Proof. repeat split; vm_compute; reflexivity. Qed.

(** The example of the specification: the record with the tracking
    parameter and 50 points wins over the one with 10. *)
Lemma _deduplicate_by_url_example :
  let h := heap_of
    [sample_item "Post" "hackernews" "https://x.com/p" 10 0 [] "";
     sample_item "Post" "reddit" "https://x.com/p?utm_source=y" 50 0 [] ""] in
  _deduplicate_by_url lib h [0; 1] = [1].
Proof. vm_compute. reflexivity. Qed.

(** C2, at a failing input.  The second URL is the first with a tracking
    parameter put in front of the parameter [id]: the substitution removes
    the question mark together with the tracking parameter and leaves
    [https://x.com/p&id=3], so the two records get different keys and
    Phase 1 keeps both, although the second has the higher score. *)
Theorem _deduplicate_by_url_leading_tracking_parameter :
  let h := heap_of
    [sample_item "Post" "hackernews" "https://x.com/p?id=3" 10 0 [] "";
     sample_item "Post" "reddit" "https://x.com/p?utm_source=y&id=3" 50 0 [] ""] in
  _normalize_url lib (url (h 0)) = py "https://x.com/p?id=3" /\
  _normalize_url lib (url (h 1)) = py "https://x.com/p&id=3" /\
  _deduplicate_by_url lib h [0; 1] = [0; 1].
Proof. repeat split; vm_compute; reflexivity. Qed.

End Deduplication.

(** ** Scoring *)

(** The rounding step: the result is an integer nearest to [m / 2 ^ s],
    the quotient rounded down or up, and the even one of the two when
    [m / 2 ^ s] lies half way between them. *)
Lemma round_half_even_nearest (m s : Z) :
  (0 <= s)%Z ->
  let r := round_half_even m s in
  (Z.abs (r * 2 ^ s - m) * 2 <= 2 ^ s)%Z /\
  (r = m / 2 ^ s \/ r = m / 2 ^ s + 1)%Z /\
  ((Z.abs (r * 2 ^ s - m) * 2 = 2 ^ s)%Z -> Z.even r = true).
Proof.
  intros Hs. cbv zeta. unfold round_half_even.
  assert (Hd : (0 < 2 ^ s)%Z) by (apply Z.pow_pos_nonneg; lia).
  pose proof (Z.div_mod m (2 ^ s) ltac:(lia)) as Hm.
  pose proof (Z.mod_pos_bound m (2 ^ s) Hd) as Hr.
  set (d := (2 ^ s)%Z) in *. set (f := (m / d)%Z) in *.
  set (r := (m mod d)%Z) in *.
  assert (Hfd : (f * d = m - r)%Z) by lia.
  destruct (2 * r ?= d)%Z eqn:C.
  - apply Z.compare_eq in C.
    destruct (Z.even f) eqn:Ev.
    + split; [|split]; [lia | left; reflexivity | intros _; exact Ev].
    + split; [|split]; [lia | right; reflexivity |].
      intros _. rewrite Z.even_add, Ev. reflexivity.
  - rewrite Z.compare_lt_iff in C.
    split; [|split]; [lia | left; reflexivity | intros H; lia].
  - rewrite Z.compare_gt_iff in C.
    split; [|split]; [lia | right; reflexivity | intros H; lia].
Qed.

Lemma log2_abs_lt (m k : Z) :
  (0 <= k)%Z -> (Z.log2 (Z.abs m) < k)%Z -> (Z.abs m < 2 ^ k)%Z.
Proof.
  intros Hk H. destruct (Z.eq_dec m 0) as [->|Hne].
  - simpl. apply Z.pow_pos_nonneg; lia.
  - apply Z.log2_lt_pow2; [lia | exact H].
Qed.

Lemma round_half_even_bound (m s k : Z) :
  (0 <= s)%Z -> (0 <= k)%Z -> (Z.abs m < 2 ^ (s + k))%Z ->
  (Z.abs (round_half_even m s) <= 2 ^ k)%Z.
Proof.
  intros Hs Hk Hm.
  destruct (@round_half_even_nearest m s Hs) as (_ & Hc & _).
  rewrite Z.pow_add_r in Hm by lia.
  assert (Hd : (0 < 2 ^ s)%Z) by (apply Z.pow_pos_nonneg; lia).
  assert (Hup : (m / 2 ^ s < 2 ^ k)%Z).
  { apply Z.div_lt_upper_bound; [exact Hd | lia]. }
  assert (Hlo : (- 2 ^ k <= m / 2 ^ s)%Z).
  { apply Z.div_le_lower_bound; [exact Hd | nia]. }
  lia.
Qed.

(** The significand and the exponent that [round_binary64] arrives at. *)
Lemma rounded_significand (m e : Z) :
  let u := Z.max (e + (Z.log2 (Z.abs m) + 1) - 53) (-1074) in
  let p := if (u <=? e)%Z then (m, e) else (round_half_even m (u - e), u) in
  (Z.abs (fst p) <= 2 ^ 53)%Z /\ (-1074 <= snd p)%Z /\
  (p = (m, e) \/ snd p = u).
Proof.
  cbv zeta.
  set (u := Z.max (e + (Z.log2 (Z.abs m) + 1) - 53) (-1074)).
  destruct (u <=? e)%Z eqn:Eu; cbn [fst snd].
  - apply Z.leb_le in Eu. split; [|split; [lia | left; reflexivity]].
    assert (Z.abs m < 2 ^ 53)%Z; [|lia].
    apply log2_abs_lt; lia.
  - apply Z.leb_gt in Eu. split; [|split; [lia | right; reflexivity]].
    apply round_half_even_bound; [lia | lia |].
    apply Z.lt_le_trans with (2 ^ (Z.log2 (Z.abs m) + 1))%Z.
    + apply log2_abs_lt; [|lia]. pose proof (Z.log2_nonneg (Z.abs m)). lia.
    + apply Z.pow_le_mono_r; lia.
Qed.

(** What [round_binary64] returns is a binary64 number: a significand of
    at most 53 bits and an exponent of at least -1074. *)
Lemma round_binary64_significand (m e : Z) (x : finite) :
  round_binary64 m e = Finite x ->
  (Z.abs (fst x) <= 2 ^ 53)%Z /\ (fst x = 0 \/ -1074 <= snd x)%Z.
Proof.
  unfold round_binary64.
  destruct (rounded_significand m e) as (Hm & He & _). revert Hm He.
  destruct (if (Z.max (e + (Z.log2 (Z.abs m) + 1) - 53) (-1074) <=? e)%Z
            then (m, e)
            else (round_half_even m
                    (Z.max (e + (Z.log2 (Z.abs m) + 1) - 53) (-1074) - e),
                  Z.max (e + (Z.log2 (Z.abs m) + 1) - 53) (-1074)))
    as [m' e']. cbn [fst snd]. intros Hm He.
  destruct (m' =? 0)%Z.
  - intros H. injection H as <-. cbn [fst snd]. split; [|left; reflexivity].
    change (Z.abs 0) with 0%Z. apply Z.pow_nonneg. lia.
  - destruct (1024 <=? Z.log2 (Z.abs m') + e')%Z; [discriminate|].
    intros H. injection H as <-. cbn [fst snd]. split; [exact Hm | right; exact He].
Qed.

(** No overflow below 2^1023. *)
Lemma round_binary64_finite (m e : Z) :
  (Z.log2 (Z.abs m) + e < 1023)%Z -> exists x, round_binary64 m e = Finite x.
Proof.
  intros Hlt. unfold round_binary64.
  destruct (rounded_significand m e) as (Hm & _ & Hp). revert Hm Hp.
  set (u := Z.max (e + (Z.log2 (Z.abs m) + 1) - 53) (-1074)).
  destruct (if (u <=? e)%Z then (m, e) else (round_half_even m (u - e), u))
    as [m' e']. cbn [fst snd]. intros Hm Hp.
  destruct (m' =? 0)%Z eqn:E0; [eexists; reflexivity|].
  apply Z.eqb_neq in E0.
  assert (Ho : (1024 <=? Z.log2 (Z.abs m') + e')%Z = false).
  { apply Z.leb_gt. destruct Hp as [Hp|Hp].
    - injection Hp as -> ->. lia.
    - assert (Z.log2 (Z.abs m') <= 53)%Z.
      { rewrite <- (Z.log2_pow2 53) by lia. apply Z.log2_le_mono. exact Hm. }
      lia. }
  rewrite Ho. eexists. reflexivity.
Qed.

(** The score exists for every weighted engagement below 2^1023 in absolute
    value, and is then the key of the pipeline. *)
Lemma engagement_score_returns (h : heap) (r : ref) :
  (Z.abs (engagement (h r) + comments_count (h r) * 2) < 2 ^ 1023)%Z ->
  exists x, engagement_score (h r) = Returned x /\ score h r = float_order x.
Proof.
  intros Hn. unfold score, engagement_score, int_mul_float, int_to_float.
  destruct (@round_binary64_finite
              (engagement (h r) + comments_count (h r) * 2) 0) as [x Hx].
  { destruct (Z.eq_dec (engagement (h r) + comments_count (h r) * 2) 0)
      as [->|Hne]; [reflexivity|].
    rewrite Z.add_0_r. apply Z.log2_lt_pow2; [lia | exact Hn]. }
  rewrite Hx. eexists. split; reflexivity.
Qed.

(** A product whose significand fits 53 bits is not rounded. *)
Lemma round_binary64_small (m e : Z) :
  (Z.abs m < 2 ^ 53)%Z -> (-1074 <= e <= 971)%Z ->
  round_binary64 m e = Finite (if (m =? 0)%Z then (0, 0)%Z else (m, e)).
Proof.
  intros Hm He. unfold round_binary64.
  assert (Hlog : (Z.log2 (Z.abs m) <= 52)%Z).
  { destruct (Z.eq_dec m 0) as [->|Hne]; [simpl; lia|].
    assert (Z.log2 (Z.abs m) < 53)%Z; [|lia].
    apply Z.log2_lt_pow2; lia. }
  assert (Hu : (Z.max (e + (Z.log2 (Z.abs m) + 1) - 53) (-1074) <=? e)%Z = true).
  { apply Z.leb_le. lia. }
  rewrite Hu. destruct (m =? 0)%Z; [reflexivity|].
  assert (Ho : (1024 <=? Z.log2 (Z.abs m) + e)%Z = false).
  { apply Z.leb_gt. lia. }
  rewrite Ho. reflexivity.
Qed.

Lemma int_to_float_small (n : Z) :
  (Z.abs n < 2 ^ 53)%Z -> int_to_float n = Returned (n, 0%Z).
Proof.
  intros Hn. unfold int_to_float.
  rewrite round_binary64_small by (try exact Hn; lia).
  destruct (n =? 0)%Z eqn:E; [|reflexivity].
  apply Z.eqb_eq in E. subst n. reflexivity.
Qed.

(** The product of an [int] and a [float] is the exact one as long as it,
    and the [int], fit the 53 bits of a significand. *)
Lemma int_mul_float_exact (n : Z) (y : finite) :
  (Z.abs n < 2 ^ 53)%Z -> (Z.abs (n * fst y) < 2 ^ 53)%Z ->
  (-1074 <= snd y <= 971)%Z ->
  returns_value (int_mul_float n y) (inject_Z n * finite_value y).
Proof.
  intros Hn Hp He. unfold int_mul_float, float_mul.
  rewrite int_to_float_small by exact Hn. simpl fst. simpl snd.
  rewrite round_binary64_small by (try exact Hp; lia).
  eexists. split; [reflexivity|].
  unfold finite_value.
  destruct (n * fst y =? 0)%Z eqn:E; simpl fst; simpl snd.
  - apply Z.eqb_eq in E.
    transitivity (inject_Z (n * fst y) * 2 ^ snd y)%Q.
    + rewrite E. unfold Qeq. simpl. reflexivity.
    + rewrite inject_Z_mult. ring.
  - rewrite inject_Z_mult. ring.
Qed.

(** Every finite float lies strictly between the two infinities, so
    [float_order] orders the floats as Python compares them. *)
Lemma dyadic_below (a e k : Z) :
  (0 < a)%Z -> (Z.log2 a + e < k)%Z -> (inject_Z a * 2 ^ e < 2 ^ k)%Q.
Proof.
  intros Ha Hk.
  assert (Hlog : (0 <= Z.log2 a)%Z) by apply Z.log2_nonneg.
  assert (Hlt : (a < 2 ^ (Z.log2 a + 1))%Z).
  { destruct (Z.log2_spec a Ha) as [_ H]. rewrite <- Z.add_1_r in H. exact H. }
  assert (Hq : (inject_Z a < 2 ^ (Z.log2 a + 1))%Q).
  { rewrite <- (Zpower_Qpower 2 (Z.log2 a + 1)) by lia.
    rewrite <- Zlt_Qlt. exact Hlt. }
  apply Qlt_le_trans with (2 ^ (Z.log2 a + 1) * 2 ^ e)%Q.
  - apply Qmult_lt_compat_r; [|exact Hq].
    apply Qpower_0_lt. reflexivity.
  - rewrite <- Qpower_plus by (intros H; discriminate H).
    apply Qpower_le_compat_l; [lia|]. discriminate.
Qed.

Lemma round_binary64_between (m e : Z) (x : finite) :
  round_binary64 m e = Finite x ->
  (float_order (Infinity false) < float_order (Finite x))%Q /\
  (float_order (Finite x) < float_order (Infinity true))%Q.
Proof.
  unfold round_binary64.
  destruct (if (Z.max (e + (Z.log2 (Z.abs m) + 1) - 53) (-1074) <=? e)%Z
            then (m, e)
            else (round_half_even m
                    (Z.max (e + (Z.log2 (Z.abs m) + 1) - 53) (-1074) - e),
                  Z.max (e + (Z.log2 (Z.abs m) + 1) - 53) (-1074)))
    as [m' e'].
  destruct (m' =? 0)%Z eqn:E0.
  - intros H. injection H as <-. split; vm_compute; reflexivity.
  - destruct (1024 <=? Z.log2 (Z.abs m') + e')%Z eqn:E1; [discriminate|].
    intros H. injection H as <-. apply Z.eqb_neq in E0. apply Z.leb_gt in E1.
    unfold float_order, finite_value. simpl fst. simpl snd.
    assert (Hpow : (0 < 2 ^ 1024)%Q) by (apply Qpower_0_lt; reflexivity).
    assert (Hp : (0 < 2 ^ e')%Q) by (apply Qpower_0_lt; reflexivity).
    destruct (Z.lt_total m' 0) as [Hneg|[Hz|Hpos]]; [|lia|].
    + rewrite Z.abs_neq in E1 by lia.
      assert (H : (inject_Z (- m') * 2 ^ e' < 2 ^ 1024)%Q)
        by (apply dyadic_below; [lia | exact E1]).
      rewrite inject_Z_opp in H.
      assert (H0 : (inject_Z m' * 2 ^ e' < 0)%Q).
      { setoid_replace 0%Q with (0 * 2 ^ e')%Q by ring.
        apply Qmult_lt_compat_r; [exact Hp|].
        change 0%Q with (inject_Z 0). rewrite <- Zlt_Qlt. exact Hneg. }
      split.
      * apply Qopp_lt_compat in H.
        setoid_replace (- (- inject_Z m' * 2 ^ e'))%Q
          with (inject_Z m' * 2 ^ e')%Q in H by ring.
        exact H.
      * apply Qlt_trans with 0%Q; assumption.
    + rewrite Z.abs_eq in E1 by lia.
      assert (H : (inject_Z m' * 2 ^ e' < 2 ^ 1024)%Q)
        by (apply dyadic_below; [lia | exact E1]).
      assert (H0 : (0 < inject_Z m' * 2 ^ e')%Q).
      { setoid_replace 0%Q with (0 * 2 ^ e')%Q by ring.
        apply Qmult_lt_compat_r; [exact Hp|].
        change 0%Q with (inject_Z 0). rewrite <- Zlt_Qlt. exact Hpos. }
      split; [|exact H].
      apply Qlt_trans with 0%Q; [|exact H0].
      setoid_replace 0%Q with (- 0)%Q by ring.
      apply Qopp_lt_compat. exact Hpow.
Qed.

(** C4. [engagement_score] is the product, as Python multiplies an [int]
    by a [float], of [engagement + comments_count * 2] and the tier
    multiplier: 3.0 for tier S, 2.0 for A, 1.5 for B and 1.0 for any other
    tier, the empty one included.  As long as three times the weighted
    engagement stays below 2^53 in absolute value nothing is rounded and
    the score is the exact rational product; a record with engagement 10, 5
    comments and tier S scores 60. *)
Theorem engagement_score_formula (it : NewsItem) :
  let n := (engagement it + comments_count it * 2)%Z in
  let exact := (3 * Z.abs n < 2 ^ 53)%Z in
  (kol_tier it = py "S" ->
   engagement_score it = int_mul_float n (3, 0)%Z /\
   (exact -> returns_value (engagement_score it) (inject_Z n * 3))) /\
  (kol_tier it = py "A" ->
   engagement_score it = int_mul_float n (2, 0)%Z /\
   (exact -> returns_value (engagement_score it) (inject_Z n * 2))) /\
  (kol_tier it = py "B" ->
   engagement_score it = int_mul_float n (3, -1)%Z /\
   (exact -> returns_value (engagement_score it) (inject_Z n * (3 # 2)))) /\
  (kol_tier it <> py "S" -> kol_tier it <> py "A" -> kol_tier it <> py "B" ->
   engagement_score it = int_mul_float n (1, 0)%Z /\
   (exact -> returns_value (engagement_score it) (inject_Z n * 1))) /\
  (kol_tier it = [] ->
   engagement_score it = int_mul_float n (1, 0)%Z /\
   (exact -> returns_value (engagement_score it) (inject_Z n * 1))) /\
  (engagement it = 10%Z -> comments_count it = 5%Z -> kol_tier it = py "S" ->
   engagement_score it = Returned (Finite (60, 0)%Z) /\
   returns_value (engagement_score it) 60).
Proof.
  cbv zeta.
  assert (Hexact : forall y,
             In y [(3, 0)%Z; (2, 0)%Z; (3, -1)%Z; (1, 0)%Z] ->
             (3 * Z.abs (engagement it + comments_count it * 2) < 2 ^ 53)%Z ->
             returns_value
               (int_mul_float (engagement it + comments_count it * 2) y)
               (inject_Z (engagement it + comments_count it * 2) *
                finite_value y)).
  { intros y Hy Hb. change (2 ^ 53)%Z with 9007199254740992%Z in Hb.
    apply int_mul_float_exact;
      change (2 ^ 53)%Z with 9007199254740992%Z;
      simpl in Hy; destruct Hy as [<-|[<-|[<-|[<-|[]]]]]; simpl; lia. }
  assert (Hother : kol_tier it <> py "S" -> kol_tier it <> py "A" ->
                   kol_tier it <> py "B" ->
                   kol_multiplier (kol_tier it) = (1, 0)%Z).
  { intros HS HA HB. apply str_eqb_neq in HS, HA, HB.
    unfold kol_multiplier. simpl. rewrite HS, HA, HB. reflexivity. }
  unfold engagement_score.
  repeat split.
  - rewrite H. reflexivity.
  - intros Hb. rewrite H. apply (Hexact (3, 0)%Z); [simpl; auto|exact Hb].
  - rewrite H. reflexivity.
  - intros Hb. rewrite H. apply (Hexact (2, 0)%Z); [simpl; auto|exact Hb].
  - rewrite H. reflexivity.
  - intros Hb. rewrite H.
    destruct (Hexact (3, -1)%Z) as (x & Hx & Hv); [simpl; auto|exact Hb|].
    exists x. split; [exact Hx|]. rewrite Hv. reflexivity.
  - rewrite Hother by assumption. reflexivity.
  - intros Hb. rewrite Hother by assumption.
    apply (Hexact (1, 0)%Z); [simpl; auto|exact Hb].
  - rewrite H. reflexivity.
  - intros Hb. rewrite H. apply (Hexact (1, 0)%Z); [simpl; auto|exact Hb].
  - rewrite H, H0, H1. reflexivity.
  - rewrite H, H0, H1. exists (60, 0)%Z. split; reflexivity.
Qed.

(** Beyond these bounds the float arithmetic shows: the conversion of
    2^53 + 1 rounds to 2^53, a product of 2^1024 or more is an infinity,
    and an [int] of 2^1024 or more is not converted at all. *)
Lemma engagement_score_beyond_double_precision :
  engagement_score
    (sample_item "Post" "twitter" "https://a.example/1" (2 ^ 53 + 1) 0 [] "") =
    Returned (Finite (2 ^ 52, 1)%Z) /\
  engagement_score
    (sample_item "Post" "twitter" "https://a.example/1" (2 ^ 1023) 0 [] "S") =
    Returned (Infinity true) /\
  (exists e,
      engagement_score
        (sample_item "Post" "twitter" "https://a.example/1" (2 ^ 1024) 0 [] "") =
      Raised e /\ is_Exception e = true).
Proof.
  split; [vm_compute; reflexivity|].
  split; [vm_compute; reflexivity|].
  eexists. split; vm_compute; reflexivity.
Qed.

(** ** Grouping *)

Section Groups.

Variable V : Type.
Implicit Types (g : list (str * list V)) (k : str) (v : V).

Lemma setdefault_append_members g k v k' :
  members (setdefault_append g k v) k' =
  if str_eqb k' k then members g k ++ [v] else members g k'.
Proof.
  unfold members. induction g as [|[k0 l0] g IH]; simpl.
  - destruct (str_eqb k' k); reflexivity.
  - destruct (str_eqb k k0) eqn:E; simpl.
    + apply str_eqb_eq in E. subst k0.
      destruct (str_eqb k' k); reflexivity.
    + destruct (str_eqb k' k0) eqn:E'; [|exact IH].
      apply str_eqb_eq in E'. subst k0.
      destruct (str_eqb k' k) eqn:E''; [|reflexivity].
      apply str_eqb_eq in E''. subst k'. rewrite str_eqb_refl in E. discriminate.
Qed.

Lemma setdefault_append_keys g k v k' :
  In k' (List.map fst (setdefault_append g k v)) <->
  k' = k \/ In k' (List.map fst g).
Proof.
  induction g as [|[k0 l0] g IH]; simpl.
  - intuition congruence.
  - destruct (str_eqb k k0) eqn:E; simpl.
    + apply str_eqb_eq in E. subst k0. intuition congruence.
    + rewrite IH. tauto.
Qed.

Lemma setdefault_append_NoDup g k v :
  NoDup (List.map fst g) -> NoDup (List.map fst (setdefault_append g k v)).
Proof.
  induction g as [|[k0 l0] g IH]; simpl; intros H.
  - constructor; [intros []|constructor].
  - inversion H as [|? ? Hn Hd]; subst.
    destruct (str_eqb k k0) eqn:E; simpl.
    + constructor; assumption.
    + constructor; [|apply IH; exact Hd].
      rewrite setdefault_append_keys. intros [->|H']; [|contradiction].
      rewrite str_eqb_refl in E. discriminate.
Qed.

Lemma file_entries_members (entries : list (str * V)) g k :
  members (file_entries entries g) k = members g k ++ selected k entries.
Proof.
  unfold file_entries, selected.
  revert g. induction entries as [|[k0 v0] entries IH]; intros g; simpl.
  - symmetry. apply app_nil_r.
  - rewrite IH, setdefault_append_members.
    destruct (str_eqb k k0) eqn:E; [|reflexivity].
    apply str_eqb_eq in E. subst k0. simpl. rewrite <- app_assoc. reflexivity.
Qed.

Lemma file_entries_NoDup (entries : list (str * V)) g :
  NoDup (List.map fst g) -> NoDup (List.map fst (file_entries entries g)).
Proof.
  unfold file_entries.
  revert g. induction entries as [|e entries IH]; intros g H; simpl.
  - exact H.
  - apply IH, setdefault_append_NoDup, H.
Qed.

Lemma members_of_group g k (l : list V) :
  NoDup (List.map fst g) -> In (k, l) g -> members g k = l.
Proof.
  unfold members. induction g as [|[k0 l0] g IH]; simpl; intros Hnd H;
    [contradiction|]. destruct H as [H|H].
  - injection H as -> ->. rewrite str_eqb_refl. reflexivity.
  - inversion Hnd as [|? ? Hn Hd]; subst.
    destruct (str_eqb k k0) eqn:E; [|apply IH; assumption].
    apply str_eqb_eq in E. subst k0. exfalso. apply Hn.
    change k with (fst (k, l)). apply in_map. exact H.
Qed.

Lemma group_of_members g k (x : V) :
  In x (members g k) -> exists l, In (k, l) g /\ In x l.
Proof.
  unfold members. destruct (dict_lookup g k) as [l|] eqn:E; [|intros []].
  intros H. exists l. split; [apply dict_lookup_Some; exact E | exact H].
Qed.

End Groups.

Lemma NoDup_map_fst_filter {A B : Type} (p : A * B -> bool) (l : list (A * B)) :
  NoDup (List.map fst l) -> NoDup (List.map fst (List.filter p l)).
Proof.
  induction l as [|x l IH]; simpl; intros H; [constructor|].
  inversion H as [|? ? Hn Hd]; subst.
  destruct (p x); simpl; [|apply IH; exact Hd].
  constructor; [|apply IH; exact Hd].
  intros Hin. apply Hn. apply in_map_iff in Hin.
  destruct Hin as (y & Ey & Hy). apply filter_In in Hy.
  apply in_map_iff. exists y. tauto.
Qed.

Lemma existsb_eqb_In (r : ref) (l : list ref) :
  existsb (Nat.eqb r) l = true <-> In r l.
Proof.
  rewrite existsb_exists. split.
  - intros (x & Hx & E). apply Nat.eqb_eq in E. subst. exact Hx.
  - intros H. exists r. split; [exact H | apply Nat.eqb_refl].
Qed.

(** With distinct group names, [r] is in the groups whose member list
    holds it. *)
Lemma groups_of_members (g : list (str * list ref)) (r : ref) (k : str) :
  NoDup (List.map fst g) ->
  (In k (groups_of g r) <-> In r (members g k)).
Proof.
  intros Hnd. unfold groups_of. rewrite in_map_iff. split.
  - intros ([k0 l] & E & H). simpl in E. subst k0.
    apply filter_In in H. destruct H as [H Hr]. simpl in Hr.
    rewrite (@members_of_group _ g k l Hnd H). apply existsb_eqb_In. exact Hr.
  - intros H. apply group_of_members in H. destruct H as (l & Hl & Hr).
    exists (k, l). split; [reflexivity|]. apply filter_In.
    split; [exact Hl|]. simpl. apply existsb_eqb_In. exact Hr.
Qed.

Lemma groups_of_NoDup (g : list (str * list ref)) (r : ref) :
  NoDup (List.map fst g) -> NoDup (groups_of g r).
Proof. apply NoDup_map_fst_filter. Qed.

Lemma NoDup_singleton {A : Type} (l : list A) (x : A) :
  NoDup l -> (forall y, In y l <-> y = x) -> l = [x].
Proof.
  intros Hnd H. destruct l as [|a l].
  - exfalso. apply (H x). reflexivity.
  - assert (a = x) by (apply H; left; reflexivity). subst a.
    destruct l as [|b l]; [reflexivity|].
    assert (b = x) by (apply H; right; left; reflexivity). subst b.
    inversion Hnd as [|? ? Hn _]. exfalso. apply Hn. left. reflexivity.
Qed.

Lemma In_selected {V : Type} (k : str) (x : V) (entries : list (str * V)) :
  In x (selected k entries) <-> In (k, x) entries.
Proof.
  unfold selected. rewrite in_map_iff. split.
  - intros ([k0 x0] & E & H). simpl in E. subst x0.
    apply filter_In in H. destruct H as [H Ek]. simpl in Ek.
    apply str_eqb_eq in Ek. subst k0. exact H.
  - intros H. exists (k, x). split; [reflexivity|]. apply filter_In.
    split; [exact H | apply str_eqb_refl].
Qed.

Lemma fold_setdefault_file {A V : Type} (name : A -> str) (value : A -> V)
  (l : list A) (g : list (str * list V)) :
  fold_left (fun g a => setdefault_append g (name a) (value a)) l g =
  file_entries (List.map (fun a => (name a, value a)) l) g.
Proof.
  unfold file_entries. revert g.
  induction l as [|a l IH]; intros g; simpl; [reflexivity | apply IH].
Qed.

Lemma file_entries_app {V : Type} (e1 e2 : list (str * V)) (g : list (str * list V)) :
  file_entries (e1 ++ e2) g = file_entries e2 (file_entries e1 g).
Proof. unfold file_entries. apply fold_left_app. Qed.

Lemma group_by_source_file (h : heap) (items : list ref) :
  group_by_source h items =
  file_entries (List.map (fun i => (source (h i), i)) items) [].
Proof.
  unfold group_by_source.
  apply (fold_setdefault_file (fun i => source (h i)) (fun i => i)).
Qed.

Lemma product_step_file (h : heap) (g : list (str * list ref)) (item : ref) :
  product_step h g item = file_entries (product_entries h item) g.
Proof.
  unfold product_step, product_entries.
  destruct (tags (h item)) as [|t ts]; [reflexivity|].
  apply (fold_setdefault_file (fun tag => tag) (fun _ => item)).
Qed.

Lemma product_fold_file (h : heap) (items : list ref) (g : list (str * list ref)) :
  fold_left (product_step h) items g =
  file_entries (flat_map (product_entries h) items) g.
Proof.
  revert g. induction items as [|i items IH]; intros g; simpl; [reflexivity|].
  rewrite IH, product_step_file, file_entries_app. reflexivity.
Qed.

Lemma In_product_entries (h : heap) (item r : ref) (k : str) :
  In (k, r) (product_entries h item) <->
  item = r /\
  ((tags (h r) = [] /\ k = UNCLASSIFIED) \/ In k (tags (h r))).
Proof.
  unfold product_entries. split.
  - destruct (tags (h item)) as [|t ts] eqn:E.
    + intros [H|[]]. injection H as <- <-. split; [reflexivity|].
      left. split; [exact E | reflexivity].
    + intros H. apply in_map_iff in H. destruct H as (tag & Etag & Hin).
      injection Etag as -> ->. split; [reflexivity|]. right.
      rewrite E. exact Hin.
  - intros [-> [[E ->]|H]].
    + rewrite E. left. reflexivity.
    + destruct (tags (h r)) as [|t ts]; [destruct H|].
      apply in_map_iff. exists k. split; [reflexivity | exact H].
Qed.

Lemma groups_of_ranked (h : heap) (g : list (str * list ref)) (r : ref) :
  groups_of (List.map (fun kv => (fst kv, sort_by_engagement h (snd kv))) g) r =
  groups_of g r.
Proof.
  unfold groups_of. induction g as [|[k l] g IH]; simpl; [reflexivity|].
  assert (E : existsb (Nat.eqb r) (sort_by_engagement h l) =
              existsb (Nat.eqb r) l).
  { apply eq_true_iff_eq. rewrite !existsb_eqb_In.
    unfold sort_by_engagement. split; apply Permutation_in;
      [apply Permutation_sym|]; apply sorted_desc_perm. }
  rewrite E. destruct (existsb (Nat.eqb r) l); simpl; rewrite IH; reflexivity.
Qed.

Lemma group_by_product_keys (h : heap) (items : list ref) :
  NoDup (List.map fst (group_by_product h items)).
Proof.
  unfold group_by_product. rewrite map_map. simpl.
  rewrite product_fold_file. apply file_entries_NoDup. constructor.
Qed.

Lemma group_by_source_keys (h : heap) (items : list ref) :
  NoDup (List.map fst (group_by_source h items)).
Proof.
  rewrite group_by_source_file. apply file_entries_NoDup. constructor.
Qed.

(** The product groups in which an object appears. *)
Lemma groups_of_product (h : heap) (items : list ref) (r : ref) (k : str) :
  In k (groups_of (group_by_product h items) r) <->
  In r items /\
  ((tags (h r) = [] /\ k = UNCLASSIFIED) \/ In k (tags (h r))).
Proof.
  unfold group_by_product. rewrite groups_of_ranked, product_fold_file.
  rewrite groups_of_members by (apply file_entries_NoDup; constructor).
  rewrite file_entries_members. unfold members at 1. simpl.
  rewrite In_selected, in_flat_map. split.
  - intros (i & Hi & H). apply In_product_entries in H.
    destruct H as [-> H]. split; assumption.
  - intros [Hr H]. exists r. split; [exact Hr|].
    apply In_product_entries. split; [reflexivity | exact H].
Qed.

(** The source groups in which an object appears. *)
Lemma groups_of_source (h : heap) (items : list ref) (r : ref) (k : str) :
  In k (groups_of (group_by_source h items) r) <->
  In r items /\ k = source (h r).
Proof.
  rewrite group_by_source_file.
  rewrite groups_of_members by (apply file_entries_NoDup; constructor).
  rewrite file_entries_members. unfold members at 1. simpl.
  rewrite In_selected, in_map_iff. split.
  - intros (i & E & Hi). injection E as E1 E2. subst.
    split; [exact Hi | reflexivity].
  - intros [Hr ->]. exists r. split; [reflexivity | exact Hr].
Qed.

(** C7. Grouping is complete and exact.  Group names are distinct.  A
    record of the list with tags appears in the product groups named by its
    tags and in no other, which are as many groups as it has tags when no
    tag is repeated; a record without tags appears in the sentinel group
    and in no other product group; and every record appears in one source
    group, the one named by its [source]. *)
Theorem grouping_complete (h : heap) (items : list ref) (r : ref) :
  In r items ->
  let by_product := group_by_product h items in
  let by_source := group_by_source h items in
  NoDup (List.map fst by_product) /\
  NoDup (List.map fst by_source) /\
  (tags (h r) <> [] ->
   (forall k, In k (groups_of by_product r) <-> In k (tags (h r))) /\
   (NoDup (tags (h r)) ->
    length (groups_of by_product r) = length (tags (h r)))) /\
  (tags (h r) = [] -> groups_of by_product r = [UNCLASSIFIED]) /\
  groups_of by_source r = [source (h r)].
Proof.
  intros Hr. cbv zeta.
  split; [apply group_by_product_keys|].
  split; [apply group_by_source_keys|].
  split; [|split].
  - intros Hne.
    assert (Hk : forall k, In k (groups_of (group_by_product h items) r) <->
                           In k (tags (h r))).
    { intros k. rewrite groups_of_product. tauto. }
    split; [exact Hk|]. intros Hnd.
    apply Permutation_length, NoDup_Permutation;
      [apply groups_of_NoDup, group_by_product_keys | exact Hnd | exact Hk].
  - intros E. apply NoDup_singleton.
    + apply groups_of_NoDup, group_by_product_keys.
    + intros k. rewrite groups_of_product, E. simpl. tauto.
  - apply NoDup_singleton.
    + apply groups_of_NoDup, group_by_source_keys.
    + intros k. rewrite groups_of_source. tauto.
Qed.

(** A source group lists its members in input order. *)
Lemma group_by_source_members (h : heap) (items : list ref) (k : str) :
  members (group_by_source h items) k =
  List.filter (fun i => str_eqb k (source (h i))) items.
Proof.
  rewrite group_by_source_file, file_entries_members.
  unfold members at 1, selected. simpl.
  induction items as [|i items IH]; simpl; [reflexivity|].
  destruct (str_eqb k (source (h i))); simpl; rewrite IH; reflexivity.
Qed.

Lemma StronglySorted_filter {A : Type} (R : A -> A -> Prop) (p : A -> bool)
  (l : list A) :
  StronglySorted R l -> StronglySorted R (List.filter p l).
Proof.
  induction 1 as [|x l Hs IH Hf]; simpl; [constructor|].
  destruct (p x); [|exact IH]. constructor; [exact IH|].
  rewrite Forall_forall in Hf |- *. intros y Hy.
  apply filter_In in Hy. apply Hf. tauto.
Qed.

(** So a source group is ranked when the input list is, as it is where
    [run_pipeline] hands the ranked items to the report. *)
Lemma group_by_source_of_ranked (h : heap) (items : list ref) (k : str) :
  StronglySorted (ranked_before (score h)) items ->
  StronglySorted (ranked_before (score h)) (members (group_by_source h items) k).
Proof.
  intros H. rewrite group_by_source_members. apply StronglySorted_filter, H.
Qed.

(** A group of a ranked list: the items of one source, ranked, which
    ranking again leaves as they are. *)
Lemma group_by_source_group_ranked (h : heap) (items : list ref) (k : str)
  (l : list ref) :
  StronglySorted (ranked_before (score h)) items ->
  In (k, l) (group_by_source h items) ->
  l = List.filter (fun i => str_eqb k (source (h i))) items /\
  StronglySorted (ranked_before (score h)) l /\
  sort_by_engagement h l = l.
Proof.
  intros Hs Hkl.
  assert (E : l = List.filter (fun i => str_eqb k (source (h i))) items).
  { rewrite <- group_by_source_members. symmetry.
    apply members_of_group; [apply group_by_source_keys | exact Hkl]. }
  assert (Hl : StronglySorted (ranked_before (score h)) l).
  { rewrite E. apply StronglySorted_filter, Hs. }
  split; [exact E|]. split; [exact Hl|].
  unfold sort_by_engagement. apply sorted_desc_id. exact Hl.
Qed.

(** C6. Grouping by source is single-membership, keyed by [source]: a
    record of the list is in the group named by its source and in no
    other.  [group_by_source] itself does not sort, it lists the members of
    a group in input order; on a ranked list, which is what its only
    caller, the report generator, receives from [run_pipeline], every group
    is therefore ranked, and is the very list that its re-ranking, the
    stable descending sort by [engagement_score], returns. *)
Theorem group_by_source_ranked (h : heap) (items : list ref) :
  StronglySorted (ranked_before (score h)) items ->
  let groups := group_by_source h items in
  (forall r, In r items -> groups_of groups r = [source (h r)]) /\
  Forall (fun kv =>
            snd kv =
              List.filter (fun i => str_eqb (fst kv) (source (h i))) items /\
            StronglySorted (ranked_before (score h)) (snd kv) /\
            sort_by_engagement h (snd kv) = snd kv)
         groups.
Proof.
  intros Hs. cbv zeta. split.
  - intros r Hr. apply NoDup_singleton.
    + apply groups_of_NoDup, group_by_source_keys.
    + intros k. rewrite groups_of_source. tauto.
  - apply Forall_forall. intros [k l] Hkl. simpl.
    apply group_by_source_group_ranked; assumption.
Qed.

(** The function does not sort: on a list that is not ranked, which
    [run_pipeline] never passes, a group stays in input order while its
    ranking would put the second record first. *)
Lemma group_by_source_not_ranked :
  let h := heap_of
    [sample_item "Alpha" "reddit" "https://a.example/1" 1 0 [] "";
     sample_item "Omega" "reddit" "https://b.example/2" 2 0 [] ""] in
  group_by_source h [0; 1] = [(py "reddit", [0; 1])] /\
  sort_by_engagement h [0; 1] = [1; 0].
Proof. split; vm_compute; reflexivity. Qed.

(** ** Failure isolation *)

(** C8, as the code has it.  When [collect()] returns, [safe_collect]
    returns exactly its list, after two lines at level info.  When
    [collect()] raises an instance of [Exception], [safe_collect] logs the
    failure at level error and returns the empty list.  An exception that
    is not an instance of [Exception] is not caught. *)
Theorem safe_collect_isolates_exceptions (c : Collector) (log : list log_record) :
  (forall items,
      collect c = Returned items ->
      safe_collect c log =
        (Returned items,
         log ++ [(INFO, CollectStarted (source_name c))]
             ++ [(INFO, CollectFinished (source_name c) (length items))])) /\
  (forall e,
      collect c = Raised e -> is_Exception e = true ->
      safe_collect c log =
        (Returned [],
         log ++ [(INFO, CollectStarted (source_name c))]
             ++ [(ERROR, CollectFailed (source_name c) e)])) /\
  (forall e,
      collect c = Raised e -> is_Exception e = false ->
      fst (safe_collect c log) = Raised e).
Proof.
  unfold safe_collect. split; [|split].
  - intros items ->. rewrite <- app_assoc. reflexivity.
  - intros e -> ->. rewrite <- app_assoc. reflexivity.
  - intros e -> ->. reflexivity.
Qed.

Lemma safe_collect_returned (c : Collector) (items : list ref)
  (log : list log_record) :
  collect c = Returned items -> fst (safe_collect c log) = Returned items.
Proof. unfold safe_collect. intros ->. reflexivity. Qed.

(** ** Fan-out and merge *)

Section Gather.

Variable A : Type.

Lemma store_length (i : nat) (a : A) (slots : list (option A)) :
  length (store i a slots) = length slots.
Proof.
  revert i. induction slots as [|x s IH]; intros [|i]; simpl; auto.
Qed.

Lemma store_same (i : nat) (a : A) (slots : list (option A)) :
  i < length slots -> nth_error (store i a slots) i = Some (Some a).
Proof.
  revert i. induction slots as [|x s IH]; intros [|i]; simpl; intros H;
    try lia; [reflexivity|]. apply IH. lia.
Qed.

Lemma store_other (i j : nat) (a : A) (slots : list (option A)) :
  j <> i -> nth_error (store i a slots) j = nth_error slots j.
Proof.
  revert i j. induction slots as [|x s IH]; intros [|i] [|j] H; simpl;
    try reflexivity; try congruence. apply IH. congruence.
Qed.

Lemma read_slots_full (l : list A) : read_slots (List.map Some l) = Some l.
Proof.
  induction l as [|a l IH]; simpl; [reflexivity|]. rewrite IH. reflexivity.
Qed.

Lemma slots_full (results : list A) (slots : list (option A)) :
  length slots = length results ->
  (forall j a, nth_error results j = Some a ->
               nth_error slots j = Some (Some a)) ->
  slots = List.map Some results.
Proof.
  revert slots. induction results as [|r results IH]; intros [|x s] Hlen H;
    simpl in *; try discriminate; [reflexivity|].
  f_equal.
  - specialize (H 0 r eq_refl). simpl in H. congruence.
  - apply IH; [lia|]. intros j a Hj. apply (H (S j) a). exact Hj.
Qed.

(** Whatever the completion order of the tasks, as long as each slot has
    been filled when the order is used up, the slots hold the results at
    the tasks' own indices. *)
Lemma gather_from_returned (results : list A) (order done : list nat)
  (slots : list (option A)) :
  (forall i, In i order -> i < length results) ->
  (forall j, j < length results -> In j (done ++ order)) ->
  length slots = length results ->
  (forall j a, nth_error results j = Some a -> In j done ->
               nth_error slots j = Some (Some a)) ->
  gather_from (List.map Returned results) order slots = Some (Returned results).
Proof.
  revert done slots.
  induction order as [|i order IH]; intros done slots Hlt Hall Hlen Hdone.
  - simpl. rewrite (slots_full results slots Hlen).
    + rewrite read_slots_full. reflexivity.
    + intros j a Hj. apply Hdone; [exact Hj|].
      rewrite <- (app_nil_r done). apply Hall.
      apply nth_error_Some. congruence.
  - simpl. assert (Hi : i < length results) by (apply Hlt; left; reflexivity).
    destruct (nth_error results i) as [a|] eqn:E;
      [|apply nth_error_None in E; lia].
    rewrite (map_nth_error Returned _ _ E).
    apply (IH (done ++ [i])).
    + intros i' H. apply Hlt. right. exact H.
    + intros j Hj. rewrite <- app_assoc. apply Hall. exact Hj.
    + rewrite store_length. exact Hlen.
    + intros j b Hj Hin. destruct (Nat.eq_dec j i) as [->|Hne].
      * rewrite store_same by lia. congruence.
      * rewrite store_other by exact Hne. apply Hdone; [exact Hj|].
        apply in_app_or in Hin. destruct Hin as [H|[H|[]]]; [exact H|congruence].
Qed.

Lemma gather_returned (results : list A) (order : list nat) :
  Permutation order (seq 0 (length results)) ->
  gather (List.map Returned results) order = Some (Returned results).
Proof.
  intros Hperm. unfold gather.
  apply gather_from_returned with (done := []).
  - intros i Hi. apply (Permutation_in _ Hperm) in Hi.
    apply in_seq in Hi. lia.
  - intros j Hj. simpl. apply (Permutation_in _ (Permutation_sym Hperm)).
    apply in_seq. lia.
  - rewrite repeat_length, length_map. reflexivity.
  - intros j a _ [].
Qed.

(** A [gather] that returns has seen every task of its order return. *)
Lemma gather_from_returns (tasks : list (outcome A)) (order : list nat)
  (slots : list (option A)) (l : list A) :
  gather_from tasks order slots = Some (Returned l) ->
  forall i, In i order -> exists a, nth_error tasks i = Some (Returned a).
Proof.
  revert slots. induction order as [|i order IH]; intros slots H j Hj;
    [destruct Hj|].
  simpl in H. destruct (nth_error tasks i) as [[a|e]|] eqn:E; try discriminate.
  destruct Hj as [<-|Hj]; [exists a; exact E|]. eapply IH; eassumption.
Qed.

(** A [gather] that raises hands on the exception of one of its tasks. *)
Lemma gather_from_raises (tasks : list (outcome A)) (order : list nat)
  (slots : list (option A)) (e : exn) :
  gather_from tasks order slots = Some (Raised e) ->
  exists i, In i order /\ nth_error tasks i = Some (Raised e).
Proof.
  revert slots. induction order as [|i order IH]; intros slots H; simpl in H.
  - destruct (read_slots slots); discriminate.
  - destruct (nth_error tasks i) as [[a|e']|] eqn:E; try discriminate.
    + destruct (IH _ H) as (j & Hj & Ej). exists j. split; [right|]; assumption.
    + injection H as ->. exists i. split; [left; reflexivity | exact E].
Qed.

Lemma all_returned (tasks : list (outcome A)) :
  (forall i, i < length tasks ->
             exists a, nth_error tasks i = Some (Returned a)) ->
  exists results, tasks = List.map Returned results.
Proof.
  induction tasks as [|t tasks IH]; intros H.
  - exists []. reflexivity.
  - destruct (H 0) as [a Ha]; [simpl; lia|]. simpl in Ha. injection Ha as ->.
    destruct IH as [results ->].
    + intros i Hi. apply (H (S i)). simpl. lia.
    + exists (a :: results). reflexivity.
Qed.

Lemma gather_returned_inv (tasks : list (outcome A)) (order : list nat)
  (l : list A) :
  Permutation order (seq 0 (length tasks)) ->
  gather tasks order = Some (Returned l) -> tasks = List.map Returned l.
Proof.
  intros Hperm H.
  destruct (all_returned tasks) as [results E].
  { intros i Hi. apply (gather_from_returns _ _ _ H).
    apply (Permutation_in _ (Permutation_sym Hperm)). apply in_seq. lia. }
  subst tasks. rewrite length_map in Hperm.
  rewrite (gather_returned _ Hperm) in H. injection H as ->. reflexivity.
Qed.

End Gather.

Lemma merge_results_concat (results : list (list ref)) :
  merge_results results = concat results.
Proof.
  unfold merge_results.
  assert (H : forall acc, fold_left (fun all_items result => all_items ++ result)
                                    results acc = acc ++ concat results).
  { induction results as [|r results IH]; intros acc; simpl.
    - symmetry. apply app_nil_r.
    - rewrite IH, app_assoc. reflexivity. }
  apply H.
Qed.

Lemma collect_all_merged (collectors : list Collector)
  (results : list (list ref)) (order : list nat) :
  List.map (fun c => fst (safe_collect c [])) collectors =
    List.map Returned results ->
  Permutation order (seq 0 (length collectors)) ->
  collect_all collectors order = Some (Returned (concat results)).
Proof.
  intros Htasks Hperm. unfold collect_all.
  assert (Hlen : length collectors = length results).
  { rewrite <- (length_map (fun c => fst (safe_collect c [])) collectors),
      Htasks. apply length_map. }
  rewrite Htasks, gather_returned by (rewrite <- Hlen; exact Hperm).
  rewrite merge_results_concat. reflexivity.
Qed.

(** A run that merges is a run in which every task returned. *)
Lemma collect_all_returned (collectors : list Collector) (order : list nat)
  (merged : list ref) :
  Permutation order (seq 0 (length collectors)) ->
  collect_all collectors order = Some (Returned merged) ->
  exists results,
    List.map (fun c => fst (safe_collect c [])) collectors =
      List.map Returned results /\
    merged = concat results.
Proof.
  intros Hperm. unfold collect_all.
  destruct (gather _ order) as [[results|e]|] eqn:G; try discriminate.
  intros H. injection H as <-. exists results.
  split; [|apply merge_results_concat].
  apply (@gather_returned_inv _ _ order); [|exact G].
  rewrite length_map. exact Hperm.
Qed.

(** C9. The merged list is the concatenation of the collectors' results in
    the configured order of the collectors, whatever the order in which
    the concurrent tasks complete.  The result of a collector is what its
    [safe_collect] returns: the list of [collect()], or the empty list
    when [collect()] raised an [Exception].  Two runs over the same
    collectors, with completion orders [order1] and [order2], merge to the
    same list, the concatenation, and so rank to the same deduplicated
    output.  The one run without a merged list is that in which an
    exception outside [Exception] leaves a [safe_collect]: then [gather]
    raises such an exception. *)
Theorem merge_order_invariance (lib : PyLib) (collectors : list Collector)
  (order1 order2 : list nat) (h : heap) (max_report_items : Z) :
  Permutation order1 (seq 0 (length collectors)) ->
  Permutation order2 (seq 0 (length collectors)) ->
  (forall results,
      List.map (fun c => fst (safe_collect c [])) collectors =
        List.map Returned results ->
      collect_all collectors order1 = Some (Returned (concat results)) /\
      collect_all collectors order2 = Some (Returned (concat results))) /\
  (forall merged1 merged2,
      collect_all collectors order1 = Some (Returned merged1) ->
      collect_all collectors order2 = Some (Returned merged2) ->
      merged1 = merged2 /\
      rank_items lib h merged1 max_report_items =
      rank_items lib h merged2 max_report_items) /\
  (forall e,
      collect_all collectors order1 = Some (Raised e) ->
      is_Exception e = false /\
      exists c, In c collectors /\ collect c = Raised e).
Proof.
  intros H1 H2. split; [|split].
  - intros results Hres.
    rewrite (@collect_all_merged collectors results order1 Hres H1).
    rewrite (@collect_all_merged collectors results order2 Hres H2).
    split; reflexivity.
  - intros merged1 merged2 E1 E2.
    destruct (@collect_all_returned collectors order1 merged1 H1 E1)
      as (results1 & Hr1 & ->).
    destruct (@collect_all_returned collectors order2 merged2 H2 E2)
      as (results2 & Hr2 & ->).
    assert (E : results1 = results2).
    { rewrite Hr1 in Hr2. clear - Hr2. revert results2 Hr2.
      induction results1 as [|r rs IH]; intros [|r' rs'] H; simpl in H;
        try discriminate; [reflexivity|].
      injection H as -> H. f_equal. apply IH. exact H. }
    subst results2. split; reflexivity.
  - intros e. unfold collect_all.
    destruct (gather _ order1) as [[results|e']|] eqn:G; try discriminate.
    intros H. injection H as ->.
    apply gather_from_raises in G. destruct G as (i & _ & Hi).
    apply nth_error_In, in_map_iff in Hi. destruct Hi as (c & Hc & Hin).
    unfold safe_collect in Hc.
    destruct (collect c) as [items|e'] eqn:Ec; simpl in Hc; [discriminate|].
    destruct (is_Exception e') eqn:Ee; simpl in Hc; [discriminate|].
    injection Hc as ->. split; [exact Ee|]. exists c. split; assumption.
Qed.

(* ------------------------------------------------------------------ *)
(** * The statements at concrete inputs *)

(** The fuzzy-merge example of the specification: both titles normalize
    to one string, the candidate is dropped and the kept record's tags
    become Claude, Cursor. *)
Lemma title_step_example :
  let h := heap_of
    [sample_item "Claude 3.5 Released" "hackernews" "https://a.example/1"
                 90 4 ["Claude"%string] "";
     sample_item "claude 3.5 released!!" "reddit" "https://b.example/2"
                 7 1 ["Claude"%string; "Cursor"%string] ""] in
  _normalize_title ascii_lib (title (h 0)) = py "claude 35 released" /\
  _normalize_title ascii_lib (title (h 1)) = py "claude 35 released" /\
  snd (title_step ascii_lib default_threshold (h, [0]) 1) = [0] /\
  tags (fst (title_step ascii_lib default_threshold (h, [0]) 1) 0) =
    [py "Claude"; py "Cursor"].
Proof. repeat split; vm_compute; reflexivity. Qed.

Lemma deduplicate_example :
  let h := heap_of
    [sample_item "Alpha" "hackernews" "http://a.example/1/" 3 1 ["Claude"%string] "";
     sample_item "alpha!" "reddit" "https://b.example/2" 40 0 ["Codex"%string] "";
     sample_item "Zzz" "twitter" "https://a.example/1?ref=hn" 2 0 [] "S"] in
  snd (deduplicate ascii_lib default_threshold h [0; 1; 2]) = [1; 2] /\
  tags (fst (deduplicate ascii_lib default_threshold h [0; 1; 2]) 1) = [py "Codex"].
Proof. split; vm_compute; reflexivity. Qed.

Lemma title_step_merges_witness :
  let h := heap_of
    [sample_item "Claude 3.5 Released" "hackernews" "https://a.example/1"
                 90 4 ["Claude"%string] "";
     sample_item "claude 3.5 released!!" "reddit" "https://b.example/2"
                 7 1 ["Claude"%string; "Cursor"%string] ""] in
  let h' := fst (title_step ascii_lib default_threshold (h, [0]) 1) in
  snd (title_step ascii_lib default_threshold (h, [0]) 1) = [0] /\
  (exists extra,
      tags (h' 0) = tags (h 0) ++ extra /\
      NoDup extra /\
      (forall t, In t extra <-> In t (tags (h 1)) /\ ~ In t (tags (h 0)))) /\
  same_but_tags (h 0) (h' 0) /\
  (forall r, r <> 0 -> h' r = h r).
Proof.
  intros h.
  apply (proj2 (proj2 (title_step_merges_at_threshold
                         ascii_lib default_threshold h [0] 1)) [] 0 []).
  - reflexivity.
  - intros k' [].
  - vm_compute. discriminate.
Defined.

Lemma engagement_score_formula_witness :
  let it := sample_item "Post" "twitter" "https://a.example/1" 10 5 [] "S" in
  engagement_score it = Returned (Finite (60, 0)%Z) /\
  returns_value (engagement_score it) 60.
Proof.
  intros it.
  apply (proj2 (proj2 (proj2 (proj2 (proj2
    (engagement_score_formula
       (sample_item "Post" "twitter" "https://a.example/1" 10 5 [] "S")))))));
    reflexivity.
Defined.

Lemma group_by_source_ranked_witness :
  let h := heap_of
    [sample_item "Omega" "reddit" "https://b.example/2" 20 0 [] "";
     sample_item "Zzz" "twitter" "https://c.example/3" 3 1 [] "S";
     sample_item "Alpha" "reddit" "https://a.example/1" 1 0 [] ""] in
  let groups := group_by_source h [0; 1; 2] in
  (forall r, In r [0; 1; 2] -> groups_of groups r = [source (h r)]) /\
  Forall (fun kv =>
            snd kv =
              List.filter (fun i => str_eqb (fst kv) (source (h i))) [0; 1; 2] /\
            StronglySorted (ranked_before (score h)) (snd kv) /\
            sort_by_engagement h (snd kv) = snd kv)
         groups.
Proof.
  intros h.
  apply (@group_by_source_ranked h [0; 1; 2]).
  repeat constructor; vm_compute; discriminate.
Defined.

Lemma grouping_complete_witness :
  let h := heap_of
    [sample_item "Alpha" "reddit" "https://a.example/1" 1 0
                 ["Claude"%string; "Cursor"%string] "";
     sample_item "Omega" "twitter" "https://b.example/2" 2 0 [] ""] in
  let by_product := group_by_product h [0; 1] in
  let by_source := group_by_source h [0; 1] in
  NoDup (List.map fst by_product) /\
  NoDup (List.map fst by_source) /\
  (tags (h 0) <> [] ->
   (forall k, In k (groups_of by_product 0) <-> In k (tags (h 0))) /\
   (NoDup (tags (h 0)) ->
    length (groups_of by_product 0) = length (tags (h 0)))) /\
  (tags (h 0) = [] -> groups_of by_product 0 = [UNCLASSIFIED]) /\
  groups_of by_source 0 = [source (h 0)].
Proof.
  intros h.
  apply (grouping_complete h [0; 1] 0). simpl. left. reflexivity.
Defined.

Lemma safe_collect_isolates_exceptions_witness :
  let c := {| source_name := py "reddit";
              collect := Raised (OfException (py "HTTP 503")) |} in
  safe_collect c [] =
    (Returned [],
     [(INFO, CollectStarted (py "reddit"));
      (ERROR, CollectFailed (py "reddit") (OfException (py "HTTP 503")))]).
Proof.
  intros c.
  apply (proj1 (proj2 (safe_collect_isolates_exceptions c []))
               (OfException (py "HTTP 503"))); reflexivity.
Defined.

(** C8 as stated fails: an exception outside the [Exception] hierarchy,
    such as the [CancelledError] of a cancelled task, leaves
    [safe_collect]. *)
Lemma safe_collect_lets_base_exception_through :
  ~ (forall (c : Collector) (e : exn) (log : list log_record),
        collect c = Raised e -> fst (safe_collect c log) = Returned []).
Proof.
  intros H.
  specialize (H {| source_name := py "twitter";
                   collect := Raised (OfBaseException (py "CancelledError")) |}
                (OfBaseException (py "CancelledError")) [] eq_refl).
  discriminate H.
Qed.

(** A run in which the second collector fails with an [Exception]: it
    contributes nothing, and the others are merged in collector order,
    whichever task completes first. *)
Lemma collect_all_example :
  let collectors :=
    [ {| source_name := py "hackernews"; collect := Returned [0; 1] |};
      {| source_name := py "reddit";
         collect := Raised (OfException (py "HTTP 503")) |};
      {| source_name := py "twitter"; collect := Returned [2] |} ] in
  collect_all collectors [2; 0; 1] = Some (Returned [0; 1; 2]) /\
  collect_all collectors [1; 2; 0] = Some (Returned [0; 1; 2]).
Proof. split; vm_compute; reflexivity. Qed.

Lemma merge_order_invariance_witness :
  let collectors :=
    [ {| source_name := py "hackernews"; collect := Returned [0; 1] |};
      {| source_name := py "reddit";
         collect := Raised (OfException (py "HTTP 503")) |};
      {| source_name := py "twitter"; collect := Returned [2] |} ] in
  let h := heap_of
    [sample_item "Alpha" "hackernews" "https://a.example/1" 1 0 [] "";
     sample_item "Omega" "hackernews" "https://b.example/2" 2 0 [] "";
     sample_item "Zzz" "twitter" "https://c.example/3" 3 0 [] ""] in
  (forall results,
      List.map (fun c => fst (safe_collect c [])) collectors =
        List.map Returned results ->
      collect_all collectors [2; 0; 1] = Some (Returned (concat results)) /\
      collect_all collectors [1; 2; 0] = Some (Returned (concat results))) /\
  (forall merged1 merged2,
      collect_all collectors [2; 0; 1] = Some (Returned merged1) ->
      collect_all collectors [1; 2; 0] = Some (Returned merged2) ->
      merged1 = merged2 /\
      rank_items ascii_lib h merged1 50 = rank_items ascii_lib h merged2 50) /\
  (forall e,
      collect_all collectors [2; 0; 1] = Some (Raised e) ->
      is_Exception e = false /\
      exists c, In c collectors /\ collect c = Raised e).
Proof.
  intros collectors h.
  apply (@merge_order_invariance ascii_lib collectors
           [2; 0; 1] [1; 2; 0] h 50%Z).
  - simpl. apply Permutation_sym.
    apply (Permutation_cons_app [2] [1]). simpl.
    apply (Permutation_cons_app [2] []). reflexivity.
  - simpl. apply Permutation_sym.
    apply (Permutation_cons_app [1; 2] []). reflexivity.
Defined.

(* ------------------------------------------------------------------ *)
(** * Further properties of the pipeline *)

(** ** Insertion-ordered dicts, continued *)

Lemma dict_lookup_set {V : Type} (d : list (str * V)) (k k' : str) (v : V) :
  dict_lookup (dict_set d k v) k' =
  if str_eqb k' k then Some v else dict_lookup d k'.
Proof.
  induction d as [|[k0 v0] d IH]; simpl.
  - destruct (str_eqb k' k); reflexivity.
  - destruct (str_eqb k k0) eqn:E; simpl.
    + apply str_eqb_eq in E. subst k0. destruct (str_eqb k' k); reflexivity.
    + destruct (str_eqb k' k0) eqn:E'; [|exact IH].
      apply str_eqb_eq in E'. subst k0.
      destruct (str_eqb k' k) eqn:E''; [|reflexivity].
      apply str_eqb_eq in E''. subst k'. rewrite str_eqb_refl in E. discriminate.
Qed.

Lemma dict_set_keys_cases {V : Type} (d : list (str * V)) (k : str) (v : V) :
  List.map fst (dict_set d k v) =
  if str_in k (List.map fst d) then List.map fst d else List.map fst d ++ [k].
Proof.
  destruct (dict_lookup d k) as [v0|] eqn:L.
  - rewrite dict_set_keys by congruence.
    assert (H : In k (List.map fst d)).
    { apply dict_lookup_Some in L. change k with (fst (k, v0)).
      apply in_map. exact L. }
    apply str_in_In in H. rewrite H. reflexivity.
  - rewrite dict_set_new by exact L. rewrite map_app. simpl.
    apply dict_lookup_None, str_in_not_In in L. rewrite L. reflexivity.
Qed.

(** The keys of a dict that is filled key by key. *)
Lemma fromkeys_fold (keys : list str) (d : list (str * unit)) :
  List.map fst (fold_left (fun d k => dict_set d k tt) keys d) =
  List.map fst d ++
  List.filter (fun k => negb (str_in k (List.map fst d))) (dict_fromkeys keys).
Proof.
  unfold dict_fromkeys. revert d.
  induction keys as [|k keys IH]; intros d; simpl.
  - symmetry. apply app_nil_r.
  - rewrite IH. rewrite (IH [(k, tt)]). simpl.
    rewrite dict_set_keys_cases.
    destruct (str_in k (List.map fst d)) eqn:E; simpl.
    + f_equal.
      set (U := List.map fst (fold_left _ keys [])).
      induction U as [|u U IHU]; simpl; [reflexivity|].
      rewrite orb_false_r.
      destruct (str_eqb u k) eqn:Eu; simpl.
      * apply str_eqb_eq in Eu. subst u. rewrite E. simpl. exact IHU.
      * destruct (str_in u (List.map fst d)); simpl; rewrite IHU; reflexivity.
    + rewrite <- app_assoc. simpl. f_equal. f_equal.
      set (U := List.map fst (fold_left _ keys [])).
      induction U as [|u U IHU]; simpl; [reflexivity|].
      unfold str_in in *. rewrite existsb_app. simpl.
      rewrite !orb_false_r.
      destruct (str_eqb u k) eqn:Eu; simpl.
      * rewrite orb_true_r. simpl. exact IHU.
      * rewrite orb_false_r.
        destruct (existsb (str_eqb u) (List.map fst d)); simpl;
          rewrite IHU; reflexivity.
Qed.

Lemma dict_fromkeys_cons (k : str) (keys : list str) :
  dict_fromkeys (k :: keys) =
  k :: List.filter (fun x => negb (str_eqb x k)) (dict_fromkeys keys).
Proof.
  unfold dict_fromkeys at 1. simpl. rewrite (fromkeys_fold keys [(k, tt)]).
  simpl. f_equal. apply filter_ext. intros x. unfold str_in. simpl.
  rewrite orb_false_r. reflexivity.
Qed.

Lemma dict_fromkeys_In (keys : list str) (k : str) :
  In k (dict_fromkeys keys) <-> In k keys.
Proof.
  induction keys as [|k0 keys IH]; [simpl; tauto|].
  rewrite dict_fromkeys_cons. simpl. rewrite filter_In, IH, negb_true_iff.
  rewrite str_eqb_neq. split.
  - intros [H|[H _]]; [left|right]; assumption.
  - intros [H|H]; [left; exact H|].
    destruct (list_eq_dec N.eq_dec k0 k) as [E|E]; [left; exact E|].
    right. split; [exact H | congruence].
Qed.

Lemma dict_fromkeys_NoDup (keys : list str) : NoDup (dict_fromkeys keys).
Proof.
  induction keys as [|k0 keys IH]; [constructor|].
  rewrite dict_fromkeys_cons. constructor.
  - rewrite filter_In, negb_true_iff, str_eqb_neq. intros [_ H]. congruence.
  - apply NoDup_filter. exact IH.
Qed.

Lemma dict_fromkeys_id (keys : list str) :
  NoDup keys -> dict_fromkeys keys = keys.
Proof.
  induction 1 as [|k keys Hk Hnd IH]; [reflexivity|].
  rewrite dict_fromkeys_cons, IH. f_equal.
  apply forallb_filter_id. apply forallb_forall. intros x Hx.
  apply negb_true_iff, str_eqb_neq. congruence.
Qed.

Section MoreDeduplication.

Variable lib : PyLib.

(** ** Phase 1, continued *)

(** Every item seen so far has an entry under its key, whose score is at
    least its own. *)
Lemma url_step_covers (h : heap) (m : list (str * ref)) (item x : ref) :
  (x = item \/
   exists v, dict_lookup m (url_key lib h x) = Some v /\
             (score h x <= score h v)%Q) ->
  exists v, dict_lookup (url_step lib h m item) (url_key lib h x) = Some v /\
            (score h x <= score h v)%Q.
Proof.
  unfold url_step. fold (url_key lib h item).
  destruct (dict_lookup m (url_key lib h item)) as [existing|] eqn:L.
  - destruct (Qgtb (score h item) (score h existing)) eqn:G.
    + apply Qgtb_lt in G. intros [->|(v & Hv & Hle)].
      * exists item. rewrite dict_lookup_set, str_eqb_refl.
        split; [reflexivity | apply Qle_refl].
      * rewrite dict_lookup_set.
        destruct (str_eqb (url_key lib h x) (url_key lib h item)) eqn:E.
        -- apply str_eqb_eq in E. rewrite E, L in Hv. injection Hv as <-.
           exists item. split; [reflexivity|].
           apply Qlt_le_weak. eapply Qle_lt_trans; eassumption.
        -- exists v. split; assumption.
    + apply Qgtb_le in G. intros [->|H]; [|exact H].
      exists existing. split; assumption.
  - intros [->|(v & Hv & Hle)].
    + exists item. rewrite dict_lookup_set, str_eqb_refl.
      split; [reflexivity | apply Qle_refl].
    + exists v. rewrite dict_lookup_set.
      destruct (str_eqb (url_key lib h x) (url_key lib h item)) eqn:E.
      * apply str_eqb_eq in E. rewrite E in Hv. congruence.
      * split; assumption.
Qed.

Lemma url_fold_covers (h : heap) (items : list ref) (m : list (str * ref))
  (x : ref) :
  (In x items \/
   exists v, dict_lookup m (url_key lib h x) = Some v /\
             (score h x <= score h v)%Q) ->
  exists v,
    dict_lookup (fold_left (url_step lib h) items m) (url_key lib h x) = Some v /\
    (score h x <= score h v)%Q.
Proof.
  revert m. induction items as [|item items IH]; intros m H; simpl.
  - destruct H as [[]|H]. exact H.
  - apply IH. destruct H as [[<-|H]|H].
    + right. apply url_step_covers. left. reflexivity.
    + left. exact H.
    + right. apply url_step_covers. right. exact H.
Qed.

(** X1. Phase 1 returns input items whose normalized URLs differ pairwise,
    and for every input item it returns an item with the same normalized
    URL and a score at least as high. *)
Theorem _deduplicate_by_url_keeps_best (h : heap) (items : list ref) :
  let out := _deduplicate_by_url lib h items in
  (forall r, In r out -> In r items) /\
  NoDup (List.map (url_key lib h) out) /\
  (forall x, In x items ->
     exists y, In y out /\ url_key lib h y = url_key lib h x /\
               (score h x <= score h y)%Q).
Proof.
  cbv zeta. destruct (_deduplicate_by_url_distinct lib h items) as [Hnd Hin].
  split; [exact Hin|]. split; [exact Hnd|].
  intros x Hx. unfold _deduplicate_by_url.
  destruct (@url_fold_covers h items [] x (or_introl Hx)) as (v & Hv & Hle).
  assert (Hnil : NoDup (List.map fst (@nil (str * ref)))) by constructor.
  destruct (url_fold_invariant lib h items [] Hnil) as (_ & Hkey & _);
    [intros ? ? []|].
  apply dict_lookup_Some in Hv. exists v. split; [|split].
  - change v with (snd (url_key lib h x, v)). apply in_map. exact Hv.
  - apply Hkey. exact Hv.
  - exact Hle.
Qed.

Lemma url_step_keys (h : heap) (m : list (str * ref)) (item : ref) :
  List.map fst (url_step lib h m item) =
  if str_in (url_key lib h item) (List.map fst m) then List.map fst m
  else List.map fst m ++ [url_key lib h item].
Proof.
  unfold url_step. fold (url_key lib h item).
  destruct (dict_lookup m (url_key lib h item)) as [existing|] eqn:L.
  - assert (H : In (url_key lib h item) (List.map fst m)).
    { apply dict_lookup_Some in L.
      change (url_key lib h item) with (fst (url_key lib h item, existing)).
      apply in_map. exact L. }
    apply str_in_In in H. rewrite H.
    destruct (Qgtb (score h item) (score h existing)); [|reflexivity].
    apply dict_set_keys. congruence.
  - rewrite dict_set_keys_cases.
    apply dict_lookup_None, str_in_not_In in L. rewrite L. reflexivity.
Qed.

Lemma url_fold_keys (h : heap) (items : list ref) (m : list (str * ref))
  (d : list (str * unit)) :
  List.map fst m = List.map fst d ->
  List.map fst (fold_left (url_step lib h) items m) =
  List.map fst (fold_left (fun d k => dict_set d k tt)
                          (List.map (url_key lib h) items) d).
Proof.
  revert m d. induction items as [|item items IH]; intros m d E; simpl.
  - exact E.
  - apply IH. rewrite url_step_keys, dict_set_keys_cases, E. reflexivity.
Qed.

(** X2. Phase 1 lists the survivors by first occurrence of their
    normalized URL in the input: their keys are the input's keys with the
    repetitions dropped. *)
Theorem _deduplicate_by_url_order (h : heap) (items : list ref) :
  List.map (url_key lib h) (_deduplicate_by_url lib h items) =
  dict_fromkeys (List.map (url_key lib h) items).
Proof.
  unfold _deduplicate_by_url, dict_fromkeys.
  assert (Hnil : NoDup (List.map fst (@nil (str * ref)))) by constructor.
  destruct (url_fold_invariant lib h items [] Hnil) as (_ & Hkey & _);
    [intros ? ? []|].
  rewrite map_snd_keys by exact Hkey.
  apply url_fold_keys. reflexivity.
Qed.

End MoreDeduplication.

(** ** Phase 2, continued *)

Section MoreScan.

Variable lib : PyLib.
Variable threshold : Q.

Local Abbreviation step := (title_step lib threshold).
Local Abbreviation find := (find_duplicate lib threshold).

Lemma similarity_titles (h h' : heap) (x k : ref) :
  heap_extended h h' -> similarity lib h' x k = similarity lib h x k.
Proof.
  intros H. unfold similarity.
  rewrite !(heap_extended_title _ H). reflexivity.
Qed.

Lemma scan_keeps (rest : list ref) (h : heap) (kept : list ref) :
  incl kept (snd (fold_left step rest (h, kept))).
Proof.
  revert h kept. induction rest as [|item rest IH]; intros h kept; simpl.
  - apply incl_refl.
  - destruct (find h item kept) as [k|].
    + apply IH.
    + intros z Hz. apply IH. apply in_or_app. left. exact Hz.
Qed.

(** X3. Phase 2 returns items of its input in ranking order, no one
    similar to an item kept before it, and returns none only for an empty
    input. *)
Theorem _deduplicate_by_title_output (h : heap) (items : list ref) :
  let res := _deduplicate_by_title lib threshold h items in
  StronglySorted (ranked_before (score (fst res))) (snd res) /\
  (forall pre x post,
      snd res = pre ++ x :: post ->
      forall k, In k pre -> (similarity lib (fst res) x k < threshold)%Q) /\
  incl (snd res) items /\
  (snd res = [] <-> items = []).
Proof.
  cbv zeta.
  destruct (_deduplicate_by_title_spec lib threshold h items)
    as (Hext & Hset & Hsorted & Hincl & _).
  split; [|split; [|split]].
  - eapply StronglySorted_ext; [|exact Hsorted].
    unfold ranked_before. intros a b H.
    rewrite !(heap_extended_score _ Hext). exact H.
  - intros pre x post E. apply find_duplicate_None. eapply Hset. exact E.
  - exact Hincl.
  - split.
    + intros E. destruct items as [|i items]; [reflexivity|]. exfalso.
      unfold _deduplicate_by_title in E.
      assert (Hperm := sorted_desc_perm (score h) (i :: items)).
      fold (sort_by_engagement h (i :: items)) in Hperm.
      destruct (sort_by_engagement h (i :: items)) as [|x ranked].
      * apply Permutation_sym, Permutation_nil in Hperm. discriminate.
      * simpl in E.
        assert (Hin := scan_keeps ranked h [x] x (or_introl eq_refl)).
        rewrite E in Hin. destruct Hin.
    + intros ->. reflexivity.
Qed.

Lemma scan_covers (h0 : heap) (rest : list ref) (h : heap) (kept : list ref)
  (x : ref) :
  heap_extended h0 h ->
  StronglySorted (ranked_before (score h0)) (kept ++ rest) ->
  In x rest ->
  let res := fold_left step rest (h, kept) in
  In x (snd res) \/
  exists k, In k (snd res) /\
            (threshold <= similarity lib h0 x k)%Q /\
            (score h0 x <= score h0 k)%Q.
Proof.
  cbv zeta. revert h kept.
  induction rest as [|item rest IH]; intros h kept Hext Hs Hx; [destruct Hx|].
  simpl. destruct (find h item kept) as [k|] eqn:E.
  - assert (Hext' : heap_extended h0
      (heap_set_tags h k (merge_tags (tags (h k)) (tags (h item))))).
    { eapply heap_extended_trans; [exact Hext | apply heap_set_tags_extended]. }
    destruct Hx as [<-|Hx].
    + right. apply find_duplicate_Some in E.
      destruct E as (pre & post & -> & _ & Hk). exists k. split; [|split].
      * apply scan_keeps. apply in_or_app. right. left. reflexivity.
      * rewrite <- (similarity_titles _ _ Hext). exact Hk.
      * rewrite <- app_assoc in Hs. simpl in Hs.
        clear - Hs. induction pre as [|p pre IHp]; simpl in Hs.
        -- inversion Hs as [|? ? _ Hf]; subst. rewrite Forall_forall in Hf.
           apply Hf. apply in_or_app. right. left. reflexivity.
        -- inversion Hs; subst. apply IHp. assumption.
    + apply IH; [exact Hext' | | exact Hx].
      eapply StronglySorted_remove. exact Hs.
  - destruct Hx as [<-|Hx].
    + left. apply scan_keeps. apply in_or_app. right. left. reflexivity.
    + apply IH; [exact Hext | | exact Hx].
      rewrite <- app_assoc. exact Hs.
Qed.

(** X4. Phase 2 loses no story: every item of its input is kept, or is
    similar, at the threshold or above, to a kept item whose score is at
    least its own. *)
Theorem _deduplicate_by_title_covers (h : heap) (items : list ref) (x : ref) :
  In x items ->
  let kept := snd (_deduplicate_by_title lib threshold h items) in
  In x kept \/
  exists k, In k kept /\
            (threshold <= similarity lib h x k)%Q /\
            (score h x <= score h k)%Q.
Proof.
  intros Hx. cbv zeta. unfold _deduplicate_by_title.
  destruct items as [|i items]; [destruct Hx|].
  apply scan_covers.
  - apply heap_extended_refl.
  - apply sorted_desc_sorted.
  - apply (Permutation_in _ (sorted_desc_perm (score h) (i :: items))). exact Hx.
Qed.

Lemma merge_tags_includes (kept_tags item_tags : list str) (t : str) :
  In t kept_tags \/ In t item_tags -> In t (merge_tags kept_tags item_tags).
Proof.
  destruct (merge_tags_appends item_tags kept_tags) as (extra & -> & _ & Hin).
  intros [H|H]; apply in_or_app; [left; exact H|].
  destruct (in_dec (list_eq_dec N.eq_dec) t kept_tags) as [Hk|Hk];
    [left; exact Hk | right; apply Hin; split; assumption].
Qed.

Lemma heap_extended_tags (h h' : heap) (r : ref) (t : str) :
  heap_extended h h' -> In t (tags (h r)) -> In t (tags (h' r)).
Proof.
  intros H Ht. destruct (H r) as [_ [extra ->]]. apply in_or_app. left. exact Ht.
Qed.

Lemma scan_carries_tags (rest : list ref) (h : heap) (kept : list ref)
  (x : ref) (t : str) :
  (In x rest /\ In t (tags (h x))) \/
  (exists k, In k kept /\ In t (tags (h k))) ->
  let res := fold_left step rest (h, kept) in
  exists k, In k (snd res) /\ In t (tags (fst res k)).
Proof.
  cbv zeta. revert h kept.
  induction rest as [|item rest IH]; intros h kept H.
  - simpl. destruct H as [[[] _]|H]. exact H.
  - simpl. destruct (find h item kept) as [k|] eqn:E.
    + set (h1 := heap_set_tags h k (merge_tags (tags (h k)) (tags (h item)))).
      assert (Hext : heap_extended h h1) by apply heap_set_tags_extended.
      assert (Hk : In k kept).
      { apply find_duplicate_Some in E. destruct E as (pre & post & -> & _).
        apply in_or_app. right. left. reflexivity. }
      assert (Hmerged : forall t', In t' (tags (h item)) -> In t' (tags (h1 k))).
      { intros t' Ht'. unfold h1, heap_set_tags. rewrite Nat.eqb_refl. simpl.
        apply merge_tags_includes. right. exact Ht'. }
      apply IH. destruct H as [[[<-|Hx] Ht]|(k' & Hk' & Ht)].
      * right. exists k. split; [exact Hk | apply Hmerged; exact Ht].
      * left. split; [exact Hx | eapply heap_extended_tags; eassumption].
      * right. exists k'. split; [exact Hk'|].
        eapply heap_extended_tags; eassumption.
    + apply IH. destruct H as [[[<-|Hx] Ht]|(k' & Hk' & Ht)].
      * right. exists item. split; [|exact Ht].
        apply in_or_app. right. left. reflexivity.
      * left. split; assumption.
      * right. exists k'. split; [|exact Ht]. apply in_or_app. left. exact Hk'.
Qed.

(** X5. Phase 2 loses no tag: every tag of every item of its input is, in
    the end, a tag of some kept item. *)
Theorem _deduplicate_by_title_carries_tags (h : heap) (items : list ref)
  (x : ref) (t : str) :
  In x items -> In t (tags (h x)) ->
  let res := _deduplicate_by_title lib threshold h items in
  exists k, In k (snd res) /\ In t (tags (fst res k)).
Proof.
  intros Hx Ht. cbv zeta. unfold _deduplicate_by_title.
  destruct items as [|i items]; [destruct Hx|].
  apply (@scan_carries_tags _ h [] x t). left. split; [|exact Ht].
  apply (Permutation_in _ (sorted_desc_perm (score h) (i :: items))). exact Hx.
Qed.

End MoreScan.

(** ** Tags stay a set *)

Lemma merge_tags_NoDup (kept_tags item_tags : list str) :
  NoDup kept_tags -> NoDup (merge_tags kept_tags item_tags).
Proof.
  intros H.
  destruct (merge_tags_appends item_tags kept_tags) as (extra & -> & Hnd & Hin).
  apply NoDup_app; [exact H | exact Hnd|].
  intros t Ht Hex. apply Hin in Hex. tauto.
Qed.

Lemma scan_tags_NoDup (lib : PyLib) (threshold : Q) (rest : list ref)
  (h : heap) (kept : list ref) :
  (forall r, NoDup (tags (h r))) ->
  forall r,
    NoDup (tags (fst (fold_left (title_step lib threshold) rest (h, kept)) r)).
Proof.
  revert h kept. induction rest as [|item rest IH]; intros h kept H; simpl.
  - exact H.
  - destruct (find_duplicate lib threshold h item kept) as [k|]; apply IH;
      [|exact H].
    intros r. unfold heap_set_tags. destruct (Nat.eqb r k); [|apply H].
    simpl. apply merge_tags_NoDup, H.
Qed.

(** X6. The deduplicator keeps tag lists free of repetition: when no
    object has a tag twice before the run, none has after it. *)
Theorem deduplicate_keeps_tags_distinct (lib : PyLib) (threshold : Q)
  (h : heap) (items : list ref) :
  (forall r, NoDup (tags (h r))) ->
  forall r, NoDup (tags (fst (deduplicate lib threshold h items) r)).
Proof.
  intros H. unfold deduplicate, _deduplicate_by_title.
  destruct (_deduplicate_by_url lib h items) as [|i url_deduped]; [exact H|].
  apply scan_tags_NoDup. exact H.
Qed.

(** ** Ranking, continued *)

(** X8. Ranking and selecting commute: the ranking of the selected items
    is the selection from the ranked items, as for the KOL list of the
    report, [sort_by_engagement(filter_kol_items(items))]. *)
Theorem sort_by_engagement_filter (h : heap) (p : ref -> bool)
  (items : list ref) :
  sort_by_engagement h (List.filter p items) =
  List.filter p (sort_by_engagement h items) /\
  sort_by_engagement h (filter_kol_items h items) =
  filter_kol_items h (sort_by_engagement h items).
Proof.
  assert (H : forall q : ref -> bool,
             sort_by_engagement h (List.filter q items) =
             List.filter q (sort_by_engagement h items)).
  { intros q. unfold sort_by_engagement. symmetry. apply stable_sort_unique.
    - apply StronglySorted_filter, sorted_desc_sorted.
    - intros k. unfold with_key.
      assert (Hcomm : forall (f g : ref -> bool) (l : list ref),
                 List.filter f (List.filter g l) =
                 List.filter g (List.filter f l)).
      { intros f g l. induction l as [|x l IH]; [reflexivity|]. simpl.
        destruct (f x) eqn:Ef, (g x) eqn:Eg; simpl; rewrite ?Ef, ?Eg, IH;
          reflexivity. }
      rewrite Hcomm. fold (with_key (score h) k (sorted_desc (score h) items)).
      rewrite sorted_desc_with_key. apply Hcomm. }
  split; [apply H | apply (H (fun r => is_kol (h r)))].
Qed.

Lemma StronglySorted_firstn {A : Type} (R : A -> A -> Prop) (n : nat)
  (l : list A) :
  StronglySorted R l -> StronglySorted R (firstn n l).
Proof.
  intros H. revert n. induction H as [|x l Hs IH Hf]; intros [|n]; simpl;
    try constructor.
  - apply IH.
  - rewrite Forall_forall in Hf |- *. intros y Hy. apply Hf.
    rewrite <- (firstn_skipn n l). apply in_or_app. left. exact Hy.
Qed.

Lemma slice_to_firstn {A : Type} (n : Z) (l : list A) :
  exists m, slice_to n l = firstn m l.
Proof. unfold slice_to. destruct (n <? 0)%Z; eexists; reflexivity. Qed.

(** What [run_pipeline] hands on is ranked. *)
Lemma rank_items_ranked (lib : PyLib) (h : heap) (all_items : list ref)
  (max_report_items : Z) :
  let res := rank_items lib h all_items max_report_items in
  StronglySorted (ranked_before (score (fst res))) (snd res).
Proof.
  cbv zeta. unfold rank_items, deduplicate.
  destruct (_deduplicate_by_title_spec lib default_threshold h
              (_deduplicate_by_url lib h all_items))
    as (Hext & _ & Hsorted & _).
  destruct (_deduplicate_by_title lib default_threshold h
              (_deduplicate_by_url lib h all_items)) as [h' out].
  simpl in Hext, Hsorted. simpl fst. simpl snd.
  destruct (slice_to_firstn max_report_items (sort_by_engagement h' out))
    as [m Em].
  rewrite Em. apply StronglySorted_firstn. apply sorted_desc_sorted.
Qed.

(** The source groups of a run.  The report generator groups the items
    that [run_pipeline] has ranked; between the two the summarizer may have
    written the [summary] and [sentiment] of the objects, so the heap
    [h_report] of the report agrees with the heap of the ranking on the
    fields that grouping and scoring read.  Every source group of the
    report is then ranked: sorting it by [engagement_score] returns it
    unchanged. *)
Lemma group_by_source_of_report_items (lib : PyLib) (h : heap)
  (all_items : list ref) (max_report_items : Z) (h_report : heap) :
  let res := rank_items lib h all_items max_report_items in
  (forall r, engagement_score (h_report r) = engagement_score (fst res r)) ->
  Forall (fun kv =>
            StronglySorted (ranked_before (score h_report)) (snd kv) /\
            sort_by_engagement h_report (snd kv) = snd kv)
         (group_by_source h_report (snd res)).
Proof.
  cbv zeta. intros Hscore.
  assert (Hs : StronglySorted (ranked_before (score h_report))
                 (snd (rank_items lib h all_items max_report_items))).
  { eapply StronglySorted_ext; [|apply rank_items_ranked].
    unfold ranked_before, score. intros a b H.
    rewrite !Hscore. exact H. }
  apply Forall_forall. intros [k l] Hkl. simpl.
  destruct (@group_by_source_group_ranked _ _ _ _ Hs Hkl) as (_ & Hl & Hid).
  split; assumption.
Qed.

(** X7. After deduplication the ranking of [run_pipeline] has nothing
    left to reorder: the items of the report are the first
    [max_report_items] items of the deduplicator's output, hence ranked,
    taken from the collected items, and, for a limit that is not negative,
    no more than the limit. *)
Theorem rank_items_takes_top (lib : PyLib) (h : heap) (all_items : list ref)
  (max_report_items : Z) :
  let d := deduplicate lib default_threshold h all_items in
  let res := rank_items lib h all_items max_report_items in
  res = (fst d, slice_to max_report_items (snd d)) /\
  StronglySorted (ranked_before (score (fst res))) (snd res) /\
  incl (snd res) all_items /\
  ((0 <= max_report_items)%Z ->
   length (snd res) <= Z.to_nat max_report_items).
Proof.
  cbv zeta. unfold rank_items, deduplicate.
  destruct (_deduplicate_by_url_distinct lib h all_items) as [_ Hin].
  destruct (_deduplicate_by_title_spec lib default_threshold h
              (_deduplicate_by_url lib h all_items))
    as (Hext & _ & Hsorted & Hincl & _).
  destruct (_deduplicate_by_title lib default_threshold h
              (_deduplicate_by_url lib h all_items)) as [h' out].
  simpl in Hext, Hsorted, Hincl. simpl fst. simpl snd.
  assert (Hs' : StronglySorted (ranked_before (score h')) out).
  { eapply StronglySorted_ext; [|exact Hsorted].
    unfold ranked_before. intros a b H.
    rewrite !(heap_extended_score _ Hext). exact H. }
  unfold sort_by_engagement. rewrite (sorted_desc_id Hs').
  split; [reflexivity|].
  destruct (slice_to_firstn max_report_items out) as [m Em].
  split; [|split].
  - rewrite Em. apply StronglySorted_firstn. exact Hs'.
  - rewrite Em. intros z Hz. apply Hin, Hincl.
    rewrite <- (firstn_skipn m out). apply in_or_app. left. exact Hz.
  - intros Hmax. unfold slice_to.
    destruct (max_report_items <? 0)%Z eqn:E; [apply Z.ltb_lt in E; lia|].
    apply firstn_le_length.
Qed.

(** ** Grouping, continued *)

Section MoreGroups.

Variable V : Type.
Implicit Types (g : list (str * list V)) (k : str) (v : V).

Lemma setdefault_append_concat g k v :
  Permutation (concat (List.map snd (setdefault_append g k v)))
              (concat (List.map snd g) ++ [v]).
Proof.
  induction g as [|[k0 l0] g IH]; simpl; [reflexivity|].
  destruct (str_eqb k k0); simpl.
  - rewrite <- !app_assoc. apply Permutation_app_head.
    apply Permutation_app_comm.
  - rewrite <- app_assoc. apply Permutation_app_head. exact IH.
Qed.

Lemma file_entries_concat (entries : list (str * V)) g :
  Permutation (concat (List.map snd (file_entries entries g)))
              (concat (List.map snd g) ++ List.map snd entries).
Proof.
  unfold file_entries. revert g.
  induction entries as [|e entries IH]; intros g; simpl.
  - rewrite app_nil_r. reflexivity.
  - rewrite IH, setdefault_append_concat, <- app_assoc. reflexivity.
Qed.

Lemma setdefault_append_nonempty g k v :
  Forall (fun kv => snd kv <> []) g ->
  Forall (fun kv => snd kv <> []) (setdefault_append g k v).
Proof.
  induction 1 as [|[k0 l0] g H0 Hg IH]; simpl.
  - constructor; [discriminate | constructor].
  - destruct (str_eqb k k0); constructor; try assumption.
    simpl. intros E. apply app_eq_nil in E. destruct E. discriminate.
Qed.

Lemma file_entries_nonempty (entries : list (str * V)) g :
  Forall (fun kv => snd kv <> []) g ->
  Forall (fun kv => snd kv <> []) (file_entries entries g).
Proof.
  unfold file_entries. revert g.
  induction entries as [|e entries IH]; intros g H; simpl; [exact H|].
  apply IH, setdefault_append_nonempty, H.
Qed.

Lemma setdefault_append_keys_cases g k v :
  List.map fst (setdefault_append g k v) =
  if str_in k (List.map fst g) then List.map fst g else List.map fst g ++ [k].
Proof.
  induction g as [|[k0 l0] g IH]; simpl; [reflexivity|].
  destruct (str_eqb k k0); simpl; [reflexivity|].
  rewrite IH. destruct (str_in k (List.map fst g)); reflexivity.
Qed.

Lemma file_entries_keys (entries : list (str * V)) g (d : list (str * unit)) :
  List.map fst g = List.map fst d ->
  List.map fst (file_entries entries g) =
  List.map fst (fold_left (fun d k => dict_set d k tt)
                          (List.map fst entries) d).
Proof.
  unfold file_entries. revert g d.
  induction entries as [|e entries IH]; intros g d E; simpl; [exact E|].
  apply IH. rewrite setdefault_append_keys_cases, dict_set_keys_cases, E.
  reflexivity.
Qed.

End MoreGroups.

(** X9. Every product group is non-empty and ranked by score; the groups
    stand in the order in which their names first come up while the items
    and their tags are read; together they hold one entry per item and
    tag, and one per item without tags. *)
Theorem group_by_product_ranked (h : heap) (items : list ref) :
  let groups := group_by_product h items in
  let entries := flat_map (product_entries h) items in
  Forall (fun kv => snd kv <> [] /\
                    StronglySorted (ranked_before (score h)) (snd kv)) groups /\
  List.map fst groups = dict_fromkeys (List.map fst entries) /\
  Permutation (concat (List.map snd groups)) (List.map snd entries).
Proof.
  cbv zeta. unfold group_by_product. rewrite product_fold_file.
  set (raw := file_entries (flat_map (product_entries h) items) []).
  assert (Hne : Forall (fun kv : str * list ref => snd kv <> []) raw)
    by (apply file_entries_nonempty; constructor).
  split; [|split].
  - apply Forall_forall. intros kv Hkv. apply in_map_iff in Hkv.
    destruct Hkv as ([k l] & <- & Hkl). simpl.
    rewrite Forall_forall in Hne. specialize (Hne _ Hkl). simpl in Hne.
    split; [|apply sorted_desc_sorted].
    intros E. apply Hne.
    apply Permutation_nil. rewrite <- E. apply Permutation_sym.
    apply sorted_desc_perm.
  - rewrite map_map. simpl. unfold raw, dict_fromkeys.
    apply file_entries_keys. reflexivity.
  - rewrite <- (file_entries_concat (flat_map (product_entries h) items) []).
    fold raw. clear Hne. induction raw as [|[k l] raw IH]; simpl; [reflexivity|].
    apply Permutation_app; [|exact IH].
    apply Permutation_sym, sorted_desc_perm.
Qed.

(** X10. The source groups split the list: each group is the input
    restricted to one source, in input order, and is not empty; the groups
    stand in the order in which their sources first appear; and taken
    together they hold every item exactly as often as the input does. *)
Theorem group_by_source_partition (h : heap) (items : list ref) :
  let groups := group_by_source h items in
  Forall (fun kv =>
            snd kv <> [] /\
            snd kv = List.filter (fun i => str_eqb (fst kv) (source (h i))) items)
         groups /\
  List.map fst groups = dict_fromkeys (List.map (fun i => source (h i)) items) /\
  Permutation (concat (List.map snd groups)) items.
Proof.
  cbv zeta. split; [|split].
  - apply Forall_forall. intros [k l] Hkl. simpl. split.
    + rewrite group_by_source_file in Hkl.
      assert (Hne : Forall (fun kv : str * list ref => snd kv <> [])
                (file_entries (List.map (fun i => (source (h i), i)) items) []))
        by (apply file_entries_nonempty; constructor).
      rewrite Forall_forall in Hne. apply (Hne _ Hkl).
    + rewrite <- group_by_source_members.
      symmetry. apply members_of_group; [apply group_by_source_keys | exact Hkl].
  - rewrite group_by_source_file. unfold dict_fromkeys.
    rewrite (file_entries_keys _ [] []) by reflexivity.
    rewrite map_map. reflexivity.
  - rewrite group_by_source_file, file_entries_concat. simpl.
    rewrite map_map. simpl. rewrite map_id. reflexivity.
Qed.

(** ** Keywords and product tags *)

(** X11. [get_all_keywords] returns every keyword of every product once:
    no keyword is repeated, the keywords are exactly those of the
    products, and a configuration without repeated keywords is returned
    as it is, in configuration order. *)
Theorem get_all_keywords_distinct (products : list Product) :
  NoDup (get_all_keywords products) /\
  (forall k, In k (get_all_keywords products) <->
             exists p, In p products /\ In k (product_keywords p)) /\
  (NoDup (flat_map product_keywords products) ->
   get_all_keywords products = flat_map product_keywords products).
Proof.
  unfold get_all_keywords. split; [apply dict_fromkeys_NoDup|]. split.
  - intros k. rewrite dict_fromkeys_In, in_flat_map. reflexivity.
  - apply dict_fromkeys_id.
Qed.

Section Keywords.

Variable lib : PyLib.

(** The names of the named products, in configuration order. *)
Lemma match_from_acc (text_lower : str) (products : list Product)
  (matched : list str) :
  match_from lib text_lower products matched =
  match match_from lib text_lower products [] with
  | Some l => Some (matched ++ l)
  | None => None
  end.
Proof.
  revert matched. induction products as [|p products IH]; intros matched; simpl.
  - rewrite app_nil_r. reflexivity.
  - destruct (product_matches lib text_lower p); [|apply IH].
    destruct (product_name p) as [name|]; [|reflexivity].
    rewrite IH. rewrite (IH [name]).
    destruct (match_from lib text_lower products []) as [l|]; [|reflexivity].
    rewrite <- app_assoc. reflexivity.
Qed.

Lemma match_from_cons (text_lower : str) (p : Product)
  (products : list Product) :
  match_from lib text_lower (p :: products) [] =
  if product_matches lib text_lower p then
    match product_name p, match_from lib text_lower products [] with
    | Some name, Some l => Some (name :: l)
    | _, _ => None
    end
  else match_from lib text_lower products [].
Proof.
  simpl. destruct (product_matches lib text_lower p); [|reflexivity].
  destruct (product_name p) as [name|]; [|reflexivity].
  rewrite match_from_acc. reflexivity.
Qed.

Lemma match_from_names (text_lower : str) (products : list Product)
  (names : list str) :
  match_from lib text_lower products [] = Some names ->
  List.map product_name
           (List.filter (product_matches lib text_lower) products) =
  List.map Some names.
Proof.
  revert names. induction products as [|p products IH]; intros names.
  - simpl. intros E. injection E as <-. reflexivity.
  - rewrite match_from_cons. simpl.
    destruct (product_matches lib text_lower p); [|apply IH].
    destruct (product_name p) as [name|] eqn:N; [|discriminate].
    destruct (match_from lib text_lower products []) as [l|]; [|discriminate].
    intros E. injection E as <-. simpl. rewrite N. f_equal. apply IH. reflexivity.
Qed.

(** X12. [match_product] raises [KeyError] exactly when some product that
    matches the text has no name; otherwise it returns the names of the
    matching products, each product once, in configuration order. *)
Theorem match_product_matching_names (text : str) (products : list Product) :
  let matching :=
    List.filter (product_matches lib (lower lib text)) products in
  (match_product lib text products = None <->
   exists p, In p matching /\ product_name p = None) /\
  (forall names,
      match_product lib text products = Some names ->
      List.map product_name matching = List.map Some names).
Proof.
  cbv zeta. unfold match_product. generalize (lower lib text) as tl. intros tl.
  split; [|intros names; apply match_from_names].
  induction products as [|p products IH].
  - simpl. split; [discriminate | intros (p & [] & _)].
  - rewrite match_from_cons. simpl.
    destruct (product_matches lib tl p) eqn:M; [|exact IH].
    destruct (product_name p) as [name|] eqn:N.
    + destruct (match_from lib tl products []) as [l|] eqn:R.
      * split; [discriminate|]. intros (q & [<-|Hq] & Hn); [congruence|].
        exfalso. assert (E : Some l = None) by (apply IH; exists q; auto).
        discriminate.
      * split; [|reflexivity]. intros _.
        destruct (proj1 IH eq_refl) as (q & Hq & Hn).
        exists q. split; [right; exact Hq | exact Hn].
    + split; [|reflexivity]. intros _.
      exists p. split; [left; reflexivity | exact N].
Qed.

Lemma NoDup_map_filter {A B : Type} (f : A -> B) (p : A -> bool) (l : list A) :
  NoDup (List.map f l) -> NoDup (List.map f (List.filter p l)).
Proof.
  induction l as [|x l IH]; simpl; intros H; [constructor|].
  inversion H as [|? ? Hn Hd]; subst.
  destruct (p x); simpl; [|apply IH; exact Hd].
  constructor; [|apply IH; exact Hd].
  intros Hin. apply Hn. apply in_map_iff in Hin.
  destruct Hin as (y & Ey & Hy). apply filter_In in Hy.
  apply in_map_iff. exists y. tauto.
Qed.

Lemma existsb_dict_fromkeys (f : str -> bool) (keys : list str) :
  existsb f (dict_fromkeys keys) = existsb f keys.
Proof.
  apply eq_true_iff_eq. rewrite !existsb_exists.
  split; intros (k & Hk & E); exists k; (split; [|exact E]);
    apply dict_fromkeys_In; exact Hk.
Qed.

(** X13. The keyword filter and the tagger agree: with the keywords of
    [get_all_keywords] and products that all have a name, a text passes
    [filter_by_keywords] exactly when [match_product] finds at least one
    product for it. *)
Theorem filter_by_keywords_iff_tagged (text : str) (products : list Product) :
  Forall (fun p => product_name p <> None) products ->
  (filter_by_keywords lib (get_all_keywords products) text = true <->
   exists name rest, match_product lib text products = Some (name :: rest)).
Proof.
  intros Hnamed. unfold filter_by_keywords, get_all_keywords, match_product.
  rewrite existsb_dict_fromkeys.
  generalize (lower lib text) as tl. intros tl.
  induction Hnamed as [|p products Hp Hnamed IH].
  - simpl. split; [discriminate | intros (? & ? & E); discriminate].
  - simpl flat_map. rewrite existsb_app, match_from_cons.
    fold (product_matches lib tl p).
    destruct (product_name p) as [name|] eqn:N; [|congruence].
    destruct (product_matches lib tl p) eqn:M; simpl.
    + split; [intros _ | reflexivity].
      assert (R : match_from lib tl products [] <> None).
      { clear - Hnamed. induction Hnamed as [|q products Hq _ IHq];
          [discriminate|].
        rewrite match_from_cons. destruct (product_matches lib tl q); [|exact IHq].
        destruct (product_name q); [|congruence].
        destruct (match_from lib tl products []); [discriminate|congruence]. }
      destruct (match_from lib tl products []) as [l|]; [|congruence].
      exists name, l. reflexivity.
    + exact IH.
Qed.

(** X14. [tag_products] touches one field of one object: every other
    object is as before, the item keeps all its fields but [tags], and its
    new tags are names of products that match its title and content, none
    twice when the product names are distinct. *)
Theorem tag_products_frame (products : list Product) (h h' : heap)
  (item : ref) :
  tag_products lib products h item = Some h' ->
  (forall r, r <> item -> h' r = h r) /\
  same_but_tags (h item) (h' item) /\
  (forall t, In t (tags (h' item)) ->
     exists p, In p products /\ product_name p = Some t /\
               product_matches lib
                 (lower lib (title (h item) ++ [SPACE] ++ content (h item))) p
               = true) /\
  (NoDup (List.map product_name products) -> NoDup (tags (h' item))).
Proof.
  unfold tag_products.
  set (text := title (h item) ++ [SPACE] ++ content (h item)).
  destruct (match_product lib text products) as [matched|] eqn:E; [|discriminate].
  intros H. injection H as <-.
  apply match_from_names in E.
  split; [|split; [|split]].
  - intros r Hr. unfold heap_set_tags.
    apply Nat.eqb_neq in Hr. rewrite Hr. reflexivity.
  - unfold heap_set_tags. rewrite Nat.eqb_refl. apply same_but_tags_with_tags.
  - unfold heap_set_tags. rewrite Nat.eqb_refl. simpl. intros t Ht.
    apply (in_map Some) in Ht. rewrite <- E in Ht. apply in_map_iff in Ht.
    destruct Ht as (p & Hp & Hin). apply filter_In in Hin.
    exists p. tauto.
  - unfold heap_set_tags. rewrite Nat.eqb_refl. simpl. intros Hnd.
    apply (NoDup_map_inv Some). rewrite <- E.
    apply NoDup_map_filter. exact Hnd.
Qed.

End Keywords.

(** ** Post-processing of a collector *)

Lemma seen_fold_invariant (h : heap) (items : list ref)
  (seen : list str) (unique : list ref) :
  (forall u, In u seen <-> In u (List.map (fun r => url (h r)) unique)) ->
  NoDup (List.map (fun r => url (h r)) unique) ->
  let st := fold_left (seen_step h) items (seen, unique) in
  (forall u, In u (fst st) <-> In u (List.map (fun r => url (h r)) (snd st))) /\
  NoDup (List.map (fun r => url (h r)) (snd st)) /\
  incl unique (snd st) /\
  incl (snd st) (unique ++ items) /\
  (forall u, In u (fst st) ->
             In u seen \/ In u (List.map (fun r => url (h r)) items)).
Proof.
  cbv zeta. revert seen unique.
  induction items as [|item items IH]; intros seen unique Hseen Hnd.
  - simpl. split; [exact Hseen|]. split; [exact Hnd|].
    split; [apply incl_refl|]. split; [rewrite app_nil_r; apply incl_refl|].
    intros u Hu. left. exact Hu.
  - simpl. destruct (str_in (url (h item)) seen) eqn:E.
    + destruct (IH seen unique Hseen Hnd) as (H1 & H2 & H3 & H4 & H5).
      split; [exact H1|]. split; [exact H2|]. split; [exact H3|]. split.
      * intros z Hz. apply H4 in Hz. apply in_app_or in Hz.
        apply in_or_app. simpl. tauto.
      * intros u Hu. apply H5 in Hu. simpl. tauto.
    + apply str_in_not_In in E.
      destruct (IH (url (h item) :: seen) (unique ++ [item]))
        as (H1 & H2 & H3 & H4 & H5).
      * intros u. rewrite map_app, in_app_iff. simpl. rewrite Hseen. tauto.
      * rewrite map_app. simpl. apply NoDup_app; [exact Hnd | |].
        -- constructor; [intros [] | constructor].
        -- intros u Hu [<-|[]]. apply E, Hseen, Hu.
      * split; [exact H1|]. split; [exact H2|]. split.
        -- intros z Hz. apply H3, in_or_app. left. exact Hz.
        -- split.
           ++ intros z Hz. apply H4 in Hz. rewrite <- app_assoc in Hz. exact Hz.
           ++ intros u Hu. apply H5 in Hu. simpl in *. tauto.
Qed.

Lemma NoDup_map_firstn {A B : Type} (f : A -> B) (n : nat) (l : list A) :
  NoDup (List.map f l) -> NoDup (List.map f (firstn n l)).
Proof.
  intros H. rewrite <- (firstn_skipn n l), map_app in H.
  apply NoDup_app_remove_r in H. exact H.
Qed.

(** X15. A collector's [_deduplicate_and_sort] returns input items with
    pairwise different URLs, ranked by score and, for a limit that is not
    negative, at most [max_items] of them; the item kept for a URL is the
    first one that carries it, which is returned whenever the limit is not
    below the number of items. *)
Theorem _deduplicate_and_sort_first_seen (h : heap) (max_items : Z)
  (items : list ref) :
  let out := _deduplicate_and_sort h max_items items in
  incl out items /\
  NoDup (List.map (fun r => url (h r)) out) /\
  StronglySorted (ranked_before (score h)) out /\
  ((0 <= max_items)%Z -> length out <= Z.to_nat max_items) /\
  ((Z.of_nat (length items) <= max_items)%Z ->
   forall pre x post,
     items = pre ++ x :: post ->
     ~ In (url (h x)) (List.map (fun r => url (h r)) pre) ->
     In x out).
Proof.
  cbv zeta. unfold _deduplicate_and_sort.
  assert (Hnil : forall u, In u (@nil str) <->
                           In u (List.map (fun r => url (h r)) (@nil ref)))
    by (intros u; simpl; tauto).
  assert (Hnd0 : NoDup (List.map (fun r => url (h r)) (@nil ref)))
    by constructor.
  destruct (seen_fold_invariant h items [] [] Hnil Hnd0)
    as (_ & Hnd & _ & Hincl & _).
  set (unique := snd (fold_left (seen_step h) items ([], []))) in *.
  assert (Hperm : Permutation unique (sort_by_engagement h unique))
    by apply sorted_desc_perm.
  destruct (slice_to_firstn max_items (sort_by_engagement h unique)) as [m Em].
  split; [|split; [|split; [|split]]].
  - rewrite Em. intros z Hz. apply Hincl.
    apply (Permutation_in _ (Permutation_sym Hperm)).
    rewrite <- (firstn_skipn m _). apply in_or_app. left. exact Hz.
  - rewrite Em. apply NoDup_map_firstn.
    eapply Permutation_NoDup; [|exact Hnd]. apply Permutation_map. exact Hperm.
  - rewrite Em. apply StronglySorted_firstn, sorted_desc_sorted.
  - intros Hmax. unfold slice_to.
    destruct (max_items <? 0)%Z eqn:E; [apply Z.ltb_lt in E; lia|].
    apply firstn_le_length.
  - intros Hmax pre x post Eitems Hfirst.
    assert (Hx : In x unique).
    { unfold unique. rewrite Eitems, fold_left_app. simpl.
      destruct (seen_fold_invariant h pre [] [] Hnil Hnd0)
        as (Hs1 & Hn1 & _ & _ & Hu1).
      destruct (fold_left (seen_step h) pre ([], [])) as [seen1 unique1].
      simpl in Hs1, Hn1, Hu1. simpl.
      destruct (str_in (url (h x)) seen1) eqn:E.
      - exfalso. apply str_in_In in E. apply Hu1 in E.
        destruct E as [[]|E]. exact (Hfirst E).
      - assert (Hs2 : forall u, In u (url (h x) :: seen1) <->
                  In u (List.map (fun r => url (h r)) (unique1 ++ [x]))).
        { intros u. rewrite map_app, in_app_iff. simpl. rewrite Hs1. tauto. }
        assert (Hn2 : NoDup (List.map (fun r => url (h r)) (unique1 ++ [x]))).
        { rewrite map_app. simpl. apply NoDup_app; [exact Hn1 | |].
          - constructor; [intros [] | constructor].
          - intros u Hu [<-|[]]. apply str_in_not_In in E.
            apply E, Hs1, Hu. }
        destruct (seen_fold_invariant h post _ _ Hs2 Hn2) as (_ & _ & Hk & _).
        apply Hk, in_or_app. right. left. reflexivity. }
    unfold slice_to.
    destruct (max_items <? 0)%Z eqn:E; [apply Z.ltb_lt in E; lia|].
    rewrite firstn_all2.
    + apply (Permutation_in _ Hperm). exact Hx.
    + rewrite <- (Permutation_length Hperm).
      assert (Hlen : length unique <= length items).
      { apply NoDup_incl_length; [|exact Hincl].
        eapply NoDup_map_inv. exact Hnd. }
      lia.
Qed.

(** ** Batches of the summarizer *)

Lemma batches_from_concat {A : Type} (items : list A) (size fuel i : nat) :
  1 <= size -> length items - i <= fuel ->
  concat (batches_from fuel i size items) = skipn i items.
Proof.
  intros Hsize. revert i. induction fuel as [|fuel IH]; intros i Hfuel; simpl.
  - symmetry. apply skipn_all2. lia.
  - destruct (i <? length items) eqn:E.
    + apply Nat.ltb_lt in E. simpl. rewrite IH by lia.
      rewrite (Nat.add_comm i size), <- (skipn_skipn size i items).
      apply firstn_skipn.
    + apply Nat.ltb_ge in E. symmetry. apply skipn_all2. exact E.
Qed.

Lemma batches_from_sizes {A : Type} (items : list A) (size fuel i : nat) :
  1 <= size ->
  Forall (fun b => b <> [] /\ length b <= size)
         (batches_from fuel i size items).
Proof.
  intros Hsize. revert i. induction fuel as [|fuel IH]; intros i; simpl.
  - constructor.
  - destruct (i <? length items) eqn:E; [|constructor].
    apply Nat.ltb_lt in E. constructor; [|apply IH]. split.
    + intros Hnil. apply (f_equal (@length A)) in Hnil.
      rewrite length_firstn, length_skipn in Hnil. simpl in Hnil. lia.
    + apply firstn_le_length.
Qed.

(** X16. The summarizer's batches cut the list without loss: put end to
    end they are the list of items, so every item is in exactly one batch,
    and every batch has at least one and at most ten items. *)
Theorem batches_cover {A : Type} (items : list A) :
  concat (batches items) = items /\
  Forall (fun b => b <> [] /\ length b <= 10) (batches items).
Proof.
  unfold batches, batch_size. split.
  - rewrite batches_from_concat by lia. reflexivity.
  - apply batches_from_sizes. lia.
Qed.

(** ** Truncation in the report *)

(** X17. For a length that is not negative, [_truncate] returns at most
    three characters more than the length, the result begins like the
    text, and truncating a truncated text again changes nothing. *)
Theorem _truncate_bounded (text : str) (length : Z) :
  (0 <= length)%Z ->
  List.length (_truncate text length) <= Z.to_nat length + 3 /\
  firstn (Z.to_nat length) (_truncate text length) =
    firstn (Z.to_nat length) text /\
  _truncate (_truncate text length) length = _truncate text length.
Proof.
  intros Hlen.
  destruct (Z.of_nat (List.length text) <=? length)%Z eqn:E.
  - assert (T : _truncate text length = text)
      by (unfold _truncate; rewrite E; reflexivity).
    rewrite !T. apply Z.leb_le in E. split; [lia|]. split; reflexivity.
  - assert (N : (length <? 0)%Z = false) by (apply Z.ltb_ge; exact Hlen).
    assert (T : _truncate text length =
                firstn (Z.to_nat length) text ++ py "...")
      by (unfold _truncate, slice_to; rewrite E, N; reflexivity).
    rewrite !T. apply Z.leb_gt in E.
    assert (Hn : List.length (firstn (Z.to_nat length) text) = Z.to_nat length).
    { rewrite length_firstn. lia. }
    assert (Hfirst : firstn (Z.to_nat length)
                       (firstn (Z.to_nat length) text ++ py "...") =
                     firstn (Z.to_nat length) text).
    { rewrite firstn_app, Hn, Nat.sub_diag. simpl. rewrite app_nil_r.
      rewrite firstn_firstn, Nat.min_id. reflexivity. }
    split; [|split].
    + rewrite length_app, Hn. simpl. lia.
    + exact Hfirst.
    + unfold _truncate, slice_to. rewrite N.
      assert (G : (Z.of_nat (List.length (firstn (Z.to_nat length) text
                                             ++ py "...")) <=? length)%Z = false).
      { apply Z.leb_gt. rewrite length_app, Hn. simpl. lia. }
      rewrite G, Hfirst. reflexivity.
Qed.

(** ** Normalized titles *)

Section Titles.

Variable lib : PyLib.

Lemma is_space_SPACE : is_space lib SPACE = true.
Proof. reflexivity. Qed.

Lemma drop_while_Forall (P : char -> Prop) (p : char -> bool) (s : str) :
  Forall P s -> Forall P (drop_while p s).
Proof.
  induction 1 as [|c s Hc Hs IH]; simpl; [constructor|].
  destruct (p c); [exact IH | constructor; assumption].
Qed.

Lemma rstrip_by_Forall (P : char -> Prop) (p : char -> bool) (s : str) :
  Forall P s -> Forall P (rstrip_by p s).
Proof.
  induction 1 as [|c s Hc Hs IH]; simpl; [constructor|].
  destruct (rstrip_by p s) as [|r rs].
  - destruct (p c); constructor; [assumption | constructor].
  - constructor; assumption.
Qed.

Lemma collapse_spaces_Forall (P : char -> Prop) (in_run : bool) (s : str) :
  Forall P s ->
  Forall (fun c => c = SPACE \/ (is_space lib c = false /\ P c))
         (collapse_spaces lib in_run s).
Proof.
  intros H. revert in_run. induction H as [|c s Hc Hs IH]; intros in_run; simpl;
    [constructor|].
  destruct (is_space lib c) eqn:E.
  - destruct in_run; [apply IH|]. constructor; [left; reflexivity | apply IH].
  - constructor; [right; split; assumption | apply IH].
Qed.

Lemma collapse_spaces_single (in_run : bool) (s : str) :
  (in_run = true -> forall post, collapse_spaces lib in_run s <> SPACE :: post) /\
  (forall pre post,
      collapse_spaces lib in_run s <> pre ++ SPACE :: SPACE :: post).
Proof.
  revert in_run. induction s as [|c s IH]; intros in_run; simpl.
  - split; [discriminate|]. intros [|? ?] post; discriminate.
  - destruct (is_space lib c) eqn:E.
    + destruct in_run.
      * apply IH.
      * split; [discriminate|]. intros [|p pre] post H.
        -- simpl in H. injection H as H.
           exact (proj1 (IH true) eq_refl _ H).
        -- simpl in H. injection H as _ H. exact (proj2 (IH true) _ _ H).
    + split.
      * intros _ post H. injection H as -> _.
        rewrite is_space_SPACE in E. discriminate.
      * intros [|p pre] post H.
        -- simpl in H. injection H as -> _.
           rewrite is_space_SPACE in E. discriminate.
        -- simpl in H. injection H as _ H. exact (proj2 (IH false) _ _ H).
Qed.

Lemma ascii_lower_ascii (c : char) :
  is_ascii c = true ->
  is_ascii (ascii_lower c) = true /\ between 65%N 90%N (ascii_lower c) = false.
Proof.
  unfold is_ascii, ascii_lower, between. intros H. apply N.ltb_lt in H.
  destruct (65 <=? c)%N eqn:E1, (c <=? 90)%N eqn:E2; simpl;
    rewrite ?E1, ?E2; simpl;
    repeat match goal with
           | H : (_ <=? _)%N = true |- _ => apply N.leb_le in H
           | H : (_ <=? _)%N = false |- _ => apply N.leb_gt in H
           end;
    (split; [apply N.ltb_lt; lia|]); try reflexivity.
  apply andb_false_iff. right. apply N.leb_gt. lia.
Qed.

(** X18. A normalized title consists of single spaces and of characters
    that are not whitespace and are word characters or CJK ideographs: no
    two spaces are adjacent; and the normalized form of an ASCII title
    holds only lower-case letters, digits, underscores and spaces. *)
Theorem _normalize_title_shape (title : str) :
  let out := _normalize_title lib title in
  Forall (fun c => c = SPACE \/
                   (is_space lib c = false /\
                    (is_word lib c = true \/ is_cjk c = true))) out /\
  (forall pre post, out <> pre ++ SPACE :: SPACE :: post) /\
  (forallb is_ascii title = true ->
   Forall (fun c => c = SPACE \/ c = UNDERSCORE \/
                    between 48%N 57%N c = true \/
                    between 97%N 122%N c = true) out).
Proof.
  cbv zeta. unfold _normalize_title. split; [|split].
  - eapply Forall_impl;
      [|apply collapse_spaces_Forall
          with (P := fun c => is_word lib c || is_space lib c || is_cjk c = true)].
    + intros c [H|[Hs H]]; [left; exact H|]. right. split; [exact Hs|].
      rewrite Hs, orb_false_r in H. apply orb_true_iff in H. exact H.
    + apply Forall_forall. intros c Hc. apply filter_In in Hc. apply Hc.
  - apply collapse_spaces_single.
  - intros Hascii. unfold lower. rewrite Hascii.
    set (keep := fun c => is_word lib c || is_space lib c || is_cjk c).
    set (Q := fun c => is_ascii c = true /\ between 65%N 90%N c = false).
    assert (HQ : Forall Q (List.filter keep
                             (strip lib (List.map ascii_lower title)))).
    { apply Forall_forall. intros c Hc. apply filter_In in Hc.
      destruct Hc as [Hc _]. revert c Hc. apply Forall_forall.
      unfold strip. apply rstrip_by_Forall, drop_while_Forall.
      apply Forall_forall. intros c Hc. apply in_map_iff in Hc.
      destruct Hc as (c0 & <- & Hc0). apply ascii_lower_ascii.
      rewrite forallb_forall in Hascii. apply Hascii. exact Hc0. }
    assert (HK : Forall (fun c => keep c = true /\ Q c)
                   (List.filter keep (strip lib (List.map ascii_lower title)))).
    { rewrite Forall_forall in HQ |- *. intros c Hc. split; [|apply HQ; exact Hc].
      apply filter_In in Hc. apply Hc. }
    eapply Forall_impl; [|apply collapse_spaces_Forall; exact HK].
    intros c [H|[Hs [Hk [Ha Hu]]]]; [left; exact H|]. right.
    unfold keep in Hk. rewrite Hs, orb_false_r in Hk.
    assert (Hcjk : is_cjk c = false).
    { unfold is_cjk, between. unfold is_ascii in Ha. apply N.ltb_lt in Ha.
      apply andb_false_iff. left. apply N.leb_gt. lia. }
    rewrite Hcjk, orb_false_r in Hk. unfold is_word in Hk. rewrite Ha in Hk.
    apply orb_true_iff in Hk. destruct Hk as [Hk|Hk].
    + unfold ascii_isalnum in Hk. rewrite Hu, orb_false_r in Hk.
      apply orb_true_iff in Hk. tauto.
    + left. apply N.eqb_eq. exact Hk.
Qed.

End Titles.

(** ** Normalized URLs *)

Lemma strip_prefix_Some (p s r : str) :
  strip_prefix p s = Some r <-> s = p ++ r.
Proof.
  revert s. induction p as [|x p IH]; intros s; simpl.
  - split; [intros E; injection E as ->; reflexivity | intros ->; reflexivity].
  - destruct s as [|y s]; [split; discriminate|].
    destruct (N.eqb x y) eqn:E.
    + apply N.eqb_eq in E. subst y. rewrite IH.
      split; [intros ->; reflexivity | intros H; injection H as ->; reflexivity].
    + apply N.eqb_neq in E. split; [discriminate|].
      intros H. injection H as H _. congruence.
Qed.

(** A prefix is not affected by text added behind a character that the
    prefix does not contain. *)
Lemma strip_prefix_app (p a b : str) (sep : char) :
  ~ In sep p ->
  strip_prefix p (a ++ sep :: b) =
  match strip_prefix p a with Some r => Some (r ++ sep :: b) | None => None end.
Proof.
  revert a. induction p as [|x p IH]; intros a Hsep; simpl; [reflexivity|].
  destruct a as [|y a]; simpl.
  - destruct (N.eqb x sep) eqn:E; [|reflexivity].
    apply N.eqb_eq in E. exfalso. apply Hsep. left. exact E.
  - destruct (N.eqb x y); [|reflexivity].
    apply IH. intros H. apply Hsep. right. exact H.
Qed.

Lemma span_app (p : char -> bool) (s : str) :
  s = fst (span p s) ++ snd (span p s).
Proof.
  induction s as [|c s IH]; simpl; [reflexivity|].
  destruct (p c); [|reflexivity].
  destruct (span p s) as [a b]. simpl in *. rewrite <- IH. reflexivity.
Qed.

Lemma span_fst_Forall (p : char -> bool) (s : str) :
  Forall (fun c => p c = true) (fst (span p s)).
Proof.
  induction s as [|c s IH]; simpl; [constructor|].
  destruct (p c) eqn:E; [|constructor].
  destruct (span p s) as [a b]. simpl in *. constructor; assumption.
Qed.

(** A run stops at a character outside the class, whatever follows. *)
Lemma span_app_stop (p : char -> bool) (a b : str) (sep : char) :
  p sep = false ->
  span p (a ++ sep :: b) = (fst (span p a), snd (span p a) ++ sep :: b).
Proof.
  intros Hsep. induction a as [|c a IH]; simpl.
  - rewrite Hsep. reflexivity.
  - destruct (p c); [|reflexivity].
    rewrite IH. destruct (span p a) as [x y]. reflexivity.
Qed.

(** A run goes through text of the class that is added at its end. *)
Lemma span_app_through (p : char -> bool) (a b : str) :
  snd (span p a) = [] -> forallb p b = true ->
  span p (a ++ b) = (a ++ b, []).
Proof.
  intros Ha Hb.
  assert (Hall : forall s, forallb p s = true -> span p s = (s, [])).
  { intros s. induction s as [|c s IH]; simpl; [reflexivity|].
    intros H. apply andb_true_iff in H. destruct H as [Hc Hs].
    rewrite Hc, (IH Hs). reflexivity. }
  apply Hall. rewrite forallb_app, Hb, andb_true_r.
  apply forallb_forall. intros c Hc.
  assert (E := span_app p a). rewrite Ha, app_nil_r in E.
  assert (F := span_fst_Forall p a). rewrite <- E in F.
  rewrite Forall_forall in F. apply F, Hc.
Qed.

Lemma replace_from_skip (old new : str) (k : nat) (s : str) :
  replace_from old new k s = replace_from old new 0 (skipn k s).
Proof.
  revert k. induction s as [|c s IH]; intros [|k]; try reflexivity.
  simpl replace_from at 1. rewrite IH. reflexivity.
Qed.

(** [replace], one step at a time. *)
Lemma replace_cons (old new : str) (c : char) (s : str) :
  old <> [] ->
  replace old new (c :: s) =
  match strip_prefix old (c :: s) with
  | Some r => new ++ replace old new r
  | None => c :: replace old new s
  end.
Proof.
  intros Hold. unfold replace. simpl replace_from at 1.
  destruct (strip_prefix old (c :: s)) as [r|] eqn:E; [|reflexivity].
  rewrite replace_from_skip. f_equal. f_equal.
  apply strip_prefix_Some in E. destruct old as [|x old]; [congruence|].
  injection E as _ ->. simpl. rewrite Nat.sub_0_r.
  rewrite skipn_app, skipn_all, Nat.sub_diag. reflexivity.
Qed.

Section Urls.

Variable lib : PyLib.

Local Abbreviation not_amp := (fun x : char => negb (N.eqb x AMPERSAND)).

Lemma sub_tracking_skip (k : nat) (s : str) :
  sub_tracking lib k s = sub_tracking lib 0 (skipn k s).
Proof.
  revert k. induction s as [|c s IH]; intros [|k]; try reflexivity.
  simpl sub_tracking at 1. rewrite IH. reflexivity.
Qed.

(** What a match leaves is a proper suffix of the text. *)
Lemma match_tracking_suffix (c : char) (s r : str) :
  match_tracking lib (c :: s) = Some r -> exists m, s = m ++ r.
Proof.
  unfold match_tracking.
  destruct (N.eqb c QUESTION || N.eqb c AMPERSAND); [|discriminate].
  destruct (match_tracking_key lib s) as [r0|] eqn:K; [|discriminate].
  intros E. injection E as <-.
  assert (Hk : exists k, s = k ++ r0).
  { unfold match_tracking_key, orelse, match_utm in K.
    destruct (strip_prefix (py "utm_") s) as [r1|] eqn:U.
    - apply strip_prefix_Some in U.
      destruct (span (is_word lib) r1) as [w r2] eqn:W.
      assert (Hw := span_app (is_word lib) r1). rewrite W in Hw. simpl in Hw.
      destruct w as [|w0 w].
      + simpl in Hw. subst r2.
        repeat match type of K with
               | match strip_prefix ?p ?x with _ => _ end = _ =>
                   let P := fresh "P" in
                   destruct (strip_prefix p x) as [?|] eqn:P;
                   [apply strip_prefix_Some in P; injection K as <-;
                    eexists; exact P|]
               end.
        apply strip_prefix_Some in K. eexists. exact K.
      + destruct (strip_prefix (py "=") r2) as [r3|] eqn:Q.
        * injection K as <-. apply strip_prefix_Some in Q.
          exists (py "utm_" ++ (w0 :: w) ++ py "=").
          rewrite U, Hw, Q, <- !app_assoc. reflexivity.
        * repeat match type of K with
                 | match strip_prefix ?p ?x with _ => _ end = _ =>
                     let P := fresh "P" in
                     destruct (strip_prefix p x) as [?|] eqn:P;
                     [apply strip_prefix_Some in P; injection K as <-;
                      eexists; exact P|]
                 end.
          apply strip_prefix_Some in K. eexists. exact K.
    - repeat match type of K with
             | match strip_prefix ?p ?x with _ => _ end = _ =>
                 let P := fresh "P" in
                 destruct (strip_prefix p x) as [?|] eqn:P;
                 [apply strip_prefix_Some in P; injection K as <-;
                  eexists; exact P|]
             end.
      apply strip_prefix_Some in K. eexists. exact K. }
  destruct Hk as [k ->].
  exists (k ++ fst (span not_amp r0)).
  rewrite <- app_assoc. f_equal. apply span_app.
Qed.

(** [re.sub], one step at a time: at a match the scan goes on with what
    the match leaves, otherwise the character is copied. *)
Lemma sub_tracking_cons (c : char) (s : str) :
  sub_tracking lib 0 (c :: s) =
  match match_tracking lib (c :: s) with
  | Some r => sub_tracking lib 0 r
  | None => c :: sub_tracking lib 0 s
  end.
Proof.
  change (sub_tracking lib 0 (c :: s)) with
    (match match_tracking lib (c :: s) with
     | Some r => sub_tracking lib (length s - length r) s
     | None => c :: sub_tracking lib 0 s
     end).
  destruct (match_tracking lib (c :: s)) as [r|] eqn:E; [|reflexivity].
  rewrite sub_tracking_skip. f_equal.
  apply match_tracking_suffix in E. destruct E as [m ->].
  rewrite length_app, Nat.add_sub.
  rewrite skipn_app, skipn_all, Nat.sub_diag. reflexivity.
Qed.

Lemma literal_without (p : str) (sep : char) :
  is_word lib sep = false -> sep <> 61%N ->
  Forall (fun c => is_word lib c = true \/ c = 61%N) p -> ~ In sep p.
Proof.
  intros Hw He Hp Hin. rewrite Forall_forall in Hp.
  destruct (Hp _ Hin) as [H|H]; congruence.
Qed.

Ltac literal_key :=
  apply literal_without; [assumption | assumption |];
  repeat constructor; solve [left; reflexivity | right; reflexivity].

(** A key match is decided before a character that can be in no key:
    text behind such a character neither makes nor breaks the match. *)
Lemma match_tracking_key_app (a b : str) (sep : char) :
  is_word lib sep = false -> sep <> 61%N ->
  match_tracking_key lib (a ++ sep :: b) =
  match match_tracking_key lib a with
  | Some r => Some (r ++ sep :: b)
  | None => None
  end.
Proof.
  intros Hw He. unfold match_tracking_key, match_utm.
  rewrite (strip_prefix_app (py "utm_")) by literal_key.
  rewrite (strip_prefix_app (py "ref=")) by literal_key.
  rewrite (strip_prefix_app (py "source=")) by literal_key.
  rewrite (strip_prefix_app (py "fbclid=")) by literal_key.
  rewrite (strip_prefix_app (py "gclid=")) by literal_key.
  assert (Hrest :
    orelse (match strip_prefix (py "ref=") a with
            | Some r => Some (r ++ sep :: b) | None => None end)
      (orelse (match strip_prefix (py "source=") a with
               | Some r => Some (r ++ sep :: b) | None => None end)
         (orelse (match strip_prefix (py "fbclid=") a with
                  | Some r => Some (r ++ sep :: b) | None => None end)
                 (match strip_prefix (py "gclid=") a with
                  | Some r => Some (r ++ sep :: b) | None => None end))) =
    match orelse (strip_prefix (py "ref=") a)
            (orelse (strip_prefix (py "source=") a)
               (orelse (strip_prefix (py "fbclid=") a)
                       (strip_prefix (py "gclid=") a))) with
    | Some r => Some (r ++ sep :: b) | None => None end).
  { destruct (strip_prefix (py "ref=") a); [reflexivity|].
    destruct (strip_prefix (py "source=") a); [reflexivity|].
    destruct (strip_prefix (py "fbclid=") a); reflexivity. }
  destruct (strip_prefix (py "utm_") a) as [r1|]; [|exact Hrest].
  rewrite span_app_stop by exact Hw.
  destruct (span (is_word lib) r1) as [w r2]. simpl fst. simpl snd.
  destruct w as [|w0 w]; [exact Hrest|].
  rewrite (strip_prefix_app (py "=")) by literal_key.
  destruct (strip_prefix (py "=") r2); [reflexivity | exact Hrest].
Qed.

Lemma span_app_cases (p : char -> bool) (a x : str) :
  span p (a ++ x) =
  match snd (span p a) with
  | [] => (a ++ fst (span p x), snd (span p x))
  | _ :: _ => (fst (span p a), snd (span p a) ++ x)
  end.
Proof.
  induction a as [|c a IH]; simpl.
  - destruct (span p x); reflexivity.
  - destruct (p c); [|reflexivity].
    rewrite IH. destruct (span p a) as [u v]. simpl.
    destruct v; reflexivity.
Qed.

Lemma match_tracking_app (c : char) (a b : str) (sep : char) :
  is_word lib sep = false -> sep <> 61%N ->
  match_tracking lib (c :: a ++ sep :: b) =
  match match_tracking lib (c :: a) with
  | Some [] => Some (snd (span not_amp (sep :: b)))
  | Some (x :: r) => Some ((x :: r) ++ sep :: b)
  | None => None
  end.
Proof.
  intros Hw He. unfold match_tracking.
  destruct (N.eqb c QUESTION || N.eqb c AMPERSAND); [|reflexivity].
  rewrite match_tracking_key_app by assumption.
  destruct (match_tracking_key lib a) as [r0|]; [|reflexivity].
  rewrite span_app_cases.
  destruct (snd (span not_amp r0)); reflexivity.
Qed.

(** Text added behind a character that can be in no key: the substitution
    treats it on its own, or, when a match of the text before reaches the
    end, from its first ampersand on. *)
Lemma sub_tracking_app (sep : char) (b : str) :
  is_word lib sep = false -> sep <> 61%N ->
  forall u,
    sub_tracking lib 0 (u ++ sep :: b) =
      sub_tracking lib 0 u ++ sub_tracking lib 0 (sep :: b) \/
    sub_tracking lib 0 (u ++ sep :: b) =
      sub_tracking lib 0 u ++
      sub_tracking lib 0 (snd (span not_amp (sep :: b))).
Proof.
  intros Hw He u.
  remember (length u) as n eqn:Hn. revert u Hn.
  induction n as [n IH] using lt_wf_ind. intros u Hn.
  destruct u as [|c a]; [left; reflexivity|].
  change ((c :: a) ++ sep :: b) with (c :: a ++ sep :: b).
  rewrite (sub_tracking_cons c (a ++ sep :: b)), (sub_tracking_cons c a).
  rewrite match_tracking_app by assumption.
  destruct (match_tracking lib (c :: a)) as [[|x r]|] eqn:M.
  - right. reflexivity.
  - apply match_tracking_suffix in M. destruct M as [m Ea].
    apply (IH (length (x :: r))); [|reflexivity].
    subst n. rewrite Ea. simpl. rewrite length_app. simpl. lia.
  - destruct (IH (length a)) with (u := a) as [E|E];
      [subst n; simpl; lia | reflexivity | |]; rewrite E; [left|right];
      reflexivity.
Qed.

(** The text of a matched key: word characters and the equals sign. *)
Lemma match_tracking_key_prefix (s r0 : str) :
  match_tracking_key lib s = Some r0 ->
  exists k, s = k ++ r0 /\
            Forall (fun c => is_word lib c = true \/ c = 61%N) k.
Proof.
  intros K.
  assert (Hlit : forall p,
    Forall (fun c => is_word lib c = true \/ c = 61%N) p ->
    strip_prefix p s = Some r0 ->
    exists k, s = k ++ r0 /\
              Forall (fun c => is_word lib c = true \/ c = 61%N) k).
  { intros p Hp E. apply strip_prefix_Some in E. exists p. split; assumption. }
  assert (Hrest :
    orelse (strip_prefix (py "ref=") s)
      (orelse (strip_prefix (py "source=") s)
         (orelse (strip_prefix (py "fbclid=") s)
                 (strip_prefix (py "gclid=") s))) = Some r0 ->
    exists k, s = k ++ r0 /\
              Forall (fun c => is_word lib c = true \/ c = 61%N) k).
  { unfold orelse.
    destruct (strip_prefix (py "ref=") s) eqn:P1;
      [intros E; rewrite E in P1; apply (Hlit (py "ref=")); [|exact P1];
       repeat constructor; solve [left; reflexivity | right; reflexivity]|].
    destruct (strip_prefix (py "source=") s) eqn:P2;
      [intros E; rewrite E in P2; apply (Hlit (py "source=")); [|exact P2];
       repeat constructor; solve [left; reflexivity | right; reflexivity]|].
    destruct (strip_prefix (py "fbclid=") s) eqn:P3;
      [intros E; rewrite E in P3; apply (Hlit (py "fbclid=")); [|exact P3];
       repeat constructor; solve [left; reflexivity | right; reflexivity]|].
    intros E. apply (Hlit (py "gclid=")); [|exact E].
    repeat constructor; solve [left; reflexivity | right; reflexivity]. }
  unfold match_tracking_key, match_utm in K.
  destruct (strip_prefix (py "utm_") s) as [r1|] eqn:U; [|exact (Hrest K)].
  destruct (span (is_word lib) r1) as [w r2] eqn:W.
  destruct w as [|w0 w]; [exact (Hrest K)|].
  destruct (strip_prefix (py "=") r2) as [r3|] eqn:Q; [|exact (Hrest K)].
  simpl in K. injection K as <-.
  apply strip_prefix_Some in U, Q.
  assert (Hw := span_app (is_word lib) r1).
  assert (Fw := span_fst_Forall (is_word lib) r1).
  rewrite W in Hw, Fw. simpl in Hw, Fw.
  exists (py "utm_" ++ (w0 :: w) ++ py "="). split.
  - rewrite U, Hw, Q, <- !app_assoc. reflexivity.
  - apply Forall_app. split;
      [repeat constructor; solve [left; reflexivity | right; reflexivity]|].
    apply Forall_app. split.
    + eapply Forall_impl; [|exact Fw]. intros c Hc. left. exact Hc.
    + repeat constructor; solve [left; reflexivity | right; reflexivity].
Qed.

Lemma span_all (p : char -> bool) (s : str) :
  forallb p s = true -> span p s = (s, []).
Proof.
  induction s as [|c s IH]; simpl; [reflexivity|].
  intros H. apply andb_true_iff in H. destruct H as [Hc Hs].
  rewrite Hc, (IH Hs). reflexivity.
Qed.

(** A text that is one tracking parameter, from its separator to its end:
    the substitution leaves nothing of it, nor of what a value that runs
    into it leaves over. *)
Lemma tracking_parameter_vanishes (t : str) :
  match_tracking lib t = Some [] ->
  exists sep b,
    t = sep :: b /\ is_word lib sep = false /\ sep <> 61%N /\
    sub_tracking lib 0 t = [] /\
    sub_tracking lib 0 (snd (span not_amp t)) = [].
Proof.
  intros M. destruct t as [|sep b]; [discriminate|].
  assert (Hsub : sub_tracking lib 0 (sep :: b) = [])
    by (rewrite sub_tracking_cons, M; reflexivity).
  exists sep, b. split; [reflexivity|].
  unfold match_tracking in M.
  destruct (N.eqb sep QUESTION) eqn:Eq.
  - apply N.eqb_eq in Eq. subst sep. simpl in M.
    split; [reflexivity|]. split; [discriminate|]. split; [exact Hsub|].
    destruct (match_tracking_key lib b) as [r0|] eqn:K; [|discriminate].
    injection M as M.
    destruct (match_tracking_key_prefix b K) as (k & Eb & Fk).
    assert (Hall : forallb not_amp b = true).
    { rewrite Eb, forallb_app. apply andb_true_iff. split.
      - apply forallb_forall. intros c Hc. rewrite Forall_forall in Fk.
        destruct (Fk c Hc) as [H|H].
        + destruct (N.eqb c AMPERSAND) eqn:E; [|reflexivity].
          apply N.eqb_eq in E. subst c. discriminate H.
        + subst c. reflexivity.
      - assert (Hs := span_app not_amp r0). rewrite M, app_nil_r in Hs.
        assert (Fs := span_fst_Forall not_amp r0). rewrite <- Hs in Fs.
        apply forallb_forall. rewrite Forall_forall in Fs. exact Fs. }
    simpl span. rewrite (span_all not_amp b Hall). reflexivity.
  - destruct (N.eqb sep AMPERSAND) eqn:Ea; [|discriminate].
    apply N.eqb_eq in Ea. subst sep.
    split; [reflexivity|]. split; [discriminate|]. split; [exact Hsub|].
    simpl span. exact Hsub.
Qed.

Lemma rstrip_by_app_run (p : char -> bool) (x y : str) :
  forallb p y = true -> rstrip_by p (x ++ y) = rstrip_by p x.
Proof.
  intros Hy.
  assert (Hnil : rstrip_by p y = []).
  { induction y as [|c y IH]; [reflexivity|]. simpl in *.
    apply andb_true_iff in Hy. destruct Hy as [Hc Hy].
    rewrite (IH Hy), Hc. reflexivity. }
  induction x as [|c x IH]; simpl; [exact Hnil|].
  rewrite IH. reflexivity.
Qed.

(** X19. A tracking parameter at the end of a URL does not count: when the
    added text is one tracking parameter, from its [?] or [&] to its end,
    the URL with it and the URL without it have the same normalized
    form. *)
Theorem _normalize_url_trailing_parameter (u t : str) :
  match_tracking lib t = Some [] ->
  _normalize_url lib (u ++ t) = _normalize_url lib u.
Proof.
  intros M.
  destruct (tracking_parameter_vanishes t M)
    as (sep & b & -> & Hw & He & Hsub & Hamp).
  unfold _normalize_url.
  destruct (sub_tracking_app b Hw He u) as [E|E]; rewrite E.
  - rewrite Hsub, app_nil_r. reflexivity.
  - rewrite Hamp, app_nil_r. reflexivity.
Qed.

Lemma sub_tracking_slashes (n : nat) :
  sub_tracking lib 0 (repeat SLASH n) = repeat SLASH n.
Proof.
  induction n as [|n IH]; [reflexivity|].
  simpl repeat. rewrite sub_tracking_cons. simpl. rewrite IH. reflexivity.
Qed.

(** X20. Slashes at the end of a URL do not count: a URL and the same URL
    followed by any number of slashes have the same normalized form. *)
Theorem _normalize_url_trailing_slashes (u : str) (n : nat) :
  _normalize_url lib (u ++ repeat SLASH n) = _normalize_url lib u.
Proof.
  destruct n as [|n]; [rewrite app_nil_r; reflexivity|].
  unfold _normalize_url.
  assert (Hw : is_word lib SLASH = false) by reflexivity.
  assert (He : SLASH <> 61%N) by discriminate.
  assert (E : exists m, sub_tracking lib 0 (u ++ repeat SLASH (S n)) =
                        sub_tracking lib 0 u ++ repeat SLASH m).
  { simpl repeat.
    destruct (sub_tracking_app (repeat SLASH n) Hw He u) as [E|E]; rewrite E.
    - exists (S n). f_equal. apply (sub_tracking_slashes (S n)).
    - exists 0.
      assert (Hall : forallb not_amp (SLASH :: repeat SLASH n) = true).
      { apply forallb_forall. intros c Hc.
        change (SLASH :: repeat SLASH n) with (repeat SLASH (S n)) in Hc.
        apply repeat_spec in Hc. subst c. reflexivity. }
      rewrite (span_all not_amp _ Hall). reflexivity. }
  destruct E as [m ->]. rewrite rstrip_by_app_run; [reflexivity|].
  apply forallb_forall. intros c Hc. apply repeat_spec in Hc. subst c.
  reflexivity.
Qed.

Lemma rstrip_by_app_keep (p : char -> bool) (a : str) (c : char) (x : str) :
  p c = false -> rstrip_by p (a ++ c :: x) = a ++ c :: rstrip_by p x.
Proof.
  intros Hc. induction a as [|a0 a IH]; simpl.
  - destruct (rstrip_by p x); [rewrite Hc|]; reflexivity.
  - rewrite IH. destruct a; reflexivity.
Qed.

(** X21. The scheme does not count: for a URL whose host is not empty
    (what follows the scheme begins with a character other than a slash, a
    question mark or an ampersand), the [http://] form and the [https://]
    form have the same normalized form. *)
Theorem _normalize_url_scheme (c : char) (r : str) :
  c <> SLASH -> c <> QUESTION -> c <> AMPERSAND ->
  _normalize_url lib (py "http://" ++ c :: r) =
  _normalize_url lib (py "https://" ++ c :: r).
Proof.
  intros Hs Hq Ha.
  apply N.eqb_neq in Hq, Ha.
  assert (Hslash : N.eqb SLASH c = false) by (apply N.eqb_neq; congruence).
  assert (Hc : sub_tracking lib 0 (c :: r) = c :: sub_tracking lib 0 r).
  { rewrite sub_tracking_cons. unfold match_tracking. rewrite Hq, Ha.
    reflexivity. }
  assert (Hold : py "http://" <> []) by discriminate.
  unfold _normalize_url.
  assert (E1 : sub_tracking lib 0 (py "http://" ++ c :: r) =
               py "http://" ++ c :: sub_tracking lib 0 r).
  { change (py "http://" ++ c :: r) with
      (104 :: 116 :: 116 :: 112 :: 58 :: 47 :: 47 :: c :: r)%N.
    do 7 (rewrite sub_tracking_cons; simpl match_tracking; cbv iota).
    rewrite Hc. reflexivity. }
  assert (E2 : sub_tracking lib 0 (py "https://" ++ c :: r) =
               py "https://" ++ c :: sub_tracking lib 0 r).
  { change (py "https://" ++ c :: r) with
      (104 :: 116 :: 116 :: 112 :: 115 :: 58 :: 47 :: 47 :: c :: r)%N.
    do 8 (rewrite sub_tracking_cons; simpl match_tracking; cbv iota).
    rewrite Hc. reflexivity. }
  rewrite E1, E2, !rstrip_by_app_keep by exact Hslash.
  set (y := c :: rstrip_by (N.eqb SLASH) (sub_tracking lib 0 r)).
  change (py "http://" ++ y) with
    (104 :: 116 :: 116 :: 112 :: 58 :: 47 :: 47 :: y)%N.
  change (py "https://" ++ y) with
    (104 :: 116 :: 116 :: 112 :: 115 :: 58 :: 47 :: 47 :: y)%N.
  rewrite (@replace_cons _ _ _ _ Hold). simpl strip_prefix. cbv iota.
  do 8 (rewrite (@replace_cons _ _ _ _ Hold); simpl strip_prefix; cbv iota).
  reflexivity.
Qed.

Lemma rstrip_by_last (p : char -> bool) (s x : str) (c : char) :
  p c = true -> rstrip_by p s <> x ++ [c].
Proof.
  intros Hc. revert x. induction s as [|c0 s IH]; intros x; simpl.
  - destruct x; discriminate.
  - destruct (rstrip_by p s) as [|r0 r] eqn:E.
    + destruct (p c0) eqn:E0; [destruct x; discriminate|].
      destruct x as [|x0 [|x1 x]]; try discriminate.
      simpl. intros H. injection H as ->. congruence.
    + destruct x as [|x0 x]; [discriminate|].
      simpl. intros H. injection H as _ H. exact (IH x H).
Qed.

Lemma snoc_of_app (a l x : str) (z : char) :
  l <> [] -> a ++ l = x ++ [z] -> exists y, l = y ++ [z].
Proof.
  intros Hl H. destruct (exists_last Hl) as (y & w & ->).
  rewrite app_assoc in H. apply app_inj_tail in H. destruct H as [_ ->].
  exists y. reflexivity.
Qed.

Lemma replace_scheme_last (s : str) :
  (forall x, s <> x ++ [SLASH]) ->
  (forall x, replace (py "http://") (py "https://") s <> x ++ [SLASH]) /\
  (s <> [] -> replace (py "http://") (py "https://") s <> []).
Proof.
  assert (Hold : py "http://" <> []) by discriminate.
  remember (length s) as n eqn:Hn. revert s Hn.
  induction n as [n IH] using lt_wf_ind. intros s Hn Hs.
  destruct s as [|c s]; [split; [intros [|? ?]; discriminate | congruence]|].
  rewrite (@replace_cons _ _ _ _ Hold).
  destruct (strip_prefix (py "http://") (c :: s)) as [r|] eqn:E.
  - apply strip_prefix_Some in E. split; [|discriminate].
    destruct r as [|r0 r].
    + exfalso. apply (Hs (py "http:/")). rewrite E. reflexivity.
    + destruct (IH (length (r0 :: r))) with (s := r0 :: r) as [H1 H2].
      * subst n. rewrite E. rewrite length_app. simpl. lia.
      * reflexivity.
      * intros x Hx. apply (Hs (py "http://" ++ x)).
        rewrite E, Hx, app_assoc. reflexivity.
      * intros x Hx. apply snoc_of_app in Hx; [|apply H2; discriminate].
        destruct Hx as [y Hy]. exact (H1 y Hy).
  - split; [|discriminate]. destruct s as [|s0 s].
    + intros x Hx. apply (Hs []). unfold replace in Hx. simpl in Hx.
      destruct x as [|x0 [|x1 x]]; try discriminate.
      simpl in Hx. injection Hx as ->. reflexivity.
    + destruct (IH (length (s0 :: s))) with (s := s0 :: s) as [H1 H2].
      * subst n. simpl. lia.
      * reflexivity.
      * intros x Hx. apply (Hs (c :: x)). rewrite Hx. reflexivity.
      * intros x Hx. apply (snoc_of_app [c]) in Hx; [|apply H2; discriminate].
        destruct Hx as [y Hy]. exact (H1 y Hy).
Qed.

Lemma _normalize_url_last (url x : str) :
  _normalize_url lib url <> x ++ [SLASH].
Proof.
  unfold _normalize_url. apply replace_scheme_last.
  intros y. apply rstrip_by_last. reflexivity.
Qed.

Lemma rstrip_by_id (p : char -> bool) (s : str) :
  (forall x c, p c = true -> s <> x ++ [c]) -> rstrip_by p s = s.
Proof.
  induction s as [|c0 s IH]; intros H; simpl; [reflexivity|].
  destruct s as [|c1 s].
  - simpl. destruct (p c0) eqn:E; [|reflexivity].
    exfalso. apply (H [] c0 E). reflexivity.
  - rewrite IH; [reflexivity|].
    intros x c Hc E. apply (H (c0 :: x) c Hc). rewrite E. reflexivity.
Qed.

(** X22. No normalized URL ends with a slash: stripping the slashes at
    the end of a normalized URL once more leaves it as it is. *)
Theorem _normalize_url_no_trailing_slash (url : str) :
  rstrip_by (N.eqb SLASH) (_normalize_url lib url) = _normalize_url lib url.
Proof.
  apply rstrip_by_id. intros x c Hc. apply N.eqb_eq in Hc. subst c.
  apply _normalize_url_last.
Qed.

End Urls.

(** ** The list of sources of the command line *)

Lemma split_on_pieces (sep : char) (s : str) :
  Forall (fun w => ~ In sep w) (split_on sep s) /\ split_on sep s <> [].
Proof.
  induction s as [|c s [IH Hne]]; simpl.
  - split; [|discriminate]. constructor; [intros []|constructor].
  - destruct (N.eqb c sep) eqn:E.
    + split; [|discriminate]. constructor; [intros []|exact IH].
    + apply N.eqb_neq in E. destruct (split_on sep s) as [|w ws];
        [congruence|]. split; [|discriminate].
      inversion IH as [|? ? Hw Hws]; subst. constructor; [|exact Hws].
      intros [H|H]; [congruence | exact (Hw H)].
Qed.

Lemma split_on_word (sep : char) (w : str) :
  ~ In sep w -> split_on sep w = [w].
Proof.
  induction w as [|c w IH]; simpl; intros H; [reflexivity|].
  destruct (N.eqb c sep) eqn:E.
  - apply N.eqb_eq in E. exfalso. apply H. left. exact E.
  - rewrite IH; [reflexivity|]. intros Hin. apply H. right. exact Hin.
Qed.

Lemma split_on_app (sep : char) (w rest : str) :
  ~ In sep w -> split_on sep (w ++ sep :: rest) = w :: split_on sep rest.
Proof.
  induction w as [|c w IH]; simpl; intros H.
  - rewrite N.eqb_refl. reflexivity.
  - destruct (N.eqb c sep) eqn:E.
    + apply N.eqb_eq in E. exfalso. apply H. left. exact E.
    + rewrite IH; [reflexivity|]. intros Hin. apply H. right. exact Hin.
Qed.

Lemma split_on_join (sep : char) (names : list str) :
  names <> [] -> Forall (fun w => ~ In sep w) names ->
  split_on sep (join [sep] names) = names.
Proof.
  intros Hne H. revert Hne.
  induction H as [|w names Hw Hnames IH]; intros Hne;
    [exfalso; apply Hne; reflexivity|].
  simpl. destruct names as [|w' names].
  - apply split_on_word. exact Hw.
  - simpl app. rewrite split_on_app by exact Hw.
    f_equal. apply IH. discriminate.
Qed.

Lemma rstrip_by_idem (p : char -> bool) (s : str) :
  rstrip_by p (rstrip_by p s) = rstrip_by p s.
Proof.
  induction s as [|c s IH]; simpl; [reflexivity|].
  destruct (rstrip_by p s) as [|r0 r] eqn:E.
  - destruct (p c) eqn:Ec; simpl; [reflexivity|]. rewrite Ec. reflexivity.
  - simpl in IH. simpl. rewrite IH. reflexivity.
Qed.

Section Sources.

Variable lib : PyLib.

Lemma strip_idem (s : str) : strip lib (strip lib s) = strip lib s.
Proof.
  unfold strip.
  assert (Hd : drop_while (is_space lib) s = [] \/
               exists c s', drop_while (is_space lib) s = c :: s' /\
                            is_space lib c = false).
  { induction s as [|c s IH]; simpl; [left; reflexivity|].
    destruct (is_space lib c) eqn:E; [exact IH|].
    right. exists c, s. split; [reflexivity | exact E]. }
  destruct Hd as [->|(c & s' & -> & Hc)]; [reflexivity|].
  assert (R : forall x, rstrip_by (is_space lib) (c :: x) =
                        c :: rstrip_by (is_space lib) x)
    by (intros x; apply (@rstrip_by_app_keep (is_space lib) [] c x Hc)).
  rewrite R. simpl drop_while. rewrite Hc, R, rstrip_by_idem. reflexivity.
Qed.

(** X23. Every name that [main] reads off the [--sources] option is
    non-empty, contains no comma and has no whitespace at either end
    (stripping it again changes nothing). *)
Theorem parse_sources_clean (sources : str) :
  Forall (fun name => name <> [] /\ ~ In COMMA name /\ strip lib name = name)
         (parse_sources lib sources).
Proof.
  unfold parse_sources. apply Forall_forall. intros name Hname.
  apply in_map_iff in Hname. destruct Hname as (w & <- & Hw).
  apply filter_In in Hw. destruct Hw as [Hw Hne].
  split; [|split].
  - intros E. rewrite E in Hne. discriminate.
  - destruct (split_on_pieces COMMA sources) as [Hpieces _].
    rewrite Forall_forall in Hpieces. specialize (Hpieces w Hw).
    assert (F : Forall (fun c => c <> COMMA) (strip lib w)).
    { unfold strip. apply rstrip_by_Forall, drop_while_Forall.
      apply Forall_forall. intros c Hc E. subst c. exact (Hpieces Hc). }
    rewrite Forall_forall in F. intros Hin. exact (F _ Hin eq_refl).
  - apply strip_idem.
Qed.

(** X24. Reading back a joined list: for names that are non-empty, without
    comma and without whitespace at their ends, [main] reads the names
    themselves, in their order, off the names joined by commas, which is
    how the default of [--sources] is built from [ALL_SOURCES]. *)
Theorem parse_sources_join (names : list str) :
  Forall (fun name => name <> [] /\ ~ In COMMA name /\ strip lib name = name)
         names ->
  parse_sources lib (join [COMMA] names) = names.
Proof.
  intros H. unfold parse_sources.
  destruct names as [|n names]; [reflexivity|].
  rewrite split_on_join; [|discriminate|].
  - induction H as [|w ws (Hne & _ & Hs) Hws IH]; [reflexivity|].
    simpl. rewrite Hs. destruct w as [|w0 w]; [congruence|]. simpl.
    rewrite Hs. f_equal. exact IH.
  - eapply Forall_impl; [|exact H]. intros w Hw. apply Hw.
Qed.

End Sources.

(** ** The two phases together *)

Section WholeDeduplicator.

Variable lib : PyLib.
Variable threshold : Q.

Lemma _deduplicate_by_title_nil (h : heap) (items : list ref) :
  snd (_deduplicate_by_title lib threshold h items) = [] <-> items = [].
Proof.
  split; [|intros ->; reflexivity].
  intros E. destruct items as [|i items]; [reflexivity|]. exfalso.
  unfold _deduplicate_by_title in E.
  assert (Hperm := sorted_desc_perm (score h) (i :: items)).
  fold (sort_by_engagement h (i :: items)) in Hperm.
  destruct (sort_by_engagement h (i :: items)) as [|x ranked].
  - apply Permutation_sym, Permutation_nil in Hperm. discriminate.
  - simpl in E.
    assert (Hin := scan_keeps lib threshold ranked h [x] x (or_introl eq_refl)).
    rewrite E in Hin. destruct Hin.
Qed.

Lemma _deduplicate_by_url_covers (h : heap) (items : list ref) (x : ref) :
  In x items ->
  exists y, In y (_deduplicate_by_url lib h items) /\
            url_key lib h y = url_key lib h x /\ (score h x <= score h y)%Q.
Proof.
  intros Hx. unfold _deduplicate_by_url.
  destruct (@url_fold_covers lib h items [] x (or_introl Hx)) as (v & Hv & Hle).
  assert (Hnil : NoDup (List.map fst (@nil (str * ref)))) by constructor.
  destruct (url_fold_invariant lib h items [] Hnil) as (_ & Hkey & _);
    [intros ? ? []|].
  apply dict_lookup_Some in Hv. exists v. split; [|split].
  - change v with (snd (url_key lib h x, v)). apply in_map. exact Hv.
  - apply Hkey. exact Hv.
  - exact Hle.
Qed.

(** X25. What [deduplicate] returns: items of its input, ranked by score,
    with pairwise different normalized URLs, no one similar to an item
    that stands before it; and it returns none only for an empty input. *)
Theorem deduplicate_output (h : heap) (items : list ref) :
  let res := deduplicate lib threshold h items in
  incl (snd res) items /\
  NoDup (List.map (url_key lib (fst res)) (snd res)) /\
  StronglySorted (ranked_before (score (fst res))) (snd res) /\
  (forall pre x post,
      snd res = pre ++ x :: post ->
      forall k, In k pre -> (similarity lib (fst res) x k < threshold)%Q) /\
  (snd res = [] <-> items = []).
Proof.
  cbv zeta. unfold deduplicate.
  destruct (_deduplicate_by_url_distinct lib h items) as [Hnd Hin].
  destruct (_deduplicate_by_title_spec lib threshold h
              (_deduplicate_by_url lib h items))
    as (Hext & Hset & Hsorted & Hincl & Hmap).
  split; [|split; [|split; [|split]]].
  - intros z Hz. apply Hin, Hincl, Hz.
  - apply Hmap in Hnd. erewrite map_ext; [exact Hnd|].
    intros r. unfold url_key. rewrite (heap_extended_url _ Hext). reflexivity.
  - eapply StronglySorted_ext; [|exact Hsorted].
    unfold ranked_before. intros a b H.
    rewrite !(heap_extended_score _ Hext). exact H.
  - intros pre x post E. apply find_duplicate_None. eapply Hset. exact E.
  - rewrite _deduplicate_by_title_nil. split.
    + intros E. destruct items as [|i items]; [reflexivity|]. exfalso.
      destruct (_deduplicate_by_url_covers h (i :: items) i (or_introl eq_refl))
        as (y & Hy & _).
      rewrite E in Hy. destruct Hy.
    + intros ->. reflexivity.
Qed.

(** X26. [deduplicate] loses no story and no top score: for every input
    item there is an input item with the same normalized URL and a score at
    least as high, which is returned or is similar, at the threshold or
    above, to a returned item that scores at least as high again. *)
Theorem deduplicate_represents (h : heap) (items : list ref) (x : ref) :
  In x items ->
  let out := snd (deduplicate lib threshold h items) in
  exists y k,
    In y items /\ url_key lib h y = url_key lib h x /\
    (score h x <= score h y)%Q /\
    In k out /\
    (k = y \/ (threshold <= similarity lib h y k)%Q) /\
    (score h y <= score h k)%Q.
Proof.
  intros Hx. cbv zeta. unfold deduplicate.
  destruct (_deduplicate_by_url_distinct lib h items) as [_ Hin].
  destruct (_deduplicate_by_url_covers h items x Hx) as (y & Hy & Hkey & Hle).
  exists y.
  set (u := _deduplicate_by_url lib h items) in *.
  assert (Hcov :
    In y (snd (_deduplicate_by_title lib threshold h u)) \/
    exists k, In k (snd (_deduplicate_by_title lib threshold h u)) /\
              (threshold <= similarity lib h y k)%Q /\
              (score h y <= score h k)%Q).
  { unfold _deduplicate_by_title. destruct u as [|i u]; [destruct Hy|].
    apply scan_covers.
    - apply heap_extended_refl.
    - apply sorted_desc_sorted.
    - apply (Permutation_in _ (sorted_desc_perm (score h) (i :: u))). exact Hy. }
  destruct Hcov as [Hk|(k & Hk & Hsim & Hsc)].
  - exists y. repeat split; try assumption; [apply Hin, Hy | left; reflexivity |
      apply Qle_refl].
  - exists k. repeat split; try assumption; [apply Hin, Hy | right; exact Hsim].
Qed.

End WholeDeduplicator.

(** ** The keyword loop of a collector *)

Lemma search_keywords_as_empty (searches : list (outcome (list ref)))
  (max_items : Z) (items : list ref) :
  search_keywords (List.map as_empty searches) max_items items =
  search_keywords searches max_items items.
Proof.
  revert items. induction searches as [|s searches IH]; intros items;
    [reflexivity|].
  simpl. destruct s as [results|e]; simpl.
  - destruct (max_items <=? Z.of_nat (length (items ++ results)))%Z;
      [reflexivity | apply IH].
  - destruct (is_Exception e) eqn:He; simpl; [|rewrite He; reflexivity].
    rewrite app_nil_r.
    destruct (max_items <=? Z.of_nat (length items))%Z; [reflexivity | apply IH].
Qed.

Lemma search_keywords_all_failed (searches : list (outcome (list ref)))
  (max_items : Z) (items : list ref) :
  Forall (fun s => exists e, s = Raised e /\ is_Exception e = true) searches ->
  search_keywords searches max_items items = Returned items.
Proof.
  induction 1 as [|s searches (e & -> & He) _ IH]; simpl; [reflexivity|].
  rewrite He. rewrite IH.
  destruct (max_items <=? Z.of_nat (length items))%Z; reflexivity.
Qed.

(** X27. A failed search is an empty search: the Hacker News collector
    returns what it would return had every search that raised an
    [Exception] found nothing, and it returns the empty list when every
    search fails so. *)
Theorem hackernews_collect_isolates_searches (h : heap) (max_items : Z)
  (searches : list (outcome (list ref))) :
  hackernews_collect h max_items searches =
    hackernews_collect h max_items (List.map as_empty searches) /\
  (Forall (fun s => exists e, s = Raised e /\ is_Exception e = true) searches ->
   hackernews_collect h max_items searches = Returned []).
Proof.
  unfold hackernews_collect. split.
  - rewrite search_keywords_as_empty. reflexivity.
  - intros H. rewrite (search_keywords_all_failed max_items [] H).
    f_equal. unfold _deduplicate_and_sort, slice_to. simpl.
    destruct (max_items <? 0)%Z; [reflexivity|].
    destruct (Z.to_nat max_items); reflexivity.
Qed.

(* ------------------------------------------------------------------ *)
(** * The further properties at concrete inputs *)

Lemma _deduplicate_by_title_covers_witness :
  let h := heap_of
    [sample_item "Claude 3.5 Released" "hackernews" "https://a.example/1"
                 90 4 ["Claude"%string] "";
     sample_item "claude 3.5 released!!" "reddit" "https://b.example/2"
                 7 1 ["Claude"%string; "Cursor"%string] ""] in
  let kept := snd (_deduplicate_by_title ascii_lib default_threshold h [0; 1]) in
  In 1 kept \/
  exists k, In k kept /\
            (default_threshold <= similarity ascii_lib h 1%nat k)%Q /\
            (score h 1%nat <= score h k)%Q.
Proof.
  intros h.
  apply (@_deduplicate_by_title_covers ascii_lib default_threshold h [0; 1] 1).
  simpl. right. left. reflexivity.
Defined.

Lemma _deduplicate_by_title_carries_tags_witness :
  let h := heap_of
    [sample_item "Claude 3.5 Released" "hackernews" "https://a.example/1"
                 90 4 ["Claude"%string] "";
     sample_item "claude 3.5 released!!" "reddit" "https://b.example/2"
                 7 1 ["Claude"%string; "Cursor"%string] ""] in
  let res := _deduplicate_by_title ascii_lib default_threshold h [0; 1] in
  exists k, In k (snd res) /\ In (py "Cursor") (tags (fst res k)).
Proof.
  intros h.
  apply (@_deduplicate_by_title_carries_tags ascii_lib default_threshold
           h [0; 1] 1 (py "Cursor")).
  - simpl. right. left. reflexivity.
  - simpl. right. left. reflexivity.
Defined.

Lemma deduplicate_keeps_tags_distinct_witness :
  let h := heap_of
    [sample_item "Claude 3.5 Released" "hackernews" "https://a.example/1"
                 90 4 ["Claude"%string] "";
     sample_item "claude 3.5 released!!" "reddit" "https://b.example/2"
                 7 1 ["Claude"%string; "Cursor"%string] ""] in
  NoDup (tags (fst (deduplicate ascii_lib default_threshold h [0; 1]) 0)).
Proof.
  intros h.
  apply (@deduplicate_keeps_tags_distinct ascii_lib default_threshold h [0; 1]).
  intros r. destruct r as [|[|r]].
  - constructor; [intros []|constructor].
  - constructor; [|constructor; [intros []|constructor]].
    simpl. intros [H|[]]. discriminate H.
  - unfold h, heap_of. destruct r; constructor.
Defined.

Lemma filter_by_keywords_iff_tagged_witness :
  filter_by_keywords ascii_lib (get_all_keywords sample_products)
                     (py "Anthropic ships Claude 4") = true <->
  exists name rest,
    match_product ascii_lib (py "Anthropic ships Claude 4") sample_products
    = Some (name :: rest).
Proof.
  apply (@filter_by_keywords_iff_tagged ascii_lib
           (py "Anthropic ships Claude 4") sample_products).
  repeat constructor; discriminate.
Defined.

Lemma tag_products_frame_witness :
  let h := heap_of
    [sample_item "Anthropic ships Claude 4" "hackernews" "https://a.example/1"
                 90 4 [] ""] in
  let h' := heap_set_tags h 0 [py "Claude"] in
  (forall r, r <> 0 -> h' r = h r) /\
  same_but_tags (h 0) (h' 0) /\
  (forall t, In t (tags (h' 0)) ->
     exists p, In p sample_products /\ product_name p = Some t /\
               product_matches ascii_lib
                 (lower ascii_lib (title (h 0) ++ [SPACE] ++ content (h 0))) p
               = true) /\
  (NoDup (List.map product_name sample_products) -> NoDup (tags (h' 0))).
Proof.
  intros h h'.
  apply (@tag_products_frame ascii_lib sample_products h h' 0).
  reflexivity.
Defined.

Lemma _truncate_bounded_witness :
  List.length (_truncate (py "hello world") 5) <= Z.to_nat 5 + 3 /\
  firstn (Z.to_nat 5) (_truncate (py "hello world") 5) =
    firstn (Z.to_nat 5) (py "hello world") /\
  _truncate (_truncate (py "hello world") 5) 5 = _truncate (py "hello world") 5.
Proof.
  apply (@_truncate_bounded (py "hello world") 5%Z). lia.
Defined.

Lemma _normalize_url_trailing_parameter_witness :
  _normalize_url ascii_lib (py "https://x.com/p?id=3" ++ py "&utm_source=y") =
  _normalize_url ascii_lib (py "https://x.com/p?id=3").
Proof.
  apply (@_normalize_url_trailing_parameter ascii_lib
           (py "https://x.com/p?id=3") (py "&utm_source=y")).
  reflexivity.
Defined.

Lemma _normalize_url_scheme_witness :
  _normalize_url ascii_lib (py "http://" ++ 120%N :: py ".com/p/") =
  _normalize_url ascii_lib (py "https://" ++ 120%N :: py ".com/p/").
Proof.
  apply (@_normalize_url_scheme ascii_lib 120%N (py ".com/p/")); discriminate.
Defined.

Lemma parse_sources_join_witness :
  parse_sources ascii_lib (join [COMMA] ALL_SOURCES) = ALL_SOURCES.
Proof.
  apply (@parse_sources_join ascii_lib ALL_SOURCES).
  repeat constructor; try discriminate; try reflexivity;
    vm_compute; intuition discriminate.
Defined.

Lemma deduplicate_represents_witness :
  let h := heap_of
    [sample_item "Alpha" "hackernews" "http://a.example/1/" 3 1
                 ["Claude"%string] "";
     sample_item "alpha!" "reddit" "https://b.example/2" 40 0
                 ["Codex"%string] "";
     sample_item "Zzz" "twitter" "https://a.example/1?ref=hn" 2 0 [] "S"] in
  let out := snd (deduplicate ascii_lib default_threshold h [0; 1; 2]) in
  exists y k,
    In y [0; 1; 2] /\ url_key ascii_lib h y = url_key ascii_lib h 0 /\
    (score h 0%nat <= score h y)%Q /\
    In k out /\
    (k = y \/ (default_threshold <= similarity ascii_lib h y k)%Q) /\
    (score h y <= score h k)%Q.
Proof.
  intros h.
  apply (@deduplicate_represents ascii_lib default_threshold h [0; 1; 2] 0).
  simpl. left. reflexivity.
Defined.
